(** * The stencil operator of the AllScale API: schedulers over space-time zoids

    A shallow embedding of
    [code/api/include/allscale/api/user/operator/stencil.h]: the bases,
    slopes and zoids of the recursive scheduler, the plain scanner with its
    wrap-around, the execution plan, and the five implementations of
    [stencil], followed by the properties claimed of them. *)

From stdpp Require Import base list numbers functions sorting.

Open Scope Z_scope.

(** ** Machine integers

    The code mixes [int] (32 bit), [std::int64_t] and [std::size_t]
    (64 bit, unsigned).  Signed arithmetic that overflows is undefined in
    C++, so sums and products are those of [Z]; the conversions between the
    three types are defined and reduce modulo the width of the target. *)

Module MachineInt.

Definition int_min : Z := - 2 ^ 31.
Definition int_max : Z := 2 ^ 31 - 1.

(** conversion to [int] *)
Definition to_int (z : Z) : Z := (z + 2 ^ 31) `mod` 2 ^ 32 - 2 ^ 31.

(** conversion to [std::size_t] *)
Definition to_size_t (z : Z) : Z := z `mod` 2 ^ 64.

Definition is_int (z : Z) : Prop := int_min ≤ z ≤ int_max.

Lemma to_int_small z : - 2 ^ 31 ≤ z < 2 ^ 31 → to_int z = z.
Proof. intros H. unfold to_int. rewrite Z.mod_small; lia. Qed.

Lemma to_size_t_small z : 0 ≤ z < 2 ^ 64 → to_size_t z = z.
Proof. intros H. unfold to_size_t. rewrite Z.mod_small; lia. Qed.

Lemma to_int_range z : - 2 ^ 31 ≤ to_int z < 2 ^ 31.
Proof.
  unfold to_int.
  pose proof (Z.mod_pos_bound (z + 2 ^ 31) (2 ^ 32) ltac:(lia)). lia.
Qed.

End MachineInt.

Import MachineInt.

(** ** Coordinates and bases *)

(** [Coordinate<dims>] and [Size<dims>] are vectors of [std::int64_t];
    [Slopes<dims>] likewise.  A vector of [dims] entries is a list of that
    length. *)
Abbreviation Coordinate := (list Z) (only parsing).
Abbreviation Slopes := (list Z) (only parsing).

(** [Base<dims>::range] *)
Record range : Type := Range { rbegin : Z; rend : Z }.

Global Instance range_inhabited : Inhabited range := populate (Range 0 0).
Global Instance range_eq_dec : EqDecision range.
Proof. solve_decision. Defined.

(** [Base<dims>]: the array [boundaries]. *)
Abbreviation Base := (list range) (only parsing).

Module Base.

(** [Base::full(const data::Vector<T,dims>& size)].  The overload
    [full(std::size_t size)] for a 1-d base casts its argument to
    [index_type]; it is [full] on the one-entry vector for the sizes below
    [2^63], and is not modelled beyond. *)
Definition full (size : Coordinate) : Base :=
  (λ s, Range 0 s) <$> size.

(** [Base::zero()]: [full(0)], for a 1-d base *)
Definition zero : Base := full [0].

(** [Base::size()]: the product of the widths, 0 as soon as one range is
    empty.  The result is a [std::size_t]: the product is reduced modulo
    [2^64]. *)
Fixpoint size_from (res : Z) (b : Base) : Z :=
  match b with
  | [] => res
  | cur :: rest =>
      if decide (rend cur ≤ rbegin cur) then 0
      else size_from (to_size_t (res * (rend cur - rbegin cur))) rest
  end.

Definition size (b : Base) : Z := size_from 1 b.

Definition empty (b : Base) : bool := bool_decide (size b = 0).

(** [Base::getWidth(dim)] *)
Definition getWidth (b : Base) (dim : nat) : Z :=
  rend (b !!! dim) - rbegin (b !!! dim).

(** [Base::extend()] *)
Definition extend (b : Base) : Coordinate :=
  (λ i, getWidth b i) <$> seq 0 (length b).

(** [Base::getMinimumWidth()] *)
Definition getMinimumWidth (b : Base) : Z :=
  foldl (λ res i, Z.min res (getWidth b i)) (getWidth b 0) (seq 1 (length b - 1)).

(** [Base::getMaximumWidth()] *)
Definition getMaximumWidth (b : Base) : Z :=
  foldl (λ res i, Z.max res (getWidth b i)) (getWidth b 0) (seq 1 (length b - 1)).

(** [Base::operator+] *)
Definition translate (b : Base) (other : Coordinate) : Base :=
  (λ i, Range (rbegin (b !!! i) + other !!! i) (rend (b !!! i) + other !!! i))
    <$> seq 0 (length b).

End Base.

(** ** The plain scanner *)

Section scanner.
Context {S : Type}.

(** [for (pos[idx] = from; pos[idx] < limit; pos[idx]++) body] *)
Definition for_range (from limit : Z) (body : Z → S → S) (s : S) : S :=
  foldl (λ s v, body v s) s (seqZ from (limit - from)).

(** [plain_scanner<dim>::operator()], for a base of [full_dim]
    dimensions.  The scanner for [dim] walks the axis
    [idx = full_dim - dim - 1] and hands every position to the nested
    scanner for [dim - 1]; the scanner for 0 calls [lambda].  The code
    updates [pos] in place; as every axis from [idx] on is assigned by its
    own loop before [lambda] sees the vector, handing the updated vector
    down gives [lambda] the same argument. *)
Fixpoint plain_scanner (dim : nat) (full_dim : nat) (base : Base)
    (lambda : Coordinate → Z → S → S) (pos : Coordinate) (t : Z)
    (size : Coordinate) (s : S) : S :=
  let idx := (full_dim - dim - 1)%nat in
  (* compute boundaries *)
  let from := rbegin (base !!! idx) in
  let to := rend (base !!! idx) in
  let length := size !!! idx in
  (* shift range to size window *)
  let '(from, to) :=
    if decide (from > length) then (from - length, to - length) else (from, to) in
  let nested (pos : Coordinate) (s : S) : S :=
    match dim with
    | O => lambda pos t s
    | Datatypes.S d => plain_scanner d full_dim base lambda pos t size s
    end in
  (* process range from start to limit *)
  let limit := Z.min to length in
  let s := for_range from limit (λ v, nested (<[idx := v]> pos)) s in
  (* and if necessary the elements beyond, after a wrap-around *)
  if decide (to ≤ length) then s
  else
    let to := to - length in
    for_range 0 to (λ v, nested (<[idx := v]> pos)) s.

End scanner.

(** ** Zoids *)

(** [Zoid<dims>]: the projection of the zoid to the space dimensions, the
    direction of the slopes, the start time and the end time
    ([time_type = std::size_t]).  [dims] is the length of [base]. *)
Record Zoid : Type := MkZoid {
  base : Base;
  slopes : Slopes;
  t_begin : Z;
  t_end : Z
}.

Global Instance Zoid_inhabited : Inhabited Zoid := populate (MkZoid [] [] 0 0).
Global Instance Zoid_eq_dec : EqDecision Zoid.
Proof. solve_decision. Defined.

Module Zoid.

Definition dims (z : Zoid) : nat := length (base z).

(** the update of the plain for the next level, in [forEach] *)
Definition advance (plainBase : Base) (slopes : Slopes) : Base :=
  imap (λ i r, Range (rbegin r + slopes !!! i) (rend r - slopes !!! i)) plainBase.

(** [Zoid::forEach]: the scanner visits one plain per time step, with
    [odd] on the odd steps and [even] on the even ones.  The scanner takes
    the time as an [int]. *)
Definition forEach {S : Type} (z : Zoid) (even odd : Coordinate → Z → S → S)
    (limits : Coordinate) (s : S) : S :=
  let x : Coordinate := replicate (dims z) 0 in
  snd (foldl
    (λ (st : list range * S) (t : Z),
       let plainBase := fst st in
       (* process this plain *)
       let s' :=
         if bool_decide (Z.land t 1 ≠ 0)
         then plain_scanner (dims z - 1) (dims z) plainBase odd x (to_int t) limits (snd st)
         else plain_scanner (dims z - 1) (dims z) plainBase even x (to_int t) limits (snd st) in
       (* update the plain for the next level *)
       (advance plainBase (slopes z), s'))
    (base z, s)
    (seqZ (t_begin z) (t_end z - t_begin z))).

(** [Zoid::getHeight]: the difference of two [std::size_t], as an [int]. *)
Definition getHeight (z : Zoid) : Z :=
  to_int (to_size_t (t_end z - t_begin z)).

(** [Zoid::getWidth(dim)]: the width of the shadow of the zoid on the
    given space dimension, as an [int]. *)
Definition getWidth (z : Zoid) (dim : nat) : Z :=
  let res := to_int (Base.getWidth (base z) dim) in
  if bool_decide (slopes z !!! dim < 0) then res + 2 * getHeight z else res.

(** [Zoid::isTerminal] *)
Definition isTerminal (z : Zoid) : bool :=
  bool_decide (getHeight z ≤ 1) && bool_decide (Base.getMaximumWidth (base z) < 3).

(** [Zoid::isSplitable(dim)] *)
Definition isSplitable (z : Zoid) (dim : nat) : bool :=
  bool_decide (getWidth z dim > 4 * getHeight z).

(** [Zoid::isSpaceSplitable] *)
Definition isSpaceSplitable (z : Zoid) : bool :=
  existsb (isSplitable z) (seq 0 (dims z)).

(** [Zoid::TimeDecomposition] *)
Record TimeDecomposition : Type := MkTimeDecomposition {
  top : Zoid;
  bottom : Zoid
}.

(** [Zoid::splitTime] *)
Definition splitTime (z : Zoid) : TimeDecomposition :=
  let split := getHeight z `quot` 2 in
  let mid :=
    imap (λ i r,
            let diff := slopes z !!! i * split in
            Range (rbegin r + diff) (rend r - diff)) (base z) in
  {| top := MkZoid mid (slopes z) (to_size_t (t_begin z + split)) (t_end z);
     bottom := MkZoid (base z) (slopes z) (t_begin z) (to_size_t (t_begin z + split)) |}.

(** [Zoid::SpaceDecomposition] *)
Record SpaceDecomposition : Type := MkSpaceDecomposition {
  l : Zoid;
  c : Zoid;
  r : Zoid;
  opening : bool
}.

(** the search for the longest dimension in [splitSpace]: the first
    dimension whose shadow is wider than that of all before it, and wider
    than 0. *)
Definition longest_dimension (z : Zoid) : nat * Z :=
  foldl (λ (acc : nat * Z) (i : nat),
           let width := getWidth z i in
           if bool_decide (width > snd acc) then (i, width) else acc)
        (0%nat, 0) (seq 0 (dims z)).

(** [Zoid::splitSpace] *)
Definition splitSpace (z : Zoid) : SpaceDecomposition :=
  let split_dim := fst (longest_dimension z) in
  (* get the split point *)
  let b := base z !!! split_dim in
  let center := (rbegin b + rend b) `quot` 2 in
  let hight := getHeight z in
  let lft := if bool_decide (slopes z !!! split_dim < 0) then center - hight else center in
  let rgt := if bool_decide (slopes z !!! split_dim < 0) then center + hight else center in
  {| l := MkZoid (<[split_dim := Range (rbegin b) lft]> (base z))
                 (slopes z) (t_begin z) (t_end z);
     c := MkZoid (<[split_dim := Range lft rgt]> (base z))
                 (<[split_dim := slopes z !!! split_dim * -1]> (slopes z))
                 (t_begin z) (t_end z);
     r := MkZoid (<[split_dim := Range rgt (rend b)]> (base z))
                 (slopes z) (t_begin z) (t_end z);
     opening := bool_decide (slopes z !!! split_dim < 0) |}.

End Zoid.

(** ** The execution plan *)

(** [i & (1 << j)] is not zero *)
Definition bit_set (i j : nat) : bool :=
  bool_decide (Z.land (Z.of_nat i) (Z.shiftl 1 (Z.of_nat j)) ≠ 0).

(** [__builtin_popcount] *)
Fixpoint popcount_pos (p : positive) : nat :=
  match p with
  | xH => 1
  | xO q => popcount_pos q
  | xI q => S (popcount_pos q)
  end.

Definition popcount (n : nat) : nat :=
  match Z.of_nat n with
  | Zpos p => popcount_pos p
  | _ => 0%nat
  end.

Module ExecutionPlan.

(** the execution plan of one layer: an embedded hyper-cube, an array of
    [1 << Dims] zoids *)
Abbreviation layer_plan := (list Zoid) (only parsing).

(** the local [struct split] of [create] *)
Record split : Type := MkSplit {
  split_left : range;
  split_right : range
}.

Global Instance split_inhabited : Inhabited split :=
  populate (MkSplit inhabitant inhabitant).

(** the base area partitioning of [create] *)
Definition splits (base : Base) : list split :=
  let size := Base.extend base in
  let width := Base.getMinimumWidth base in
  (λ i : nat,
     let curWidth := size !!! i in
     let mid := curWidth - (curWidth - width) `quot` 2 in
     MkSplit (Range 0 mid) (Range mid curWidth)) <$> seq 0 (length base).

(** the zoid for the binary pattern [i] in the layer from [t0] to [t1]:
    its base is moved to the centre of a field, an edge or a corner. *)
Definition zoid_of_pattern (base : Base) (sp : list split) (t0 t1 : Z) (i : nat) : Zoid :=
  let Dims := length base in
  let '(curBase, slopes) :=
    foldl (λ (acc : list range * list Z) (j : nat),
             if bit_set i j
             then (<[j := split_right (sp !!! j)]> (fst acc), <[j := -1]> (snd acc))
             else (<[j := split_left (sp !!! j)]> (fst acc), <[j := 1]> (snd acc)))
          (base, replicate Dims 0) (seq 0 Dims) in
  MkZoid curBase slopes (to_size_t t0) t1.

(** the list of zoids of the layer from [t0] to [t1] *)
Definition layer (base : Base) (sp : list split) (t0 t1 : Z) : layer_plan :=
  zoid_of_pattern base sp t0 t1 <$> seq 0 (2 ^ length base).

(** the loop of [create] over the time layers, from the value [t0] of its
    counter on.  The counter is an [int] and [height] a [std::int64_t];
    when [height] is 0 the counter never advances, so the loop is given
    fuel and [None] says that the fuel did not suffice. *)
Fixpoint create_loop (fuel : nat) (base : Base) (sp : list split) (height steps t0 : Z)
    : option (list (list Zoid)) :=
  if bool_decide (t0 < steps) then
    match fuel with
    | O => None
    | S fuel' =>
        (* get the top of the current layer *)
        let t1 := Z.min (to_size_t (t0 + height)) (to_size_t steps) in
        rest ← create_loop fuel' base sp height steps (to_int (t0 + height));
        Some (layer base sp t0 t1 :: rest)
    end
  else Some [].

(** [ExecutionPlan::create] *)
Definition create (fuel : nat) (base : Base) (steps : Z) : option (list (list Zoid)) :=
  (* the smallest width (this is the limiting factor for the height) *)
  let width := Base.getMinimumWidth base in
  (* the height of the largest zoids, thus the height of each layer *)
  let height := width `quot` 2 in
  create_loop fuel base (splits base) height steps 0.

(** [ExecutionPlan::runSequential].  [order] is the array of the task
    indices after [std::sort] by the number of 1-bits. *)
Definition runSequential {S : Type} (order : list nat) (layers : list (list Zoid))
    (even odd : Coordinate → Z → S → S) (limits : Coordinate) (s : S) : S :=
  foldl (λ s cur,
           foldl (λ s idx, Zoid.forEach (cur !!! idx) even odd limits s) s order)
        s layers.

(** What [std::sort] guarantees of [order]: a rearrangement of the indices
    0 .. 2^Dims - 1 in which the number of 1-bits never decreases.  The
    order of two indices with the same number of bits is not determined. *)
Definition sorted_by_bits (Dims : nat) (order : list nat) : Prop :=
  order ≡ₚ seq 0 (2 ^ Dims) ∧
  StronglySorted (λ a b, (popcount a ≤ popcount b)%nat) order.

End ExecutionPlan.

(** ** Containers *)

(** Modelled from the spec: the container types ([data::Grid], vectors) are
    not part of this file.  The operator consumes [size()], the per-axis
    extents, indexed access to the cells, and the construction of a fresh
    container from a size.  A container is its size and the content of its
    cells; a 1-d container is indexed by one-entry coordinates (the
    [coordinate_converter] takes [pos[0]] for it). *)
Record Container (V : Type) : Type := MkContainer {
  c_size : Coordinate;
  c_at : Coordinate → V
}.
Arguments MkContainer {V} _ _.
Arguments c_size {V} _.
Arguments c_at {V} _ _.

(** [c[p] = v] *)
Definition c_set {V : Type} (c : Container V) (p : Coordinate) (v : V) : Container V :=
  MkContainer (c_size c) (<[p := v]> (c_at c)).

(** [Container b(size)] *)
Definition c_fresh {V : Type} `{Inhabited V} (size : Coordinate) : Container V :=
  MkContainer size (λ _, inhabitant).

(** the positions of a container of the given size *)
Definition in_grid (size : Coordinate) (p : Coordinate) : Prop :=
  Forall2 (λ n x, 0 ≤ x < n) size p.

Global Instance in_grid_dec size p : Decision (in_grid size p).
Proof. unfold in_grid. apply _. Defined.

(** two containers with the same size and the same content in every cell *)
Definition same_contents {V : Type} (c1 c2 : Container V) : Prop :=
  c_size c1 = c_size c2 ∧ ∀ p, in_grid (c_size c1) p → c_at c1 p = c_at c2 p.

(** the two buffers [a] and [b] of an implementation *)
Record store (V : Type) : Type := MkStore {
  st_a : Container V;
  st_b : Container V
}.
Arguments MkStore {V} _ _.
Arguments st_a {V} _.
Arguments st_b {V} _.

(** [std::swap(a,b)] *)
Definition swap_ab {V : Type} (st : store V) : store V :=
  MkStore (st_b st) (st_a st).

(** the pointers [x] and [y] of the iterative implementations point to [a]
    or to [b] *)
Inductive ptr : Type := ptr_a | ptr_b.

Global Instance ptr_eq_dec : EqDecision ptr.
Proof. solve_decision. Defined.

Definition deref {V : Type} (st : store V) (x : ptr) : Container V :=
  match x with ptr_a => st_a st | ptr_b => st_b st end.

(** [( *y)[i] = v] *)
Definition assign {V : Type} (st : store V) (y : ptr) (i : Coordinate) (v : V) : store V :=
  match y with
  | ptr_a => MkStore (c_set (st_a st) i v) (st_b st)
  | ptr_b => MkStore (st_a st) (c_set (st_b st) i v)
  end.

(** Modelled from the spec: [detail::forEach(iter_type(0), a.size(), body)]
    of [pfor.h] is not part of this file; it runs [body] on each index of
    the container's index space, one after the other.  The indices are
    listed with the last axis running fastest. *)
Fixpoint index_space (size : Coordinate) : list Coordinate :=
  match size with
  | [] => [[]]
  | n :: rest => x ← seqZ 0 n; (λ p, x :: p) <$> index_space rest
  end.

(** ** The implementations *)

Section implementations.
Context {V : Type} `{Inhabited V}.

(** the update function: [update(t, i, x)] reads the container [x] *)
Definition Update : Type := Z → Coordinate → Container V → V.

(** the body [( *y)[i] = update(t,i,*x)] of the loops of the iterative
    implementations *)
Definition iter_body (update : Update) (x y : ptr) (t : Z) (i : Coordinate)
    (st : store V) : store V :=
  assign st y i (update t i (deref st x)).

(** the state of the time loop of the iterative implementations *)
Record iter_state : Type := MkIterState {
  is_store : store V;
  is_x : ptr;
  is_y : ptr
}.

(** the time loop [for (int t = 0; t < steps; t++)], where [sweep]
    performs the loop over the indices for the step [t] *)
Definition time_loop (sweep : Z → ptr → ptr → store V → store V)
    (steps : Z) (st : store V) : iter_state :=
  foldl (λ s t,
           let st' := sweep t (is_x s) (is_y s) (is_store s) in
           (* swap buffers *)
           MkIterState st' (is_y s) (is_x s))
        (MkIterState st ptr_a ptr_b) (seqZ 0 steps).

(** the end of the iterative implementations: make sure the result is in
    [a] *)
Definition finish (s : iter_state) : Container V :=
  if decide (is_x s ≠ ptr_a) then st_a (swap_ab (is_store s)) else st_a (is_store s).

(** [sequential_iterative::process], awaited *)
Definition sequential_iterative (a : Container V) (steps : Z) (update : Update)
    : Container V :=
  let b := c_fresh (c_size a) in
  finish (time_loop
    (λ t x y st, foldl (λ st i, iter_body update x y t i st) st (index_space (c_size a)))
    steps (MkStore a b)).

(** [coarse_grained_iterative::process], awaited.  Modelled from the spec:
    [pfor] of [pfor.h] is not part of this file; it runs the body on each
    index once and is complete when the loop reference it returns is
    destroyed, at the end of the statement.  [order t] is the order in
    which the bodies of the step [t] take effect. *)
Definition coarse_grained_iterative (order : Z → list Coordinate)
    (a : Container V) (steps : Z) (update : Update) : Container V :=
  let b := c_fresh (c_size a) in
  finish (time_loop
    (λ t x y st, foldl (λ st i, iter_body update x y t i st) st (order t))
    steps (MkStore a b)).

(** the zoid-interface adapters [even] and [odd] of the recursive
    implementations *)
Definition even (update : Update) (pos : Coordinate) (t : Z) (st : store V) : store V :=
  MkStore (st_a st) (c_set (st_b st) pos (update t pos (st_a st))).

Definition odd (update : Update) (pos : Coordinate) (t : Z) (st : store V) : store V :=
  MkStore (c_set (st_a st) pos (update t pos (st_b st))) (st_b st).

(** the end of the recursive implementations: [if (steps % 2) std::swap(a,b)] *)
Definition finish_recursive (steps : Z) (st : store V) : Container V :=
  if decide (steps `rem` 2 ≠ 0) then st_a (swap_ab st) else st_a st.

(** [sequential_recursive::process].  [None]: the construction of the
    execution plan did not end within the fuel. *)
Definition sequential_recursive (fuel : nat) (order : list nat)
    (a : Container V) (steps : Z) (update : Update) : option (Container V) :=
  let b := c_fresh (c_size a) in
  (* get size of structure *)
  let base := Base.full (c_size a) in
  let size := Base.extend base in
  (* get the execution plan *)
  exec_plan ← ExecutionPlan.create fuel base steps;
  (* process the execution plan *)
  let st := ExecutionPlan.runSequential order exec_plan (even update) (odd update) size
              (MkStore a b) in
  Some (finish_recursive steps st).

End implementations.

(** ** The parallel implementations

    Modelled from the spec: the task runtime of [core] ([async], [prec],
    [pick], [sequential], [parallel], [after], the treetures) and [pfor]
    with its [neighborhood_sync] are not part of this file.  What the spec
    says of them: a task starts once the tasks it depends on are complete;
    [sequential] runs its second task after the first, [parallel] runs both
    without an order between them; [pick] leaves the choice between its two
    bodies to the runtime; [wait] returns once the task is complete.  The
    cells written by the tasks take effect one at a time: a run of tasks is
    the list of the cell visits in the order in which they take effect. *)

(** a visit of the cell at [pos] at the time [t]: the arguments of the
    [lambda] of the scanner *)
Abbreviation cell := (list Z * Z)%type (only parsing).

(** the [lambda] that records its arguments *)
Definition record_visit (pos : Coordinate) (t : Z) (s : list (list Z * Z)) : list (list Z * Z) :=
  s ++ [(pos, t)].

(** the cells [Zoid::forEach] visits, in order *)
Definition visits (z : Zoid) (limits : Coordinate) : list (list Z * Z) :=
  Zoid.forEach z record_visit record_visit limits [].

(** a composition of tasks by [core::sequential] and [core::parallel] *)
Inductive task (A : Type) : Type :=
| t_run (work : A)
| t_sequential (a b : task A)
| t_parallel (a b : task A).
Arguments t_run {A} _.
Arguments t_sequential {A} _ _.
Arguments t_parallel {A} _ _.

(** [Zoid::pforEach]: the recursive decomposition [core::prec] unfolds for a
    zoid, with the zoids that are scanned by [forEach] at the leaves.  A
    terminal zoid is scanned; for any other the runtime picks between the
    split and the sequential alternative, which scans it. *)
Inductive pforEach : Zoid → task Zoid → Prop :=
| pforEach_terminal z :
    Zoid.isTerminal z = true →
    pforEach z (t_run z)
| pforEach_alternative z :
    Zoid.isTerminal z = false →
    pforEach z (t_run z)
| pforEach_time z tb tt :
    Zoid.isTerminal z = false →
    Zoid.isSpaceSplitable z = false →
    pforEach (Zoid.bottom (Zoid.splitTime z)) tb →
    pforEach (Zoid.top (Zoid.splitTime z)) tt →
    pforEach z (t_sequential tb tt)
| pforEach_opening z tc tl tr :
    Zoid.isTerminal z = false →
    Zoid.isSpaceSplitable z = true →
    Zoid.opening (Zoid.splitSpace z) = true →
    pforEach (Zoid.c (Zoid.splitSpace z)) tc →
    pforEach (Zoid.l (Zoid.splitSpace z)) tl →
    pforEach (Zoid.r (Zoid.splitSpace z)) tr →
    pforEach z (t_sequential tc (t_parallel tl tr))
| pforEach_closing z tc tl tr :
    Zoid.isTerminal z = false →
    Zoid.isSpaceSplitable z = true →
    Zoid.opening (Zoid.splitSpace z) = false →
    pforEach (Zoid.c (Zoid.splitSpace z)) tc →
    pforEach (Zoid.l (Zoid.splitSpace z)) tl →
    pforEach (Zoid.r (Zoid.splitSpace z)) tr →
    pforEach z (t_sequential (t_parallel tl tr) tc).



(** the interleavings of two lists *)
Inductive interleave {A : Type} : list A → list A → list A → Prop :=
| interleave_nil : interleave [] [] []
| interleave_l x l1 l2 l : interleave l1 l2 l → interleave (x :: l1) l2 (x :: l)
| interleave_r x l1 l2 l : interleave l1 l2 l → interleave l1 (x :: l2) (x :: l).

(** the orders in which the cell visits of a composed task can take effect *)
Inductive runs (limits : Coordinate) : task Zoid → list (list Z * Z) → Prop :=
| runs_run z : runs limits (t_run z) (visits z limits)
| runs_sequential a b la lb :
    runs limits a la → runs limits b lb → runs limits (t_sequential a b) (la ++ lb)
| runs_parallel a b la lb l :
    runs limits a la → runs limits b lb → interleave la lb l →
    runs limits (t_parallel a b) l.

(** [task_dependency_extractor<taskIdx,pos>]: the arguments [body] is called
    with.  [args] are the arguments collected so far, the first of them the
    index of the task; every bit of [taskIdx] from [pos] down to 0 that is
    set adds the index with this bit cleared, [taskIdx & ~(1<<pos)]. *)
Fixpoint task_dependency_extractor (taskIdx : nat) (pos : nat) (args : list nat)
    : list nat :=
  let cleared := Z.to_nat (Z.land (Z.of_nat taskIdx) (Z.lnot (Z.shiftl 1 (Z.of_nat pos)))) in
  match pos with
  | O => if bit_set taskIdx 0 then args ++ [cleared] else args
  | S pos' =>
      if bit_set taskIdx pos
      then task_dependency_extractor taskIdx pos' (args ++ [cleared])
      else task_dependency_extractor taskIdx pos' args
  end.

(** [task_dependency_enumerator<Dims,taskIdx>::visit(body,numBits)]: the
    calls of [body], in order, each the list of its arguments *)
Fixpoint task_dependency_visit (Dims : nat) (taskIdx : nat) (numBits : nat)
    : list (list nat) :=
  match taskIdx with
  | O =>
      if decide (numBits = 0%nat)
      then [task_dependency_extractor 0 (Dims - 1) [0%nat]] else []
  | S idx' =>
      task_dependency_visit Dims idx' numBits ++
      (if decide (popcount taskIdx = numBits)
       then [task_dependency_extractor taskIdx (Dims - 1) [taskIdx]] else [])
  end.

(** [task_dependency_enumerator<Dims,taskIdx>::operator()] *)
Definition task_dependency_enumerator (Dims : nat) (taskIdx : nat) : list (list nat) :=
  i ← seq 0 (S Dims); task_dependency_visit Dims taskIdx i.

(** [task_graph_enumerator<Dims>::operator()] and
    [ExecutionPlan::enumTaskGraph] *)
Definition task_graph_enumerator (Dims : nat) : list (list nat) :=
  task_dependency_enumerator Dims (2 ^ Dims - 1).

Definition enumTaskGraph (Dims : nat) : list (list nat) := task_graph_enumerator Dims.

(** [ExecutionPlan::runParallel].  The task [idx] of the layer [k] is
    [(k, idx)]; it is created with the dependencies [enumTaskGraph] hands to
    the body: the tasks of its layer whose index is [idx] with one of its
    1-bits cleared ([taskIdx & ~(1<<pos)]), and for the first task of a
    layer the last task of the layer before. *)
Definition dependencies (Dims : nat) (kidx : nat * nat) : list (nat * nat) :=
  let '(k, idx) := kidx in
  match idx with
  | O => match k with O => [] | S k' => [(k', (2 ^ Dims - 1)%nat)] end
  | _ => (λ j : nat,
            (k, Z.to_nat (Z.land (Z.of_nat idx) (Z.lnot (Z.shiftl 1 (Z.of_nat j))))))
           <$> filter (λ j, bit_set idx j) (seq 0 Dims)
  end.

(** the state of a run of the task graph: the tasks that are complete and
    the tasks that have started, each with the cell visits it still has to
    perform *)
Record graph_state : Type := MkGraphState {
  complete : list (nat * nat);
  started : list (nat * nat);
  running : list ((nat * nat) * list (list Z * Z))
}.

(** one step of a run: a task whose dependencies are complete starts, a
    running task performs its next cell visit, or a task with no visit left
    completes *)
Inductive graph_step (layers : list (list Zoid)) (limits : Coordinate)
    : graph_state → list (list Z * Z) → graph_state → Prop :=
| step_start σ k idx cur z tree todo :
    layers !! k = Some cur → cur !! idx = Some z →
    (k, idx) ∉ started σ →
    (∀ d, d ∈ dependencies (length limits) (k, idx) → d ∈ complete σ) →
    pforEach z tree → runs limits tree todo →
    graph_step layers limits σ []
      (MkGraphState (complete σ) ((k, idx) :: started σ) (((k, idx), todo) :: running σ))
| step_visit σ r1 r2 id v todo :
    running σ = r1 ++ (id, v :: todo) :: r2 →
    graph_step layers limits σ [v]
      (MkGraphState (complete σ) (started σ) (r1 ++ (id, todo) :: r2))
| step_complete σ r1 r2 id :
    running σ = r1 ++ (id, []) :: r2 →
    graph_step layers limits σ []
      (MkGraphState (id :: complete σ) (started σ) (r1 ++ r2)).

Inductive graph_run (layers : list (list Zoid)) (limits : Coordinate)
    : graph_state → list (list Z * Z) → graph_state → Prop :=
| graph_run_done σ : graph_run layers limits σ [] σ
| graph_run_step σ1 σ2 σ3 vs trace :
    graph_step layers limits σ1 vs σ2 →
    graph_run layers limits σ2 trace σ3 →
    graph_run layers limits σ1 (vs ++ trace) σ3.

(** [trace] is the list of the cell visits of a run of [runParallel] up to
    the return of [wait] on the handle it returns, the one of the last task
    of the last layer ([core::done()] when there is no layer) *)
Definition runParallel (layers : list (list Zoid)) (limits : Coordinate)
    (trace : list (list Z * Z)) : Prop :=
  ∃ σ, graph_run layers limits (MkGraphState [] [] []) trace σ ∧
       (layers = [] ∨
        ((length layers - 1)%nat, (2 ^ length limits - 1)%nat) ∈ complete σ).

Section parallel_implementations.
Context {V : Type} `{Inhabited V}.

(** the effect of one cell visit of a zoid: [forEach] hands the odd times
    to [odd] and the even ones to [even] *)
Definition zoid_visit (update : Update) (v : list Z * Z) (st : store V) : store V :=
  if bool_decide (Z.land (snd v) 1 ≠ 0)
  then odd update (fst v) (snd v) st
  else even update (fst v) (snd v) st.

(** [parallel_recursive::process].  [trace] lists the cell visits of
    [exec_plan.runParallel(even,odd,size).wait()] in the order in which
    they take effect. *)
Definition parallel_recursive (fuel : nat) (trace : list (list Z * Z))
    (a : Container V) (steps : Z) (update : Update) : option (Container V) :=
  let b := c_fresh (c_size a) in
  let base := Base.full (c_size a) in
  let size := Base.extend base in
  exec_plan ← ExecutionPlan.create fuel base steps;
  let st := foldl (λ st v, zoid_visit update v st) (MkStore a b) trace in
  Some (finish_recursive steps st).

(** the traces [parallel_recursive] can be run with *)
Definition parallel_recursive_trace (fuel : nat) (a : Container V) (steps : Z)
    (trace : list (list Z * Z)) : Prop :=
  let base := Base.full (c_size a) in
  ∃ exec_plan, ExecutionPlan.create fuel base steps = Some exec_plan ∧
    runParallel exec_plan (Base.extend base) trace.

(** the pointers [x] and [y] the loop body of the step [t] captures: the
    time loop swaps them once per step *)
Definition x_at (t : Z) : ptr := if Z.even t then ptr_a else ptr_b.
Definition y_at (t : Z) : ptr := if Z.even t then ptr_b else ptr_a.

(** [fine_grained_iterative::process], awaited.  The loops [pfor] starts
    with [neighborhood_sync] run asynchronously; the time loop only
    creates them and swaps the pointers.  [trace] lists the loop bodies
    [(i, t)] in the order in which they take effect, and the first
    [before] of them take effect before the buffers are swapped at the end
    of the function, the others between the swap and the return of
    [ref.wait()]. *)
Definition fine_grained_iterative (trace : list (list Z * Z)) (before : nat)
    (a : Container V) (steps : Z) (update : Update) : Container V :=
  let b := c_fresh (c_size a) in
  let body (st : store V) (v : list Z * Z) :=
    iter_body update (x_at (snd v)) (y_at (snd v)) (snd v) (fst v) st in
  let s := time_loop (λ t x y st, st) steps (MkStore a b) in
  let st1 := foldl body (is_store s) (take before trace) in
  (* make sure result is in a *)
  let st2 := if decide (is_x s ≠ ptr_a) then swap_ab st1 else st1 in
  (* wait for the task completion *)
  let st3 := foldl body st2 (drop before trace) in
  st_a st3.

End parallel_implementations.

(** the positions next to [p] on the torus of the given size: in every
    dimension the same index, the one before or the one after, modulo the
    extent *)
Definition near (size : Coordinate) (p q : Coordinate) : Prop :=
  in_grid size q ∧
  ∀ i n x y, size !! i = Some n → p !! i = Some x → q !! i = Some y →
    y = x ∨ y = (x + 1) `mod` n ∨ y = (x - 1) `mod` n.

(** every visit of the trace comes after the visits of the step before it
    at the positions [nb] relates to its own *)
Fixpoint synchronised (nb : list Z → list Z → Prop) (performed : list (list Z * Z))
    (trace : list (list Z * Z)) : Prop :=
  match trace with
  | [] => True
  | v :: rest =>
      (0 < snd v → ∀ q, nb (fst v) q → (q, snd v - 1) ∈ performed) ∧
      synchronised nb (v :: performed) rest
  end.

(** all loop bodies of the time loop *)
Definition all_visits (size : Coordinate) (steps : Z) : list (list Z * Z) :=
  t ← seqZ 0 steps; (λ p, (p, t)) <$> index_space size.

(** Modelled from the spec: the traces of the loop bodies of
    [fine_grained_iterative].  Each body runs once, and the body of the step
    [t] at the index [i] runs after the bodies of the step [t - 1] at the
    indices in the neighbourhood of [i]. *)
Definition fine_grained_trace (size : Coordinate) (steps : Z)
    (trace : list (list Z * Z)) : Prop :=
  trace ≡ₚ all_visits size steps ∧ synchronised (near size) [] trace.

(** ** The entry point *)

Inductive Impl : Type :=
| impl_sequential_iterative
| impl_coarse_grained_iterative
| impl_fine_grained_iterative
| impl_sequential_recursive
| impl_parallel_recursive.

(** what the runtime and the library decide in a run: the fuel for the
    construction of the plan, the result of [std::sort], the order in which
    the bodies of a [pfor] take effect, the trace of the asynchronous tasks
    and the number of them that are complete at the end of the time loop *)
Record Runtime : Type := MkRuntime {
  rt_fuel : nat;
  rt_order : list nat;
  rt_pfor : Z → list (list Z);
  rt_trace : list (list Z * Z);
  rt_before : nat
}.

(** [stencil<Impl>(a, steps, update)], awaited: everything is forwarded to
    the implementation *)
Definition stencil {V : Type} `{Inhabited V} (impl : Impl) (rt : Runtime)
    (a : Container V) (steps : Z) (update : Update) : option (Container V) :=
  match impl with
  | impl_sequential_iterative => Some (sequential_iterative a steps update)
  | impl_coarse_grained_iterative =>
      Some (coarse_grained_iterative (rt_pfor rt) a steps update)
  | impl_fine_grained_iterative =>
      Some (fine_grained_iterative (rt_trace rt) (rt_before rt) a steps update)
  | impl_sequential_recursive =>
      sequential_recursive (rt_fuel rt) (rt_order rt) a steps update
  | impl_parallel_recursive =>
      parallel_recursive (rt_fuel rt) (rt_trace rt) a steps update
  end.

(** the runs of an implementation on a container and a number of steps *)
Definition admissible {V : Type} `{Inhabited V} (impl : Impl) (rt : Runtime)
    (a : Container V) (steps : Z) : Prop :=
  match impl with
  | impl_sequential_iterative => True
  | impl_coarse_grained_iterative =>
      ∀ t, rt_pfor rt t ≡ₚ index_space (c_size a)
  | impl_fine_grained_iterative =>
      fine_grained_trace (c_size a) steps (rt_trace rt)
  | impl_sequential_recursive =>
      ExecutionPlan.sorted_by_bits (length (c_size a)) (rt_order rt)
  | impl_parallel_recursive =>
      parallel_recursive_trace (rt_fuel rt) a steps (rt_trace rt)
  end.

(** * Properties *)

(** ** The plain scanner *)

(** the indices one axis of the scanner walks: the range shifted into the
    window of the size, cut at the limit, and what lies beyond the limit
    after the wrap-around *)
Definition axis_walk (r : range) (length : Z) : list Z :=
  let from := if decide (rbegin r > length) then rbegin r - length else rbegin r in
  let to := if decide (rbegin r > length) then rend r - length else rend r in
  seqZ from (Z.min to length - from) ++
  (if decide (to ≤ length) then [] else seqZ 0 (to - length - 0)).

Lemma plain_scanner_axis {S : Type} dim full_dim base (lambda : Coordinate → Z → S → S)
    pos t size s :
  plain_scanner dim full_dim base lambda pos t size s =
  foldl (λ s v,
           match dim with
           | O => lambda (<[(full_dim - dim - 1)%nat := v]> pos) t s
           | Datatypes.S d =>
               plain_scanner d full_dim base lambda (<[(full_dim - dim - 1)%nat := v]> pos) t size s
           end)
        s (axis_walk (base !!! (full_dim - dim - 1)%nat) (size !!! (full_dim - dim - 1)%nat)).
Proof.
  unfold axis_walk. rewrite foldl_app.
  destruct dim; simpl; unfold for_range;
    repeat case_decide; try lia; reflexivity.
Qed.

(** the positions the scanner hands to [lambda], in order *)
Fixpoint scan (dim : nat) (full_dim : nat) (base : Base) (pos : Coordinate)
    (size : Coordinate) : list Coordinate :=
  let idx := (full_dim - dim - 1)%nat in
  v ← axis_walk (base !!! idx) (size !!! idx);
  match dim with
  | O => [<[idx := v]> pos]
  | Datatypes.S d => scan d full_dim base (<[idx := v]> pos) size
  end.

Lemma foldl_ext_in {A B : Type} (f g : A → B → A) (l : list B) (s : A) :
  (∀ s x, x ∈ l → f s x = g s x) → foldl f s l = foldl g s l.
Proof.
  revert s. induction l as [|x l IH]; intros s Hfg; simpl; [done|].
  rewrite Hfg by left. apply IH. intros s' y Hy. apply Hfg. by right.
Qed.

Lemma foldl_bind {A B C : Type} (f : C → B → C) (g : A → list B) (l : list A) (s : C) :
  foldl f s (l ≫= g) = foldl (λ s x, foldl f s (g x)) s l.
Proof.
  revert s. induction l as [|x l IH]; intros s; simpl; [done|].
  by rewrite foldl_app, IH.
Qed.

Lemma plain_scanner_scan {S : Type} dim full_dim base (lambda : Coordinate → Z → S → S)
    pos t size s :
  plain_scanner dim full_dim base lambda pos t size s =
  foldl (λ s p, lambda p t s) s (scan dim full_dim base pos size).
Proof.
  revert pos s. induction dim as [|d IH]; intros pos s.
  - rewrite plain_scanner_axis. cbn [scan]. rewrite foldl_bind. reflexivity.
  - rewrite plain_scanner_axis. cbn [scan]. rewrite foldl_bind.
    apply foldl_ext_in. intros s' v _. apply IH.
Qed.

Lemma seqZ_2 m : seqZ m 2 = [m; m + 1].
Proof. rewrite seqZ_cons by lia. rewrite seqZ_cons by lia. rewrite seqZ_nil by lia. f_equal. Qed.

Lemma seqZ_3 m : seqZ m 3 = [m; m + 1; m + 2].
Proof.
  rewrite seqZ_cons by lia. replace (Z.pred 3) with 2 by lia.
  rewrite seqZ_2. replace (Z.succ m) with (m + 1) by lia.
  replace (m + 1 + 1) with (m + 2) by lia. reflexivity.
Qed.

(** the cells the plain scanner visits for a 1-d base at the time [t] *)
Definition scan_row (r : range) (limit : Z) (t : Z) : list (list Z * Z) :=
  plain_scanner 0 1 [r] record_visit [0] t [limit] [].

Lemma scan_row_walk r limit t :
  scan_row r limit t = (λ v, ([v], t)) <$> axis_walk r limit.
Proof.
  unfold scan_row. rewrite plain_scanner_scan. cbn [scan].
  change ((1 - 0 - 1)%nat) with 0%nat. cbn [lookup_total list_lookup_total].
  generalize (axis_walk r limit). intros l.
  assert (Hgen : ∀ acc, foldl (λ s p, record_visit p t s) acc
            (l ≫= λ v, [<[0%nat := v]> [0]]) = acc ++ ((λ v, ([v], t)) <$> l)).
  { induction l as [|v l IH]; intros acc; simpl.
    - by rewrite app_nil_r.
    - rewrite IH. unfold record_visit. by rewrite <- app_assoc. }
  apply (Hgen []).
Qed.

(** C5, as the code has it: the row of the base range [L-2, L+3) is the two
    sub-ranges [L-2, L) and [0, 3), in this order; its five cells are
    pairwise distinct from the extent 5 on. *)
Theorem wrap_around_row (L t : Z) :
  5 ≤ L →
  scan_row (Range (L - 2) (L + 3)) L t =
    ((λ v, ([v], t)) <$> (seqZ (L - 2) 2 ++ seqZ 0 3)) ∧
  scan_row (Range (L - 2) (L + 3)) L t =
    [([L - 2], t); ([L - 1], t); ([0], t); ([1], t); ([2], t)] ∧
  NoDup (scan_row (Range (L - 2) (L + 3)) L t).
Proof.
  intros HL.
  assert (Hw : axis_walk (Range (L - 2) (L + 3)) L = seqZ (L - 2) 2 ++ seqZ 0 3).
  { unfold axis_walk. cbn [rbegin rend].
    repeat case_decide; try lia.
    f_equal; f_equal; lia. }
  rewrite scan_row_walk, Hw. split; [done|].
  rewrite seqZ_2, seqZ_3. cbn [app fmap list_fmap].
  replace (L - 2 + 1) with (L - 1) by lia.
  replace (0 + 1) with 1 by lia. replace (0 + 2) with 2 by lia.
  split; [done|].
  repeat (apply NoDup_cons; split;
          [rewrite ?elem_of_cons, elem_of_nil; intros Hin;
           repeat destruct Hin as [Hin|Hin]; try done; simplify_eq; lia|]).
  apply NoDup_nil_2.
Qed.

Lemma wrap_around_row_witness :
  NoDup (scan_row (Range (7 - 2) (7 + 3)) 7 0).
Proof. apply (wrap_around_row 7 0). lia. Defined.

(** C5 fails as stated at the extent 3: the cells 1 and 2 are visited twice. *)
Lemma wrap_around_row_3 :
  scan_row (Range (3 - 2) (3 + 3)) 3 0 = [([1], 0); ([2], 0); ([0], 0); ([1], 0); ([2], 0)] ∧
  ¬ NoDup (scan_row (Range (3 - 2) (3 + 3)) 3 0).
Proof.
  split; [reflexivity|].
  intros Hnd. change (scan_row (Range (3 - 2) (3 + 3)) 3 0)
    with [([1], 0); ([2], 0); ([0], 0); ([1], 0); ([2], 0)] in Hnd.
  apply NoDup_cons in Hnd as [Hin _]. apply Hin.
  do 2 right. left.
Qed.

(** ** The splits of a zoid *)

Lemma longest_dimension_spec z (n : nat) :
  let res := foldl (λ (acc : nat * Z) (i : nat),
                      let width := Zoid.getWidth z i in
                      if bool_decide (width > snd acc) then (i, width) else acc)
                   (0%nat, 0) (seq 0 n) in
  (res = (0%nat, 0) ∧ ∀ i, (i < n)%nat → Zoid.getWidth z i ≤ 0) ∨
  ((fst res < n)%nat ∧ snd res = Zoid.getWidth z (fst res) ∧ 0 < snd res ∧
   (∀ i, (i < n)%nat → Zoid.getWidth z i ≤ snd res) ∧
   (∀ i, (i < fst res)%nat → Zoid.getWidth z i < snd res)).
Proof.
  induction n as [|n IH]; cbn zeta.
  - left. split; [done|]. intros i Hi. lia.
  - rewrite seq_S, foldl_app. cbn [foldl]. cbn zeta in IH.
    destruct (foldl _ _ (seq 0 n)) as [d w]. cbn [fst snd] in *.
    rewrite Nat.add_0_l.
    case_bool_decide as Hw.
    + right. cbn [fst snd]. split; [lia|]. split; [done|].
      destruct IH as [[[= -> ->] Hall]|(Hd & Hwd & Hpos & Hall & Hfirst)].
      * split; [lia|]. split.
        -- intros i Hi. destruct (decide (i = n)) as [->|]; [lia|].
           specialize (Hall i ltac:(lia)). lia.
        -- intros i Hi. specialize (Hall i ltac:(lia)). lia.
      * split; [lia|]. split.
        -- intros i Hi. destruct (decide (i = n)) as [->|]; [lia|].
           specialize (Hall i ltac:(lia)). lia.
        -- intros i Hi. specialize (Hall i ltac:(lia)). lia.
    + destruct IH as [[[= -> ->] Hall]|(Hd & Hwd & Hpos & Hall & Hfirst)].
      * left. split; [done|]. intros i Hi.
        destruct (decide (i = n)) as [->|]; [lia|]. apply Hall. lia.
      * right. cbn [fst snd]. split; [lia|]. split; [done|]. split; [done|]. split; [|done].
        intros i Hi. destruct (decide (i = n)) as [->|]; [lia|]. apply Hall. lia.
Qed.

Lemma isSpaceSplitable_true z :
  Zoid.isSpaceSplitable z = true ↔
  ∃ i, (i < Zoid.dims z)%nat ∧ Zoid.getWidth z i > 4 * Zoid.getHeight z.
Proof.
  unfold Zoid.isSpaceSplitable. rewrite existsb_exists. split.
  - intros (i & Hi & Hs). exists i. apply in_seq in Hi.
    unfold Zoid.isSplitable in Hs. apply bool_decide_eq_true in Hs. split; [lia|done].
  - intros (i & Hi & Hs). exists i. split; [apply in_seq; lia|].
    unfold Zoid.isSplitable. by apply bool_decide_eq_true.
Qed.

(** the dimension [splitSpace] splits: for a zoid that is splitable in space
    it is the first of those with the widest shadow, and the zoid is
    splitable along it *)
Lemma split_dimension_spec z :
  Zoid.isSpaceSplitable z = true →
  0 ≤ Zoid.getHeight z →
  let d := fst (Zoid.longest_dimension z) in
  (d < Zoid.dims z)%nat ∧
  Zoid.isSplitable z d = true ∧
  (∀ i, (i < Zoid.dims z)%nat → Zoid.getWidth z i ≤ Zoid.getWidth z d) ∧
  (∀ i, (i < d)%nat → Zoid.getWidth z i < Zoid.getWidth z d).
Proof.
  intros Hs Hh d. apply isSpaceSplitable_true in Hs as (i & Hi & Hw).
  pose proof (longest_dimension_spec z (Zoid.dims z)) as Hl. cbn zeta in Hl.
  fold (Zoid.longest_dimension z) in Hl. fold d in Hl.
  destruct Hl as [[_ Hall]|(Hd & Hwd & Hpos & Hall & Hfirst)].
  - specialize (Hall i Hi). lia.
  - rewrite Hwd in *. split; [done|]. split; [|split; [done|done]].
    unfold Zoid.isSplitable. apply bool_decide_eq_true.
    specialize (Hall i Hi). lia.
Qed.

(** C7: [splitSpace] on the dimension it chooses. *)
Theorem splitSpace_spec z :
  Zoid.isSpaceSplitable z = true →
  0 ≤ Zoid.getHeight z →
  length (slopes z) = Zoid.dims z →
  Forall (λ s, s = -1 ∨ s = 1) (slopes z) →
  ∃ (d : nat) (b_d e_d s_d : Z),
    (* the chosen dimension: the first one of largest projected width *)
    d = fst (Zoid.longest_dimension z) ∧
    Zoid.isSplitable z d = true ∧
    (∀ i, (i < Zoid.dims z)%nat → Zoid.getWidth z i ≤ Zoid.getWidth z d) ∧
    base z !! d = Some (Range b_d e_d) ∧
    slopes z !! d = Some s_d ∧
    let center := (b_d + e_d) `quot` 2 in
    let left := if decide (s_d = -1) then center - Zoid.getHeight z else center in
    let right := if decide (s_d = -1) then center + Zoid.getHeight z else center in
    Zoid.l (Zoid.splitSpace z) =
      MkZoid (<[d := Range b_d left]> (base z)) (slopes z) (t_begin z) (t_end z) ∧
    Zoid.c (Zoid.splitSpace z) =
      MkZoid (<[d := Range left right]> (base z)) (<[d := - s_d]> (slopes z))
             (t_begin z) (t_end z) ∧
    Zoid.r (Zoid.splitSpace z) =
      MkZoid (<[d := Range right e_d]> (base z)) (slopes z) (t_begin z) (t_end z) ∧
    Zoid.opening (Zoid.splitSpace z) = bool_decide (s_d = -1).
Proof.
  intros Hs Hh Hlen Hsl.
  destruct (split_dimension_spec z Hs Hh) as (Hd & Hsp & Hmax & _).
  set (d := fst (Zoid.longest_dimension z)) in *.
  destruct (lookup_lt_is_Some_2 (base z) d Hd) as [[b_d e_d] Hb].
  destruct (lookup_lt_is_Some_2 (slopes z) d ltac:(lia)) as [s_d Hsd].
  exists d, b_d, e_d, s_d.
  split; [done|]. split; [done|]. split; [done|]. split; [done|]. split; [done|].
  assert (Hs_d : s_d = -1 ∨ s_d = 1).
  { eapply Forall_lookup_1 in Hsl; [|exact Hsd]. done. }
  cbn zeta. unfold Zoid.splitSpace. fold d.
  rewrite (list_lookup_total_correct _ _ _ Hb), (list_lookup_total_correct _ _ _ Hsd).
  cbn [rbegin rend Zoid.l Zoid.c Zoid.r Zoid.opening].
  destruct Hs_d as [-> | ->].
  - rewrite (bool_decide_eq_true_2 (-1 < 0)) by lia.
    rewrite (decide_True (P := -1 = -1)) by done.
    rewrite bool_decide_eq_true_2 by done. done.
  - rewrite (bool_decide_eq_false_2 (1 < 0)) by lia.
    rewrite (decide_False (P := 1 = -1)) by done.
    rewrite bool_decide_eq_false_2 by done. done.
Qed.

Lemma splitSpace_spec_witness :
  ∃ d : nat, d = fst (Zoid.longest_dimension (MkZoid [Range 0 10; Range 0 30] [1; -1] 0 2)) ∧
             Zoid.isSplitable (MkZoid [Range 0 10; Range 0 30] [1; -1] 0 2) d = true.
Proof.
  assert (Hh : 0 ≤ Zoid.getHeight (MkZoid [Range 0 10; Range 0 30] [1; -1] 0 2)).
  { vm_compute. discriminate. }
  assert (Hs : Forall (λ s, s = -1 ∨ s = 1) [1; -1]).
  { apply Forall_cons. split; [by right|].
    apply Forall_cons. split; [by left|]. apply Forall_nil_2. }
  destruct (splitSpace_spec (MkZoid [Range 0 10; Range 0 30] [1; -1] 0 2)
              eq_refl Hh eq_refl Hs)
    as (d & b_d & e_d & s_d & Hd & Hsp & _).
  exists d. split; assumption.
Defined.

(** *** The order on zoids *)




(** the times of a zoid are [std::size_t] values in order, and its height
    is an [int] *)
Definition times_ok (z : Zoid) : Prop :=
  0 ≤ t_begin z ≤ t_end z ∧ t_end z < 2 ^ 64 ∧ t_end z - t_begin z < 2 ^ 31.


Lemma getHeight_ok z : times_ok z → Zoid.getHeight z = t_end z - t_begin z.
Proof.
  intros (H1 & H2 & H3). unfold Zoid.getHeight.
  rewrite to_size_t_small by lia. apply to_int_small. lia.
Qed.


Lemma quot2_nonneg a : 0 ≤ a → a `quot` 2 = a `div` 2.
Proof. intros Ha. apply Z.quot_div_nonneg; lia. Qed.

Lemma quot2_nonneg_bounds a : 0 ≤ a → 2 * (a `quot` 2) ≤ a ≤ 2 * (a `quot` 2) + 1.
Proof.
  intros Ha. rewrite quot2_nonneg by done.
  pose proof (Z.div_mod a 2 ltac:(lia)). pose proof (Z.mod_pos_bound a 2 ltac:(lia)). lia.
Qed.

Lemma getWidth_lookup (b : list range) i r :
  b !! i = Some r → Base.getWidth b i = rend r - rbegin r.
Proof. intros Hb. unfold Base.getWidth. by rewrite (list_lookup_total_correct _ _ _ Hb). Qed.


Lemma getMaximumWidth_spec (b : list range) :
  (0 < length b)%nat →
  (∃ i, (i < length b)%nat ∧ Base.getWidth b i = Base.getMaximumWidth b) ∧
  (∀ i, (i < length b)%nat → Base.getWidth b i ≤ Base.getMaximumWidth b).
Proof.
  intros Hlen. unfold Base.getMaximumWidth.
  assert (Hgen : ∀ n, let m := foldl (λ res i, Z.max res (Base.getWidth b i))
                                (Base.getWidth b 0) (seq 1 n) in
            (∃ i, (i < S n)%nat ∧ Base.getWidth b i = m) ∧
            (∀ i, (i < S n)%nat → Base.getWidth b i ≤ m)).
  { induction n as [|n IH]; cbn zeta.
    - split; [exists 0%nat; split; [lia|done]|].
      intros i Hi. replace i with 0%nat by lia. simpl. lia.
    - rewrite seq_S, foldl_app. cbn [foldl]. cbn zeta in IH.
      destruct IH as [(i & Hi & Hmi) Hall].
      set (m := foldl _ _ (seq 1 n)) in *.
      replace (1 + n)%nat with (S n) by lia. split.
      + destruct (Z.max_spec m (Base.getWidth b (S n))) as [[? ->]|[? ->]].
        * exists (S n). split; [lia|done].
        * exists i. split; [lia|done].
      + intros j Hj. destruct (decide (j = S n)) as [->|]; [lia|].
        specialize (Hall j ltac:(lia)). lia. }
  specialize (Hgen (length b - 1)%nat). cbn zeta in Hgen.
  replace (S (length b - 1)) with (length b) in Hgen by lia. exact Hgen.
Qed.









(** ** Runs without a step *)

Lemma all_visits_nil size steps : steps ≤ 0 → all_visits size steps = [].
Proof. intros Hs. unfold all_visits. by rewrite seqZ_nil. Qed.

Lemma fine_grained_trace_nil size steps trace :
  steps ≤ 0 → fine_grained_trace size steps trace → trace = [].
Proof.
  intros Hs [Hp _]. rewrite all_visits_nil in Hp by done.
  by apply Permutation_nil_r.
Qed.

Lemma graph_run_no_layer limits trace σ :
  graph_run [] limits (MkGraphState [] [] []) trace σ → trace = [].
Proof.
  intros Hrun. inversion Hrun as [|σ1 σ2 σ3 vs tr Hstep Hrest]; [done|].
  inversion Hstep as [? k idx cur z tree todo Hk|? r1 r2 id v todo Hr|? r1 r2 id Hr];
    simplify_eq.
  - cbn in Hr. by destruct r1.
  - cbn in Hr. by destruct r1.
Qed.

Lemma create_no_step fuel base steps :
  steps ≤ 0 → ExecutionPlan.create fuel base steps = Some [].
Proof.
  intros Hs. unfold ExecutionPlan.create.
  destruct fuel; cbn [ExecutionPlan.create_loop];
    by rewrite bool_decide_eq_false_2 by lia.
Qed.

Section no_step.
Context {V : Type} `{Inhabited V}.

Lemma time_loop_no_step (sweep : Z → ptr → ptr → store V → store V) steps st :
  steps ≤ 0 → time_loop sweep steps st = MkIterState st ptr_a ptr_b.
Proof. intros Hs. unfold time_loop. by rewrite seqZ_nil. Qed.

(** C10: with a negative number of steps the time loop of the iterative
    implementations performs no iteration, the pointer [x] still points to
    [a], the buffers are not swapped and [a] is returned as it was. *)
Theorem negative_steps (rt : Runtime) (a : Container V) (steps : Z) (update : Update) :
  steps < 0 →
  (∀ sweep st, time_loop (V:=V) sweep steps st = MkIterState st ptr_a ptr_b) ∧
  (∀ st : store V, finish (MkIterState st ptr_a ptr_b) = st_a st) ∧
  stencil impl_sequential_iterative rt a steps update = Some a ∧
  stencil impl_coarse_grained_iterative rt a steps update = Some a ∧
  (admissible impl_fine_grained_iterative rt a steps →
   stencil impl_fine_grained_iterative rt a steps update = Some a).
Proof.
  intros Hs. split; [|split; [|split; [|split]]].
  - intros sweep st. apply time_loop_no_step. lia.
  - done.
  - cbn. unfold sequential_iterative. by rewrite time_loop_no_step by lia.
  - cbn. unfold coarse_grained_iterative. by rewrite time_loop_no_step by lia.
  - cbn. intros Htr. apply fine_grained_trace_nil in Htr; [|lia].
    unfold fine_grained_iterative. rewrite Htr, time_loop_no_step by lia.
    by rewrite take_nil, drop_nil.
Qed.

(** C2: with zero steps every implementation returns [a] as it was. *)
Theorem zero_steps (impl : Impl) (rt : Runtime) (a : Container V) (update : Update) :
  admissible impl rt a 0 →
  stencil impl rt a 0 update = Some a.
Proof.
  intros Hadm. destruct impl; cbn in *.
  - unfold sequential_iterative. by rewrite time_loop_no_step by lia.
  - unfold coarse_grained_iterative. by rewrite time_loop_no_step by lia.
  - apply fine_grained_trace_nil in Hadm; [|lia].
    unfold fine_grained_iterative. rewrite Hadm, time_loop_no_step by lia.
    by rewrite take_nil, drop_nil.
  - unfold sequential_recursive. by rewrite create_no_step by lia.
  - destruct Hadm as (plan & Hplan & σ & Hrun & _).
    rewrite create_no_step in Hplan by lia. simplify_eq.
    apply graph_run_no_layer in Hrun as ->.
    unfold parallel_recursive. by rewrite create_no_step by lia.
Qed.

End no_step.

(** a run for a container of size 4 x 4 *)
Definition runtime_0 : Runtime := MkRuntime 0 [] (λ _, []) [] 0.

Lemma negative_steps_witness :
  stencil impl_sequential_iterative runtime_0 (MkContainer [4; 4] (λ _, 1)) (-3)
    (λ _ _ _, 0) = Some (MkContainer [4; 4] (λ _, 1)).
Proof.
  assert (Hneg : -3 < 0) by lia.
  destruct (negative_steps runtime_0 (MkContainer [4; 4] (λ _, 1)) (-3) (λ _ _ _, 0) Hneg)
    as (_ & _ & Hseq & _).
  exact Hseq.
Defined.

Lemma zero_steps_witness :
  stencil impl_parallel_recursive runtime_0 (MkContainer [4; 4] (λ _, 1)) 0
    (λ _ _ _, 0) = Some (MkContainer [4; 4] (λ _, 1)).
Proof.
  apply (zero_steps impl_parallel_recursive runtime_0).
  exists []. split; [reflexivity|].
  exists (MkGraphState [] [] []). split; [constructor|]. by left.
Defined.

(** ** The construction of the execution plan *)

Lemma bit_set_testbit i j : bit_set i j = Z.testbit (Z.of_nat i) (Z.of_nat j).
Proof.
  unfold bit_set. rewrite Z.shiftl_1_l.
  destruct (Z.testbit (Z.of_nat i) (Z.of_nat j)) eqn:Hb.
  - apply bool_decide_eq_true. intros Hz.
    assert (Hf : Z.testbit (Z.land (Z.of_nat i) (2 ^ Z.of_nat j)) (Z.of_nat j) = false)
      by (by rewrite Hz, Z.bits_0).
    rewrite Z.land_spec, Hb, Z.pow2_bits_eqb, Z.eqb_refl in Hf by lia. done.
  - apply bool_decide_eq_false. intros Hne. apply Hne.
    apply Z.bits_inj'. intros n Hn.
    rewrite Z.land_spec, Z.bits_0, Z.pow2_bits_eqb by lia.
    destruct (Z.eqb_spec (Z.of_nat j) n) as [<-|]; [by rewrite Hb|].
    apply andb_false_r.
Qed.

Lemma insert_prefix {A : Type} (f : nat → A) (l : list A) (n : nat) :
  (n < length l)%nat →
  <[n := f n]> ((f <$> seq 0 n) ++ drop n l) = (f <$> seq 0 (S n)) ++ drop (S n) l.
Proof.
  intros Hn. rewrite insert_app_r_alt by (rewrite length_fmap, length_seq; lia).
  rewrite length_fmap, length_seq, Nat.sub_diag.
  destruct (lookup_lt_is_Some_2 l n Hn) as [y Hy].
  rewrite (drop_S _ _ _ Hy). cbn [insert list_insert].
  rewrite seq_S, fmap_app, <- app_assoc. reflexivity.
Qed.

(** the zoid [create] builds for a binary pattern, axis by axis *)
Lemma zoid_of_pattern_spec base sp t0 t1 i :
  ExecutionPlan.zoid_of_pattern base sp t0 t1 i =
  MkZoid
    ((λ j, if bit_set i j
           then ExecutionPlan.split_right (sp !!! j)
           else ExecutionPlan.split_left (sp !!! j)) <$> seq 0 (length base))
    ((λ j, if bit_set i j then -1 else 1) <$> seq 0 (length base))
    (to_size_t t0) t1.
Proof.
  unfold ExecutionPlan.zoid_of_pattern.
  set (F := λ j : nat, if bit_set i j
                       then ExecutionPlan.split_right (sp !!! j)
                       else ExecutionPlan.split_left (sp !!! j)).
  set (G := λ j : nat, if bit_set i j then -1 else 1).
  set (step := λ (acc : list range * list Z) (j : nat), _).
  assert (Hgen : ∀ n, (n ≤ length base)%nat →
            foldl step (base, replicate (length base) 0) (seq 0 n) =
            ((F <$> seq 0 n) ++ drop n base,
             (G <$> seq 0 n) ++ drop n (replicate (length base) 0))).
  { induction n as [|n IH]; intros Hn; [done|].
    rewrite seq_S, foldl_app, IH by lia. cbn [foldl]. unfold step. cbn [fst snd].
    rewrite Nat.add_0_l.
    pose proof (insert_prefix F base n ltac:(lia)) as HF.
    pose proof (insert_prefix G (replicate (length base) 0) n
                  ltac:(rewrite length_replicate; lia)) as HG.
    unfold F in HF at 1. unfold G in HG at 1.
    destruct (bit_set i n); rewrite HF, HG, seq_S; done. }
  rewrite (Hgen (length base)) by lia.
  rewrite drop_all. rewrite drop_ge by (by rewrite length_replicate).
  by rewrite !app_nil_r.
Qed.

(** *** The plan in the words of the specification *)

Module PlanSpec.

(** [height = width/2] for [width = base.min_width] *)
Definition height (base : Base) : Z := Base.getMinimumWidth base `quot` 2.

(** [mid_i = extent_i − (extent_i − width)/2] *)
Definition mid (base : Base) (i : nat) : Z :=
  let extent := Base.getWidth base i in
  extent - (extent - Base.getMinimumWidth base) `quot` 2.

(** [left_i = [0, mid_i)] and [right_i = [mid_i, extent_i)] *)
Definition left (base : Base) (i : nat) : range := Range 0 (mid base i).
Definition right (base : Base) (i : nat) : range := Range (mid base i) (Base.getWidth base i).

(** the zoid for the bitmask [m]: for each dimension [i], if bit [i] of [m]
    is set, [right_i] with the slope -1, else [left_i] with the slope +1 *)
Definition zoid (base : Base) (t0 t1 : Z) (m : nat) : Zoid :=
  MkZoid
    ((λ i : nat, if Z.testbit (Z.of_nat m) (Z.of_nat i) then right base i else left base i)
       <$> seq 0 (length base))
    ((λ i : nat, if Z.testbit (Z.of_nat m) (Z.of_nat i) then -1 else 1)
       <$> seq 0 (length base))
    t0 t1.

(** a layer: an array of [2^N] zoids indexed by the bitmask *)
Definition layer (base : Base) (t0 t1 : Z) : list Zoid :=
  zoid base t0 t1 <$> seq 0 (2 ^ length base).

(** one layer per time interval [[t0, min(t0 + height, steps))], the
    intervals starting at the multiples of the height below [steps] *)
Definition layers (base : Base) (steps : Z) : list (list Zoid) :=
  let h := height base in
  (λ k, layer base (k * h) (Z.min (k * h + h) steps)) <$> seqZ 0 ((steps + h - 1) `div` h).

End PlanSpec.

Lemma splits_lookup base j :
  (j < length base)%nat →
  ExecutionPlan.splits base !!! j =
  ExecutionPlan.MkSplit (PlanSpec.left base j) (PlanSpec.right base j).
Proof.
  intros Hj. apply list_lookup_total_correct.
  unfold ExecutionPlan.splits. rewrite list_lookup_fmap, lookup_seq_lt by done.
  cbn [fmap option_fmap option_map Nat.add].
  assert (Hext : Base.extend base !!! j = Base.getWidth base j).
  { apply list_lookup_total_correct. unfold Base.extend.
    by rewrite list_lookup_fmap, lookup_seq_lt by done. }
  by rewrite Hext.
Qed.

Lemma layer_spec base t0 t1 :
  0 ≤ t0 < 2 ^ 64 →
  ExecutionPlan.layer base (ExecutionPlan.splits base) t0 t1 = PlanSpec.layer base t0 t1.
Proof.
  intros Ht0. unfold ExecutionPlan.layer, PlanSpec.layer.
  apply list_fmap_ext. intros _ i _.
  rewrite zoid_of_pattern_spec, to_size_t_small by done. unfold PlanSpec.zoid.
  f_equal.
  - apply list_fmap_ext. intros idx j Hj. apply lookup_seq in Hj as [-> Hj].
    rewrite bit_set_testbit, splits_lookup by done. reflexivity.
  - apply list_fmap_ext. intros _ j _. by rewrite bit_set_testbit.
Qed.

Lemma create_loop_layers base sp h steps (n : nat) :
  0 < h → steps + h ≤ 2 ^ 31 →
  ∀ t0 fuel,
    0 ≤ t0 →
    Z.of_nat n = (steps - t0 + h - 1) `div` h →
    (n ≤ fuel)%nat →
    ExecutionPlan.create_loop fuel base sp h steps t0 =
    Some ((λ k, ExecutionPlan.layer base sp (t0 + k * h) (Z.min (t0 + k * h + h) steps))
            <$> seqZ 0 (Z.of_nat n)).
Proof.
  intros Hh Hmax. induction n as [|n IH]; intros t0 fuel Ht0 Hn Hfuel.
  - assert (steps ≤ t0).
    { pose proof (Z.div_mod (steps - t0 + h - 1) h ltac:(lia)).
      pose proof (Z.mod_pos_bound (steps - t0 + h - 1) h Hh). nia. }
    destruct fuel; cbn [ExecutionPlan.create_loop];
      by rewrite bool_decide_eq_false_2 by lia.
  - assert (t0 < steps).
    { pose proof (Z.div_mod (steps - t0 + h - 1) h ltac:(lia)).
      pose proof (Z.mod_pos_bound (steps - t0 + h - 1) h Hh). nia. }
    destruct fuel as [|fuel]; [lia|]. cbn [ExecutionPlan.create_loop].
    rewrite bool_decide_eq_true_2 by done.
    rewrite to_int_small by lia. rewrite !to_size_t_small by lia.
    rewrite (IH (t0 + h) fuel); [|lia| |lia].
    + cbn [mbind option_bind]. f_equal.
      rewrite (seqZ_cons 0 (Z.of_nat (S n))) by lia. cbn [fmap list_fmap].
      replace (t0 + 0 * h) with t0 by lia. f_equal.
      replace (Z.pred (Z.of_nat (S n))) with (Z.of_nat n) by lia.
      replace (Z.succ 0) with (1 + 0) by lia.
      rewrite <- fmap_add_seqZ, <- list_fmap_compose.
      apply list_fmap_ext. intros _ k _. cbn.
      by replace (t0 + (1 + k) * h) with (t0 + h + k * h) by lia.
    + replace (steps - (t0 + h) + h - 1) with (steps - t0 + h - 1 + (-1) * h) by lia.
      rewrite Z.div_add by lia. lia.
Qed.


Lemma layer_count (h steps : Z) :
  0 < h → 0 < steps →
  let n := (steps + h - 1) `div` h in
  0 ≤ n ∧ steps ≤ n * h ∧ (n - 1) * h < steps ∧ n ≤ steps.
Proof.
  intros Hh Hpos n. unfold n.
  pose proof (Z.div_mod (steps + h - 1) h ltac:(lia)).
  pose proof (Z.mod_pos_bound (steps + h - 1) h Hh). nia.
Qed.

(** with a positive height the loop of [create] ends after at most [steps]
    rounds and has emitted the layers of [PlanSpec.layers] *)
Lemma create_layers (base : Base) (steps : Z) (fuel : nat) :
  - 2 ^ 31 ≤ steps < 2 ^ 31 →
  0 < PlanSpec.height base → steps + PlanSpec.height base ≤ 2 ^ 31 →
  (Z.to_nat steps ≤ fuel)%nat →
  ExecutionPlan.create fuel base steps = Some (PlanSpec.layers base steps).
Proof.
  intros Hsteps Hh Hmax Hfuel.
  set (h := PlanSpec.height base) in *.
  set (n := (steps + h - 1) `div` h).
  destruct (decide (steps ≤ 0)) as [Hle|Hpos].
  - rewrite create_no_step by done. unfold PlanSpec.layers. fold h.
    rewrite seqZ_nil; [done|].
    pose proof (Z.div_mod (steps + h - 1) h ltac:(lia)).
    pose proof (Z.mod_pos_bound (steps + h - 1) h Hh). nia.
  - destruct (layer_count h steps Hh ltac:(lia)) as (Hn0 & _ & _ & Hns). fold n in Hn0, Hns.
    unfold ExecutionPlan.create. fold (PlanSpec.height base). fold h.
    rewrite (create_loop_layers base _ h steps (Z.to_nat n)); [|done|done|lia| |lia].
    + f_equal. unfold PlanSpec.layers. fold h. fold n. rewrite Z2Nat.id by lia.
      apply list_fmap_ext. intros idx k Hk.
      apply lookup_seqZ in Hk as [-> Hk].
      rewrite Z.add_0_l. apply layer_spec. nia.
    + rewrite Z2Nat.id by lia. unfold n. f_equal. lia.
Qed.


(** with the height 0 the loop of [create] does not advance: the
    construction of the plan does not end, whatever the fuel *)
Lemma create_diverges (base : Base) (steps : Z) (fuel : nat) :
  PlanSpec.height base = 0 → 0 < steps →
  ExecutionPlan.create fuel base steps = None.
Proof.
  intros Hh Hpos. unfold ExecutionPlan.create.
  fold (PlanSpec.height base). rewrite Hh.
  induction fuel as [|fuel IH]; cbn [ExecutionPlan.create_loop];
    rewrite bool_decide_eq_true_2 by done; [done|].
  change (to_int (0 + 0)) with 0. by rewrite IH.
Qed.




(** ** Containers without a cell *)

Lemma index_space_empty size : 0 ∈ size → index_space size = [].
Proof.
  induction size as [|n size IH]; intros Hin; [by apply elem_of_nil in Hin|].
  apply elem_of_cons in Hin as [<-|Hin]; cbn [index_space].
  - by rewrite seqZ_nil by lia.
  - rewrite (IH Hin). generalize (seqZ 0 n). intros l.
    induction l as [|x l IHl]; [done|]. cbn. exact IHl.
Qed.

Lemma in_grid_empty size p : 0 ∈ size → ¬ in_grid size p.
Proof.
  intros Hin Hgrid. unfold in_grid in Hgrid.
  apply list_elem_of_lookup in Hin as [i Hi].
  destruct (Forall2_lookup_l _ _ _ _ _ Hgrid Hi) as (x & _ & Hx). lia.
Qed.

Section zero_extent.
Context {V : Type} `{Inhabited V}.

Lemma time_loop_idle (sweep : Z → ptr → ptr → store V → store V) steps st :
  (∀ t x y st, sweep t x y st = st) →
  is_store (time_loop sweep steps st) = st.
Proof.
  intros Hidle. unfold time_loop.
  generalize (seqZ 0 steps). intros l.
  assert (Hgen : ∀ s, is_store (foldl (λ s t,
             MkIterState (sweep t (is_x s) (is_y s) (is_store s)) (is_y s) (is_x s)) s l)
           = is_store s).
  { induction l as [|t l IH]; intros s; [done|]. cbn [foldl]. rewrite IH. cbn. apply Hidle. }
  apply Hgen.
Qed.

Lemma finish_idle (a : Container V) (s : iter_state) :
  0 ∈ c_size a →
  is_store s = MkStore a (c_fresh (c_size a)) →
  same_contents (finish s) a.
Proof.
  intros Hz Hs. unfold finish. rewrite Hs.
  case_decide; cbn; (split; [done|]); intros p Hp; cbn in Hp;
    by apply in_grid_empty in Hp.
Qed.

(** X24: on a container with an extent 0 the iterative implementations
    visit no cell, whatever the number of steps, and return a container
    with the size and the content of [a] *)
Lemma zero_extent_iterative (impl : Impl) (rt : Runtime) (a : Container V)
    (steps : Z) (update : Update) :
  0 ∈ c_size a →
  impl ∈ [impl_sequential_iterative; impl_coarse_grained_iterative;
          impl_fine_grained_iterative] →
  admissible impl rt a steps →
  ∃ a', stencil impl rt a steps update = Some a' ∧ same_contents a' a.
Proof.
  intros Hz Himpl Hadm. pose proof (index_space_empty _ Hz) as Hidx.
  rewrite !elem_of_cons, elem_of_nil in Himpl.
  destruct Himpl as [->|[->|[->|[]]]]; cbn in *; eexists; (split; [reflexivity|]).
  - unfold sequential_iterative. apply finish_idle; [done|].
    apply time_loop_idle. intros. by rewrite Hidx.
  - unfold coarse_grained_iterative. apply finish_idle; [done|].
    apply time_loop_idle. intros t x y st. rewrite Hidx in Hadm.
    by rewrite (proj1 (Permutation_nil_r _) (Hadm t)).
  - destruct Hadm as [Hp _]. unfold all_visits in Hp. rewrite Hidx in Hp.
    assert (Htr : rt_trace rt = []).
    { apply Permutation_nil_r. rewrite Hp.
      generalize (seqZ 0 steps). intros l. by induction l. }
    unfold fine_grained_iterative. rewrite Htr, take_nil, drop_nil. cbn [foldl].
    rewrite time_loop_idle by done.
    case_decide; cbn; (split; [done|]); intros p Hp'; cbn in Hp';
      by apply in_grid_empty in Hp'.
Qed.

End zero_extent.

(** C6 fails for the recursive implementations: on a container with an
    extent 0 and for one step the height of the layers is 0, the loop of
    [create] never advances, and the construction of the plan does not end,
    whatever the fuel. *)
Theorem zero_extent_recursive (rt : Runtime) :
  stencil impl_sequential_recursive rt (MkContainer [0] (λ _, 0)) 1 (λ _ _ _, 0) = None ∧
  stencil impl_parallel_recursive rt (MkContainer [0] (λ _, 0)) 1 (λ _ _ _, 0) = None.
Proof.
  pose proof (create_diverges (Base.full [0]) 1 (rt_fuel rt) eq_refl ltac:(lia)) as Hnone.
  cbn. unfold sequential_recursive, parallel_recursive. cbn [c_size].
  by rewrite Hnone.
Qed.

(** ** Runs of cell visits

    Every implementation performs cell visits: the visit [(p, t)] reads the
    buffer of the time [t] and writes the cell [p] of the other buffer.  The
    result of a run depends on the order of the visits only as far as the
    synchronisation between the neighbours goes. *)

Lemma land_1_odd t : bool_decide (Z.land t 1 ≠ 0) = Z.odd t.
Proof.
  change 1 with (Z.ones 1). rewrite Z.land_ones by lia.
  change (2 ^ 1) with 2. rewrite Zmod_odd.
  destruct (Z.odd t); [by apply bool_decide_eq_true|by apply bool_decide_eq_false; intros []].
Qed.







(** *** Products of index lists *)

(** the vectors whose entries are drawn from the given lists, the last entry
    running fastest *)
Fixpoint product (ls : list (list Z)) : list (list Z) :=
  match ls with
  | [] => [[]]
  | l :: rest => x ← l; (λ p, x :: p) <$> product rest
  end.

Lemma elem_of_product ls p : p ∈ product ls ↔ Forall2 (λ l x, x ∈ l) ls p.
Proof.
  revert p. induction ls as [|l ls IH]; intros p; cbn [product].
  - rewrite list_elem_of_singleton. split; [intros ->; constructor|by inversion 1].
  - rewrite list_elem_of_bind. split.
    + intros (x & Hp & Hx). apply list_elem_of_fmap in Hp as (p' & -> & Hp').
      constructor; [done|by apply IH].
    + intros Hf. apply Forall2_cons_inv_l in Hf as (x & p' & Hx & Hp' & ->).
      exists x. split; [|done]. apply list_elem_of_fmap. exists p'. split; [done|by apply IH].
Qed.

Lemma NoDup_product ls : Forall NoDup ls → NoDup (product ls).
Proof.
  induction 1 as [|l ls Hl Hls IH]; cbn [product]; [apply NoDup_singleton|].
  apply NoDup_bind; [|intros x _; apply NoDup_fmap_2; [by intros ?? [=]|done]|done].
  intros x1 x2 p Hx1 Hx2 Hp1 Hp2.
  apply list_elem_of_fmap in Hp1 as (p1 & -> & _).
  apply list_elem_of_fmap in Hp2 as (p2 & [= <- _] & _). done.
Qed.

Lemma index_space_product size : index_space size = product (seqZ 0 <$> size).
Proof. induction size as [|n size IH]; [done|]. cbn. by rewrite IH. Qed.

Lemma elem_of_index_space size p : p ∈ index_space size ↔ in_grid size p.
Proof.
  rewrite index_space_product, elem_of_product. unfold in_grid.
  rewrite Forall2_fmap_l.
  split; intros Hf; (eapply list.Forall2_impl; [exact Hf|]); intros n x; cbn;
    rewrite elem_of_seqZ; lia.
Qed.

Lemma NoDup_index_space size : NoDup (index_space size).
Proof.
  rewrite index_space_product. apply NoDup_product.
  apply Forall_fmap, Forall_true. intros n. apply NoDup_seqZ.
Qed.

Lemma elem_of_all_visits size steps p t :
  (p, t) ∈ all_visits size steps ↔ 0 ≤ t < steps ∧ in_grid size p.
Proof.
  unfold all_visits. rewrite list_elem_of_bind. split.
  - intros (t' & Hp & Ht'). apply list_elem_of_fmap in Hp as (p' & [= -> ->] & Hp').
    apply elem_of_seqZ in Ht'. apply elem_of_index_space in Hp'. split; [lia|done].
  - intros [Ht Hp]. exists t. split; [|apply elem_of_seqZ; lia].
    apply list_elem_of_fmap. exists p. split; [done|by apply elem_of_index_space].
Qed.

Lemma NoDup_all_visits size steps : NoDup (all_visits size steps).
Proof.
  unfold all_visits. apply NoDup_bind; [| |apply NoDup_seqZ].
  - intros t1 t2 v _ _ H1 H2.
    apply list_elem_of_fmap in H1 as (p1 & -> & _).
    apply list_elem_of_fmap in H2 as (p2 & [= _ <-] & _). done.
  - intros t _. apply NoDup_fmap_2; [by intros ?? [=]|apply NoDup_index_space].
Qed.

(** *** Synchronised traces *)

Lemma synchronised_iff nb performed trace :
  synchronised nb performed trace ↔
  ∀ l1 v l2, trace = l1 ++ v :: l2 → 0 < snd v →
    ∀ q, nb (fst v) q → (q, snd v - 1) ∈ performed ∨ (q, snd v - 1) ∈ l1.
Proof.
  revert performed. induction trace as [|u trace IH]; intros performed; cbn [synchronised].
  - split; [|done]. intros _ l1 v l2 Heq. by destruct l1.
  - rewrite IH. split.
    + intros [Hu Hrest] l1 v l2 Heq Hv q Hq. destruct l1 as [|u' l1]; simplify_eq/=.
      * left. by apply Hu.
      * destruct (Hrest l1 v l2 eq_refl Hv q Hq) as [Hin|Hin].
        -- apply elem_of_cons in Hin as [->|Hin]; [right; left|by left].
        -- right. by right.
    + intros Hall. split.
      * intros Hu q Hq. destruct (Hall [] u trace eq_refl Hu q Hq) as [|Hin]; [done|].
        by apply elem_of_nil in Hin.
      * intros l1 v l2 -> Hv q Hq.
        destruct (Hall (u :: l1) v l2 eq_refl Hv q Hq) as [Hin|Hin]; [left; by right|].
        apply elem_of_cons in Hin as [->|Hin]; [left; left|by right].
Qed.

Lemma synchronised_mono nb performed performed' trace :
  (∀ v, v ∈ performed → v ∈ performed') →
  synchronised nb performed trace → synchronised nb performed' trace.
Proof.
  rewrite !synchronised_iff. intros Hsub Hs l1 v l2 Heq Hv q Hq.
  destruct (Hs l1 v l2 Heq Hv q Hq); [left; by apply Hsub|by right].
Qed.

Lemma synchronised_app nb performed l k :
  synchronised nb performed l →
  synchronised nb (l ++ performed) k →
  synchronised nb performed (l ++ k).
Proof.
  rewrite !synchronised_iff. intros Hl Hk l1 v l2 Heq Hv q Hq.
  apply list.app_eq_inv in Heq as [(k' & Hl1 & Heq)|(k' & Hl1 & Heq)].
  - destruct k' as [|u k']; simplify_eq/=.
    + rewrite app_nil_r in Hk.
      destruct (Hk [] v l2 eq_refl Hv q Hq) as [Hin|Hin]; [|by apply elem_of_nil in Hin].
      apply elem_of_app in Hin as [|]; [by right|by left].
    + by apply (Hl l1 u k').
  - subst l1. destruct (Hk k' v l2 Heq Hv q Hq) as [Hin|Hin].
    + apply elem_of_app in Hin as [|]; [right|by left]. apply elem_of_app. by left.
    + right. apply elem_of_app. by right.
Qed.

(** a list of visits whose neighbours of the step before are all performed
    is synchronised, in any order *)
Lemma synchronised_block nb performed l :
  (∀ v q, v ∈ l → 0 < snd v → nb (fst v) q → (q, snd v - 1) ∈ performed) →
  synchronised nb performed l.
Proof.
  intros Hall. apply synchronised_iff. intros l1 v l2 -> Hv q Hq. left.
  apply (Hall v); [|done|done]. apply elem_of_app. right. left.
Qed.

(** the blocks of a list of blocks may each rely on the blocks before *)
Lemma synchronised_bind {A : Type} nb performed (f : A → list (list Z * Z)) (l : list A) :
  (∀ l1 x l2, l = l1 ++ x :: l2 →
     synchronised nb ((l1 ≫= f) ++ performed) (f x)) →
  synchronised nb performed (l ≫= f).
Proof.
  revert performed. induction l as [|x l IH]; intros performed Hbs; [done|].
  rewrite bind_cons. apply synchronised_app.
  - apply (Hbs [] x l eq_refl).
  - apply IH. intros l1 y l2 ->.
    eapply synchronised_mono; [|apply (Hbs (x :: l1) y l2 eq_refl)].
    intros v. rewrite bind_cons, !elem_of_app. tauto.
Qed.


Lemma seqZ_split m n l1 x l2 :
  seqZ m n = l1 ++ x :: l2 → l1 = seqZ m (x - m) ∧ m ≤ x < m + n.
Proof.
  intros Heq.
  assert (Hx : seqZ m n !! length l1 = Some x)
    by (rewrite Heq; by apply list_lookup_middle).
  apply lookup_seqZ in Hx as [-> Hlen].
  split; [|lia].
  replace n with (Z.of_nat (length l1) + (n - Z.of_nat (length l1))) in Heq by lia.
  rewrite seqZ_app in Heq by lia.
  apply app_inj_1 in Heq as [Heq _]; [|by rewrite length_seqZ; lia].
  replace (m + Z.of_nat (length l1) - m) with (Z.of_nat (length l1)) by lia.
  done.
Qed.

Section runs.
Context {V : Type} `{Inhabited V}.
Context (update : Update (V:=V)).
Context (a : Container V).

(** the neighbourhood an update reads: [nb p q] when the update of the cell
    [p] may read the cell [q] *)
Context (nb : list Z → list Z → Prop).
Context (nb_grid : ∀ p q, nb p q → in_grid (c_size a) q).
Context (nb_refl : ∀ p, in_grid (c_size a) p → nb p p).
Context (nb_sym : ∀ p q, in_grid (c_size a) p → nb p q → nb q p).




(** the buffer that holds the contents of the time [t] *)
Definition buf (st : store V) (t : Z) : Container V :=
  if Z.even t then st_a st else st_b st.




Lemma buf_cases st t t' : buf st t' = buf st t ∨ buf st t' = buf st (t + 1).
Proof.
  unfold buf. rewrite Z.even_add. change (Z.even 1) with false.
  destruct (Z.even t), (Z.even t'); auto.
Qed.









End runs.

(** ** The iterative implementations as runs of cell visits *)




Section iterative_runs.
Context {V : Type} `{Inhabited V}.
Context (update : Update (V:=V)).


Lemma x_at_succ t : x_at (t + 1) = y_at t ∧ y_at (t + 1) = x_at t.
Proof.
  unfold x_at, y_at. rewrite Z.even_add. change (Z.even 1) with false.
  by destruct (Z.even t).
Qed.






End iterative_runs.

(** ** The cells a zoid visits *)

(** the base of the plain of a zoid after [τ] steps *)
Definition row_base (z : Zoid) (τ : Z) : Base :=
  imap (λ i r, Range (rbegin r + slopes z !!! i * τ) (rend r - slopes z !!! i * τ)) (base z).

Lemma row_base_0 z : row_base z 0 = base z.
Proof.
  unfold row_base. apply list_eq. intros i. rewrite list_lookup_imap.
  destruct (base z !! i) as [[b e]|]; [|done]. cbn. do 2 f_equal; lia.
Qed.

Lemma advance_row_base z τ :
  Zoid.advance (row_base z τ) (slopes z) = row_base z (τ + 1).
Proof.
  unfold Zoid.advance, row_base. apply list_eq. intros i.
  rewrite !list_lookup_imap. destruct (base z !! i) as [[b e]|]; [|done].
  cbn. do 2 f_equal; lia.
Qed.

Lemma forEach_rows {S : Type} z (ev od : Coordinate → Z → S → S) limits s :
  Zoid.forEach z ev od limits s =
  foldl (λ s t,
           plain_scanner (Zoid.dims z - 1) (Zoid.dims z) (row_base z (t - t_begin z))
             (if bool_decide (Z.land t 1 ≠ 0) then od else ev)
             (replicate (Zoid.dims z) 0) (to_int t) limits s)
        s (seqZ (t_begin z) (t_end z - t_begin z)).
Proof.
  unfold Zoid.forEach.
  set (step := λ (st : list range * S) (t : Z), _).
  set (step' := λ (s : S) (t : Z), _).
  assert (Hgen : ∀ n : nat,
            foldl step (base z, s) (seqZ (t_begin z) (Z.of_nat n)) =
            (row_base z (Z.of_nat n), foldl step' s (seqZ (t_begin z) (Z.of_nat n)))).
  { induction n as [|n IH]; [by rewrite row_base_0|].
    rewrite seqZ_S, !foldl_app, IH. cbn [foldl]. unfold step at 1. cbn [fst snd].
    rewrite advance_row_base. f_equal; [f_equal; lia|].
    unfold step'.
    replace (t_begin z + Z.of_nat n - t_begin z) with (Z.of_nat n) by lia.
    by destruct (bool_decide (Z.land (t_begin z + Z.of_nat n) 1 ≠ 0)). }
  destruct (decide (0 ≤ t_end z - t_begin z)) as [Hpos|Hneg].
  - rewrite <- (Z2Nat.id (t_end z - t_begin z)) by done. by rewrite Hgen.
  - by rewrite seqZ_nil by lia.
Qed.

(** the cells of a zoid, row by row *)
Definition visit_rows (z : Zoid) (limits : Coordinate) : list (list Z * Z) :=
  t ← seqZ (t_begin z) (t_end z - t_begin z);
  (λ p, (p, to_int t)) <$>
    scan (Zoid.dims z - 1) (Zoid.dims z) (row_base z (t - t_begin z))
         (replicate (Zoid.dims z) 0) limits.

Lemma foldl_record (l : list (list Z * Z)) acc :
  foldl (λ s v, record_visit (fst v) (snd v) s) acc l = acc ++ l.
Proof.
  revert acc. induction l as [|v l IH]; intros acc; cbn [foldl].
  - by rewrite app_nil_r.
  - rewrite IH. unfold record_visit. destruct v. by rewrite <- app_assoc.
Qed.

Lemma visits_rows z limits : visits z limits = visit_rows z limits.
Proof.
  unfold visits, visit_rows. rewrite forEach_rows.
  generalize (seqZ (t_begin z) (t_end z - t_begin z)). intros l.
  assert (Hgen : ∀ acc,
    foldl (λ s t,
             plain_scanner (Zoid.dims z - 1) (Zoid.dims z) (row_base z (t - t_begin z))
               (if bool_decide (Z.land t 1 ≠ 0) then record_visit else record_visit)
               (replicate (Zoid.dims z) 0) (to_int t) limits s) acc l =
    acc ++ (l ≫= λ t, (λ p, (p, to_int t)) <$>
              scan (Zoid.dims z - 1) (Zoid.dims z) (row_base z (t - t_begin z))
                   (replicate (Zoid.dims z) 0) limits)).
  { induction l as [|t l IH]; intros acc; cbn [foldl].
    - by rewrite app_nil_r.
    - rewrite IH, bind_cons, app_assoc. f_equal.
      rewrite plain_scanner_scan.
      assert (Hsame : (if bool_decide (Z.land t 1 ≠ 0) then record_visit else record_visit)
                      = record_visit) by (by case_bool_decide).
      rewrite Hsame. rewrite <- foldl_record, foldl_fmap. done. }
  apply (Hgen []).
Qed.

Lemma to_int_land_1 t : Z.land (to_int t) 1 = Z.land t 1.
Proof.
  unfold to_int. change 1 with (Z.ones 1). rewrite !Z.land_ones by lia.
  change (2 ^ 1) with 2.
  rewrite <- Zminus_mod_idemp_l.
  rewrite Z.mod_mod_divide by (by exists (2 ^ 31)).
  rewrite Zminus_mod_idemp_l. replace (t + 2 ^ 31 - 2 ^ 31) with t by lia. done.
Qed.

Section zoid_runs.
Context {V : Type} `{Inhabited V}.
Context (update : Update (V:=V)).


(** the cells of a plan, in the order in which [runSequential] visits them *)
Definition plan_visits (order : list nat) (limits : Coordinate)
    (layers : list (list Zoid)) : list (list Z * Z) :=
  cur ← layers; idx ← order; visits (cur !!! idx) limits.


End zoid_runs.

(** the indices the scanner walks, axis by axis *)
Definition walks (base : Base) (limits : Coordinate) : list (list Z) :=
  zip_with axis_walk base limits.

Lemma fmap_bind_list {A B C : Type} (f : B → C) (g : A → list B) (l : list A) :
  f <$> (l ≫= g) = l ≫= (λ x, f <$> g x).
Proof.
  induction l as [|x l IH]; [done|]. by rewrite !bind_cons, fmap_app, IH.
Qed.

Lemma bind_ext_in {A B : Type} (f g : A → list B) (l : list A) :
  (∀ x, x ∈ l → f x = g x) → l ≫= f = l ≫= g.
Proof.
  induction l as [|x l IH]; intros Hfg; [done|].
  rewrite !bind_cons, Hfg by left. f_equal. apply IH. intros y Hy. apply Hfg. by right.
Qed.

Lemma walks_lookup base limits i :
  (i < length base)%nat → (i < length limits)%nat →
  walks base limits !! i = Some (axis_walk (base !!! i) (limits !!! i)).
Proof.
  intros Hb Hl. unfold walks. rewrite lookup_zip_with.
  destruct (lookup_lt_is_Some_2 base i Hb) as [r Hr].
  destruct (lookup_lt_is_Some_2 limits i Hl) as [n Hn].
  rewrite Hr, Hn. cbn.
  by rewrite (list_lookup_total_correct _ _ _ Hr), (list_lookup_total_correct _ _ _ Hn).
Qed.

Lemma scan_suffix k dims base pos limits :
  (k < dims)%nat →
  length base = dims → length limits = dims → length pos = dims →
  scan k dims base pos limits =
  (λ suf, take (dims - k - 1) pos ++ suf) <$>
    product (drop (dims - k - 1) (walks base limits)).
Proof.
  intros Hk Hb Hl. revert pos. induction k as [|k IH]; intros pos Hp.
  - cbn [scan]. set (idx := (dims - 0 - 1)%nat).
    pose proof (walks_lookup base limits idx ltac:(lia) ltac:(lia)) as Hw.
    rewrite (drop_S _ _ _ Hw).
    rewrite drop_ge by (unfold walks; rewrite length_zip_with; lia).
    cbn [product]. rewrite fmap_bind_list. apply bind_ext_in. intros v _.
    cbn. rewrite insert_take_drop by lia.
    by rewrite (drop_ge pos) by lia.
  - cbn [scan]. set (idx := (dims - S k - 1)%nat).
    pose proof (walks_lookup base limits idx ltac:(lia) ltac:(lia)) as Hw.
    rewrite (drop_S _ _ _ Hw). cbn [product]. rewrite fmap_bind_list.
    apply bind_ext_in. intros v _.
    rewrite IH by (rewrite ?length_insert; lia).
    replace (dims - k - 1)%nat with (S idx) by lia.
    rewrite <- list_fmap_compose. apply list_fmap_ext. intros _ suf _. cbn.
    rewrite insert_take_drop by lia.
    rewrite (cons_middle v (take idx pos)), app_assoc.
    rewrite take_app_length' by (rewrite length_app, length_take; cbn; lia).
    by rewrite <- app_assoc.
Qed.

Lemma scan_product dims base pos limits :
  (0 < dims)%nat →
  length base = dims → length limits = dims → length pos = dims →
  scan (dims - 1) dims base pos limits = product (walks base limits).
Proof.
  intros Hd Hb Hl Hp. rewrite scan_suffix by lia.
  replace (dims - (dims - 1) - 1)%nat with 0%nat by lia.
  rewrite take_0, drop_0. cbn [app]. apply list_fmap_id.
Qed.

(** ** Bit patterns *)

(** the number with the given bits, the lowest first *)
Fixpoint mask_of (bs : list bool) : nat :=
  match bs with
  | [] => 0
  | b :: bs => (Nat.b2n b + 2 * mask_of bs)%nat
  end.

Lemma mask_of_lt bs : (mask_of bs < 2 ^ length bs)%nat.
Proof.
  induction bs as [|b bs IH]; cbn [mask_of length]; [cbn; lia|].
  rewrite Nat.pow_succ_r'. destruct b; cbn [Nat.b2n]; lia.
Qed.

Lemma testbit_double_plus (a : nat) (b : bool) (i : nat) :
  Z.testbit (Z.of_nat (Nat.b2n b + 2 * a)) (Z.of_nat i) =
  match i with O => b | S i' => Z.testbit (Z.of_nat a) (Z.of_nat i') end.
Proof.
  replace (Z.of_nat (Nat.b2n b + 2 * a)) with (2 * Z.of_nat a + Z.b2z b)
    by (destruct b; cbn [Nat.b2n Z.b2z]; lia).
  destruct i as [|i'].
  - apply Z.testbit_0_r.
  - replace (Z.of_nat (S i')) with (Z.succ (Z.of_nat i')) by lia.
    apply Z.testbit_succ_r. lia.
Qed.

Lemma testbit_mask_of bs i :
  Z.testbit (Z.of_nat (mask_of bs)) (Z.of_nat i) = default false (bs !! i).
Proof.
  revert i. induction bs as [|b bs IH]; intros i; cbn [mask_of].
  - cbn. apply Z.bits_0.
  - rewrite testbit_double_plus. destruct i as [|i]; [done|]. apply IH.
Qed.

(** two patterns of [n] bits with the same bits are the same *)
Lemma mask_eq (n m m' : nat) :
  (m < 2 ^ n)%nat → (m' < 2 ^ n)%nat →
  (∀ i, (i < n)%nat → Z.testbit (Z.of_nat m) (Z.of_nat i) = Z.testbit (Z.of_nat m') (Z.of_nat i)) →
  m = m'.
Proof.
  intros Hm Hm' Hbits. apply Nat2Z.inj. apply Z.bits_inj'. intros k Hk.
  destruct (decide (k < Z.of_nat n)) as [Hlt|Hge].
  - specialize (Hbits (Z.to_nat k) ltac:(lia)). by rewrite Z2Nat.id in Hbits by done.
  - assert (Hpow : Z.of_nat (2 ^ n) = 2 ^ Z.of_nat n) by (by rewrite Nat2Z.inj_pow).
    rewrite <- (Z.mod_small (Z.of_nat m) (2 ^ Z.of_nat n)) by lia.
    rewrite <- (Z.mod_small (Z.of_nat m') (2 ^ Z.of_nat n)) by lia.
    by rewrite !Z.mod_pow2_bits_high by lia.
Qed.

Lemma popcount_double_plus (a : nat) (b : bool) :
  popcount (Nat.b2n b + 2 * a) = (Nat.b2n b + popcount a)%nat.
Proof.
  unfold popcount.
  replace (Z.of_nat (Nat.b2n b + 2 * a)) with (2 * Z.of_nat a + Z.b2z b)
    by (destruct b; cbn [Nat.b2n Z.b2z]; lia).
  destruct (Z.of_nat a) as [|p|p] eqn:Ha; [by destruct b| |lia].
  by destruct b.
Qed.

Lemma nat_double_plus (m : nat) : m = (Nat.b2n (Nat.odd m) + 2 * Nat.div2 m)%nat.
Proof. rewrite Nat.add_comm. apply Nat.div2_odd. Qed.

(** the number of 1-bits of a pattern of [n] bits *)
Lemma popcount_bits (n m : nat) :
  (m < 2 ^ n)%nat →
  popcount m =
  length (filter (λ i, Z.testbit (Z.of_nat m) (Z.of_nat i) = true) (seq 0 n)).
Proof.
  revert m. induction n as [|n IH]; intros m Hm.
  - cbn in Hm. by replace m with 0%nat by lia.
  - rewrite (nat_double_plus m) at 1. rewrite popcount_double_plus.
    rewrite Nat.pow_succ_r' in Hm.
    rewrite (IH (Nat.div2 m)) by (rewrite (nat_double_plus m) in Hm; lia).
    cbn [seq]. rewrite filter_cons. rewrite <- fmap_S_seq.
    assert (Hodd : Z.testbit (Z.of_nat m) (Z.of_nat 0) = Nat.odd m).
    { rewrite (nat_double_plus m) at 1. by rewrite testbit_double_plus. }
    assert (Hrest : length (filter (λ i, Z.testbit (Z.of_nat m) (Z.of_nat i) = true)
                              (S <$> seq 0 n)) =
                    length (filter (λ i, Z.testbit (Z.of_nat (Nat.div2 m)) (Z.of_nat i) = true)
                              (seq 0 n))).
    { generalize (seq 0 n). intros l. induction l as [|i l IHl]; [done|].
      rewrite fmap_cons, !filter_cons.
      assert (Hi : Z.testbit (Z.of_nat m) (Z.of_nat (S i)) =
                   Z.testbit (Z.of_nat (Nat.div2 m)) (Z.of_nat i)).
      { rewrite (nat_double_plus m) at 1. by rewrite testbit_double_plus. }
      rewrite Hi. case_decide; cbn [length]; by rewrite IHl. }
    rewrite Hodd. destruct (Nat.odd m); case_decide; try done; cbn [length Nat.b2n];
      rewrite Hrest; lia.
Qed.

(** a pattern whose 1-bits are among those of another and that is not the
    other one has fewer 1-bits *)
Lemma popcount_subset (n m' m : nat) :
  (m' < 2 ^ n)%nat → (m < 2 ^ n)%nat →
  (∀ i, (i < n)%nat → Z.testbit (Z.of_nat m') (Z.of_nat i) = true →
        Z.testbit (Z.of_nat m) (Z.of_nat i) = true) →
  m' ≠ m →
  (popcount m' < popcount m)%nat.
Proof.
  intros Hm' Hm Hsub Hne.
  assert (Hdiff : ∃ i, (i < n)%nat ∧ Z.testbit (Z.of_nat m') (Z.of_nat i) = false ∧
                       Z.testbit (Z.of_nat m) (Z.of_nat i) = true).
  { destruct (decide (Exists (λ i,
       Z.testbit (Z.of_nat m') (Z.of_nat i) ≠ Z.testbit (Z.of_nat m) (Z.of_nat i))
       (seq 0 n))) as [Hex|Hnone].
    - apply Exists_exists in Hex as (i & Hi & Hbit).
      apply elem_of_seq in Hi. exists i. split; [lia|].
      specialize (Hsub i ltac:(lia)).
      destruct (Z.testbit (Z.of_nat m') (Z.of_nat i)), (Z.testbit (Z.of_nat m) (Z.of_nat i));
        try done. by specialize (Hsub eq_refl).
    - exfalso. apply Hne. apply (mask_eq n); [done|done|]. intros i Hi.
      destruct (decide (Z.testbit (Z.of_nat m') (Z.of_nat i) =
                        Z.testbit (Z.of_nat m) (Z.of_nat i))) as [|Hd]; [done|].
      exfalso. apply Hnone. apply Exists_exists. exists i.
      split; [|done]. apply elem_of_seq. lia. }
  destruct Hdiff as (i & Hi & Hf & Ht).
  rewrite (popcount_bits n m'), (popcount_bits n m) by done.
  assert (Hgen : ∀ l : list nat, (∀ j, j ∈ l → (j < n)%nat) →
    (length (filter (λ i, Z.testbit (Z.of_nat m') (Z.of_nat i) = true) l) ≤
     length (filter (λ i, Z.testbit (Z.of_nat m) (Z.of_nat i) = true) l))%nat ∧
    (i ∈ l →
     (length (filter (λ i, Z.testbit (Z.of_nat m') (Z.of_nat i) = true) l) <
      length (filter (λ i, Z.testbit (Z.of_nat m) (Z.of_nat i) = true) l))%nat)).
  { induction l as [|j l IHl]; intros Hl.
    - split; [done|]. intros Hin. by apply elem_of_nil in Hin.
    - destruct IHl as [IHle IHlt]; [intros k Hk; apply Hl; by right|].
      specialize (Hsub j (Hl j ltac:(left))).
      rewrite !filter_cons. split.
      + repeat case_decide; cbn [length]; try lia. by specialize (Hsub ltac:(done)).
      + intros Hin. apply elem_of_cons in Hin as [<-|Hin].
        * rewrite decide_False by (by rewrite Hf).
          rewrite decide_True by done. cbn [length]. lia.
        * specialize (IHlt Hin).
          repeat case_decide; cbn [length]; try lia. by specialize (Hsub ltac:(done)). }
  apply Hgen; [intros j Hj; apply elem_of_seq in Hj; lia|].
  apply elem_of_seq. lia.
Qed.

(** ** The geometry of the zoids of a plan *)

Lemma elem_of_axis_walk r length x :
  x ∈ axis_walk r length ↔
  let from := if decide (rbegin r > length) then rbegin r - length else rbegin r in
  let to := if decide (rbegin r > length) then rend r - length else rend r in
  (from ≤ x < Z.min to length) ∨ (length < to ∧ 0 ≤ x < to - length).
Proof.
  unfold axis_walk. cbn zeta. rewrite elem_of_app, elem_of_seqZ.
  case_decide; case_decide; rewrite ?elem_of_seqZ, ?elem_of_nil; lia.
Qed.

Lemma NoDup_axis_walk r length :
  (let from := if decide (rbegin r > length) then rbegin r - length else rbegin r in
   let to := if decide (rbegin r > length) then rend r - length else rend r in
   to - length ≤ from) →
  NoDup (axis_walk r length).
Proof.
  cbn zeta. intros Hw. unfold axis_walk. apply NoDup_app. split; [apply NoDup_seqZ|].
  split; [|repeat case_decide; (apply NoDup_nil_2 || apply NoDup_seqZ)].
  intros x Hx. rewrite elem_of_seqZ in Hx.
  repeat case_decide; rewrite ?elem_of_seqZ, ?elem_of_nil; lia.
Qed.

(** the indices of one axis of a zoid of a plan at the row [τ]: those of an
    opening dimension lie around the seam at [mid], those of a closing one
    in between *)
Definition in_axis (o : bool) (mid L τ x : Z) : Prop :=
  if o then (mid - τ ≤ x < L ∨ 0 ≤ x < τ) else τ ≤ x < mid - τ.

Global Instance in_axis_dec o mid L τ x : Decision (in_axis o mid L τ x).
Proof. unfold in_axis. destruct o; apply _. Defined.

Lemma in_axis_walk (o : bool) mid L τ x :
  0 ≤ τ → 2 * τ ≤ mid → mid ≤ L →
  x ∈ axis_walk (if o then Range (mid - τ) (L + τ) else Range τ (mid - τ)) L ↔
  in_axis o mid L τ x.
Proof.
  intros Hτ Hmid HL. rewrite elem_of_axis_walk. unfold in_axis.
  destruct o; cbn [rbegin rend]; repeat case_decide; lia.
Qed.

Lemma NoDup_in_axis_walk (o : bool) mid L τ :
  0 ≤ τ → 2 * τ ≤ mid → mid ≤ L →
  NoDup (axis_walk (if o then Range (mid - τ) (L + τ) else Range τ (mid - τ)) L).
Proof.
  intros Hτ Hmid HL. apply NoDup_axis_walk.
  destruct o; cbn [rbegin rend]; repeat case_decide; lia.
Qed.

(** every index of the axis is in the opening or in the closing part, and in
    one of them only *)
Lemma in_axis_cover mid L τ x :
  0 ≤ τ → 2 * τ ≤ mid → mid ≤ L → 0 ≤ x < L →
  in_axis true mid L τ x ∨ in_axis false mid L τ x.
Proof. unfold in_axis. lia. Qed.

Lemma in_axis_disjoint mid L τ x :
  0 ≤ τ → 2 * τ ≤ mid → mid ≤ L →
  in_axis true mid L τ x → in_axis false mid L τ x → False.
Proof. unfold in_axis. lia. Qed.

Lemma in_axis_range o mid L τ x :
  0 ≤ τ → 2 * τ ≤ mid → mid ≤ L → in_axis o mid L τ x → 0 ≤ x < L.
Proof. unfold in_axis. destruct o; lia. Qed.

(** the neighbours of an index of the closing part were in the closing part
    of the row before *)
Lemma in_axis_closing_before mid L τ x y :
  1 ≤ τ → 2 * τ ≤ mid → mid ≤ L →
  in_axis false mid L τ x →
  y = x ∨ y = (x + 1) `mod` L ∨ y = (x - 1) `mod` L →
  in_axis false mid L (τ - 1) y.
Proof.
  unfold in_axis. intros Hτ Hmid HL Hx [->|[->| ->]]; [lia| |].
  - rewrite Z.mod_small by lia. lia.
  - rewrite Z.mod_small by lia. lia.
Qed.

Lemma getMinimumWidth_spec (b : list range) :
  (0 < length b)%nat →
  (∃ i, (i < length b)%nat ∧ Base.getWidth b i = Base.getMinimumWidth b) ∧
  (∀ i, (i < length b)%nat → Base.getMinimumWidth b ≤ Base.getWidth b i).
Proof.
  intros Hlen. unfold Base.getMinimumWidth.
  assert (Hgen : ∀ n, let m := foldl (λ res i, Z.min res (Base.getWidth b i))
                                (Base.getWidth b 0) (seq 1 n) in
            (∃ i, (i < S n)%nat ∧ Base.getWidth b i = m) ∧
            (∀ i, (i < S n)%nat → m ≤ Base.getWidth b i)).
  { induction n as [|n IH]; cbn zeta.
    - split; [exists 0%nat; split; [lia|done]|].
      intros i Hi. replace i with 0%nat by lia. simpl. lia.
    - rewrite seq_S, foldl_app. cbn [foldl]. cbn zeta in IH.
      destruct IH as [(i & Hi & Hmi) Hall].
      set (m := foldl _ _ (seq 1 n)) in *.
      replace (1 + n)%nat with (S n) by lia. split.
      + destruct (Z.min_spec m (Base.getWidth b (S n))) as [[? ->]|[? ->]].
        * exists i. split; [lia|done].
        * exists (S n). split; [lia|done].
      + intros j Hj. destruct (decide (j = S n)) as [->|]; [lia|].
        specialize (Hall j ltac:(lia)). lia. }
  specialize (Hgen (length b - 1)%nat). cbn zeta in Hgen.
  replace (S (length b - 1)) with (length b) in Hgen by lia. exact Hgen.
Qed.

Section plan_geometry.
Context (size : list Z).
Context (Hdims : (0 < length size)%nat).
Context (Hsize : Forall (λ n, 2 ≤ n) size).

Let fbase : list range := Base.full size.
Let N : nat := length size.
Let h : Z := PlanSpec.height fbase.

Lemma full_length : length (Base.full size) = length size.
Proof. unfold Base.full. by rewrite length_fmap. Qed.

Lemma full_getWidth i L : size !! i = Some L → Base.getWidth fbase i = L.
Proof.
  intros Hi. unfold fbase. rewrite (getWidth_lookup _ i (Range 0 L)); [cbn; lia|].
  unfold Base.full. by rewrite list_lookup_fmap, Hi.
Qed.

Lemma extend_full : Base.extend fbase = size.
Proof.
  unfold Base.extend. apply list_eq. intros i.
  rewrite list_lookup_fmap. unfold fbase at 2. rewrite full_length.
  destruct (size !! i) as [L|] eqn:Hi.
  - rewrite lookup_seq_lt by (by eapply lookup_lt_Some). cbn.
    by rewrite (full_getWidth i L).
  - by rewrite lookup_seq_ge by (by apply lookup_ge_None).
Qed.

Lemma min_width_bounds :
  2 ≤ Base.getMinimumWidth fbase ∧
  ∀ i L, size !! i = Some L → Base.getMinimumWidth fbase ≤ L.
Proof.
  destruct (getMinimumWidth_spec fbase) as [(j & Hj & Hmin) Hall].
  { unfold fbase. by rewrite full_length. }
  split.
  - unfold fbase in Hj. rewrite full_length in Hj.
    destruct (lookup_lt_is_Some_2 size j Hj) as [L HL].
    rewrite (full_getWidth j L HL) in Hmin. rewrite <- Hmin.
    by eapply Forall_lookup_1 in Hsize.
  - intros i L Hi. rewrite <- (full_getWidth i L Hi). apply Hall.
    unfold fbase. rewrite full_length. by eapply lookup_lt_Some.
Qed.

Lemma height_bounds : 1 ≤ h ∧ 2 * h ≤ Base.getMinimumWidth fbase.
Proof.
  destruct min_width_bounds as [Hw _]. unfold h, PlanSpec.height.
  pose proof (quot2_nonneg_bounds (Base.getMinimumWidth fbase) ltac:(lia)). lia.
Qed.

Lemma mid_bounds i L :
  size !! i = Some L → 2 * h ≤ PlanSpec.mid fbase i ≤ L.
Proof.
  intros Hi. destruct min_width_bounds as [Hw Hall]. specialize (Hall i L Hi).
  destruct height_bounds as [_ Hh].
  unfold PlanSpec.mid. rewrite (full_getWidth i L Hi).
  pose proof (quot2_nonneg_bounds (L - Base.getMinimumWidth fbase) ltac:(lia)). lia.
Qed.

(** the positions of the zoid for the pattern [m] at its row [τ] *)
Definition in_zoid (m : nat) (τ : Z) (p : list Z) : Prop :=
  length p = length size ∧
  ∀ i L x, size !! i = Some L → p !! i = Some x →
    in_axis (Z.testbit (Z.of_nat m) (Z.of_nat i)) (PlanSpec.mid fbase i) L τ x.

Lemma plan_zoid_dims t0 t1 m : Zoid.dims (PlanSpec.zoid fbase t0 t1 m) = length size.
Proof.
  unfold Zoid.dims, PlanSpec.zoid. cbn [base].
  rewrite length_fmap, length_seq. apply full_length.
Qed.

Lemma plan_zoid_walks t0 t1 m τ i L :
  size !! i = Some L →
  walks (row_base (PlanSpec.zoid fbase t0 t1 m) τ) size !! i =
  Some (axis_walk
          (if Z.testbit (Z.of_nat m) (Z.of_nat i)
           then Range (PlanSpec.mid fbase i - τ) (L + τ)
           else Range τ (PlanSpec.mid fbase i - τ)) L).
Proof.
  intros Hi. pose proof (lookup_lt_Some _ _ _ Hi) as Hlt.
  unfold walks. rewrite lookup_zip_with, Hi.
  unfold row_base, PlanSpec.zoid. cbn [base slopes].
  rewrite list_lookup_imap, list_lookup_fmap.
  assert (Hlen : length fbase = length size) by apply full_length.
  rewrite !Hlen, lookup_seq_lt by done. cbn.
  assert (Hs : ((λ i0 : nat, if Z.testbit (Z.of_nat m) (Z.of_nat i0) then -1 else 1)
                  <$> seq 0 (length size)) !!! i =
               if Z.testbit (Z.of_nat m) (Z.of_nat i) then -1 else 1).
  { apply list_lookup_total_correct. rewrite list_lookup_fmap.
    by rewrite lookup_seq_lt. }
  rewrite Hs. unfold PlanSpec.right, PlanSpec.left. rewrite (full_getWidth i L Hi).
  destruct (Z.testbit (Z.of_nat m) (Z.of_nat i)); cbn [rbegin rend];
    do 3 f_equal; lia.
Qed.

Lemma plan_zoid_walks_length t0 t1 m τ :
  length (walks (row_base (PlanSpec.zoid fbase t0 t1 m) τ) size) = length size.
Proof.
  unfold walks, row_base. rewrite length_zip_with, length_imap.
  fold (Zoid.dims (PlanSpec.zoid fbase t0 t1 m)). rewrite plan_zoid_dims. lia.
Qed.

Lemma elem_of_plan_row t0 t1 m τ p :
  0 ≤ τ < h →
  p ∈ product (walks (row_base (PlanSpec.zoid fbase t0 t1 m) τ) size) ↔ in_zoid m τ p.
Proof.
  intros Hτ. rewrite elem_of_product, Forall2_same_length_lookup.
  rewrite plan_zoid_walks_length. unfold in_zoid.
  split; intros [Hlen Hall]; (split; [done|]).
  - intros i L x Hi Hx. destruct (mid_bounds i L Hi) as [Hm1 Hm2].
    apply (in_axis_walk _ _ _ τ); [lia|lia|done|].
    apply (Hall i); [|done]. by apply plan_zoid_walks.
  - intros i l x Hl Hx.
    destruct (lookup_lt_is_Some_2 size i) as [L Hi];
      [rewrite <- Hlen; by eapply lookup_lt_Some|].
    rewrite (plan_zoid_walks _ _ _ _ _ _ Hi) in Hl. simplify_eq.
    destruct (mid_bounds i L Hi) as [Hm1 Hm2].
    apply in_axis_walk; [lia|lia|done|]. by eapply Hall.
Qed.

Lemma elem_of_plan_zoid t0 t1 m p t :
  0 ≤ t0 → t1 < 2 ^ 31 → t1 - t0 ≤ h →
  (p, t) ∈ visits (PlanSpec.zoid fbase t0 t1 m) size ↔
  t0 ≤ t < t1 ∧ in_zoid m (t - t0) p.
Proof.
  intros Ht0 Ht1 Hh. rewrite visits_rows. unfold visit_rows.
  rewrite list_elem_of_bind. rewrite plan_zoid_dims.
  cbn [t_begin t_end PlanSpec.zoid]. split.
  - intros (t' & Hp & Ht'). apply elem_of_seqZ in Ht'.
    apply list_elem_of_fmap in Hp as (p' & [= -> ->] & Hp').
    rewrite to_int_small by lia. split; [lia|].
    rewrite scan_product in Hp'; try done.
    + apply elem_of_plan_row in Hp'; [done|lia].
    + unfold row_base. rewrite length_imap.
      apply (plan_zoid_dims t0 t1 m).
    + by rewrite length_replicate.
  - intros [Ht Hp]. exists t. split; [|apply elem_of_seqZ; lia].
    apply list_elem_of_fmap. exists p. split; [by rewrite to_int_small by lia|].
    rewrite scan_product; try done.
    + apply elem_of_plan_row; [lia|done].
    + unfold row_base. rewrite length_imap.
      apply (plan_zoid_dims t0 t1 m).
    + by rewrite length_replicate.
Qed.

Lemma NoDup_plan_zoid t0 t1 m :
  0 ≤ t0 → t1 < 2 ^ 31 → t1 - t0 ≤ h →
  NoDup (visits (PlanSpec.zoid fbase t0 t1 m) size).
Proof.
  intros Ht0 Ht1 Hh. rewrite visits_rows. unfold visit_rows.
  rewrite plan_zoid_dims. cbn [t_begin t_end PlanSpec.zoid].
  apply NoDup_bind; [| |apply NoDup_seqZ].
  - intros ta tb v Hta Htb Ha Hb. apply elem_of_seqZ in Hta, Htb.
    apply list_elem_of_fmap in Ha as (pa & -> & _).
    apply list_elem_of_fmap in Hb as (pb & [= _ Heq] & _).
    by rewrite !to_int_small in Heq by lia.
  - intros t Ht. apply elem_of_seqZ in Ht.
    apply NoDup_fmap_2; [by intros ?? [=]|].
    rewrite scan_product; try done.
    + apply NoDup_product. apply Forall_lookup_2. intros i l Hl.
      destruct (lookup_lt_is_Some_2 size i) as [L Hi].
      { rewrite <- (plan_zoid_walks_length t0 t1 m (t - t0)). by eapply lookup_lt_Some. }
      rewrite (plan_zoid_walks _ _ _ _ _ _ Hi) in Hl. simplify_eq.
      destruct (mid_bounds i L Hi) as [Hm1 Hm2].
      apply NoDup_in_axis_walk; lia.
    + unfold row_base. rewrite length_imap.
      apply (plan_zoid_dims t0 t1 m).
    + by rewrite length_replicate.
Qed.

Lemma in_zoid_grid m τ p : 0 ≤ τ < h → in_zoid m τ p → in_grid size p.
Proof.
  intros Hτ [Hlen Hall]. unfold in_grid. apply Forall2_same_length_lookup.
  split; [done|]. intros i L x Hi Hx. destruct (mid_bounds i L Hi) as [Hm1 Hm2].
  eapply (in_axis_range _ _ _ τ); [| | |by eapply Hall]; lia.
Qed.

Lemma in_zoid_cover τ p :
  0 ≤ τ < h → in_grid size p →
  ∃ m, (m < 2 ^ length size)%nat ∧ in_zoid m τ p.
Proof.
  intros Hτ Hp. unfold in_grid in Hp. apply Forall2_same_length_lookup in Hp as [Hlen Hp].
  set (bs := (λ i, bool_decide (in_axis true (PlanSpec.mid fbase i) (size !!! i) τ (p !!! i)))
               <$> seq 0 (length size)).
  exists (mask_of bs). split.
  - pose proof (mask_of_lt bs) as Hlt. unfold bs in Hlt at 2.
    by rewrite length_fmap, length_seq in Hlt.
  - split; [done|]. intros i L x Hi Hx. rewrite testbit_mask_of.
    unfold bs. rewrite list_lookup_fmap, lookup_seq_lt by (by eapply lookup_lt_Some).
    cbn. rewrite (list_lookup_total_correct _ _ _ Hi), (list_lookup_total_correct _ _ _ Hx).
    destruct (mid_bounds i L Hi) as [Hm1 Hm2].
    case_bool_decide as Hopen; [done|].
    destruct (in_axis_cover (PlanSpec.mid fbase i) L τ x) as [|Hc]; try done; try lia.
    by apply (Hp i).
Qed.

Lemma in_zoid_unique m m' τ p :
  0 ≤ τ < h →
  (m < 2 ^ length size)%nat → (m' < 2 ^ length size)%nat →
  in_zoid m τ p → in_zoid m' τ p → m = m'.
Proof.
  intros Hτ Hm Hm' [Hlen Hall] [_ Hall'].
  apply (mask_eq (length size)); [done|done|]. intros i Hi.
  destruct (lookup_lt_is_Some_2 size i Hi) as [L HL].
  destruct (lookup_lt_is_Some_2 p i ltac:(lia)) as [x Hx].
  specialize (Hall i L x HL Hx). specialize (Hall' i L x HL Hx).
  destruct (mid_bounds i L HL) as [Hm1 Hm2].
  destruct (Z.testbit (Z.of_nat m) (Z.of_nat i)), (Z.testbit (Z.of_nat m') (Z.of_nat i));
    try done; exfalso;
    eapply (in_axis_disjoint (PlanSpec.mid fbase i) L τ x); try done; lia.
Qed.

(** the neighbours of a position of the zoid [m] at the row [τ] are, at the
    row before, in a zoid whose opening dimensions are among those of [m] *)
Lemma in_zoid_before m τ p q :
  1 ≤ τ < h → in_zoid m τ p → near size p q →
  ∃ m', (m' < 2 ^ length size)%nat ∧ in_zoid m' (τ - 1) q ∧
        ∀ i, (i < length size)%nat →
             Z.testbit (Z.of_nat m') (Z.of_nat i) = true →
             Z.testbit (Z.of_nat m) (Z.of_nat i) = true.
Proof.
  intros Hτ [Hlen Hall] [Hq Hnear].
  destruct (in_zoid_cover (τ - 1) q ltac:(lia) Hq) as (m' & Hm' & Hin').
  exists m'. split; [done|]. split; [done|]. intros i Hi Hbit'.
  destruct (Z.testbit (Z.of_nat m) (Z.of_nat i)) eqn:Hbit; [done|]. exfalso.
  destruct (lookup_lt_is_Some_2 size i Hi) as [L HL].
  destruct (lookup_lt_is_Some_2 p i ltac:(lia)) as [x Hx].
  destruct Hin' as [Hlen' Hall'].
  destruct (lookup_lt_is_Some_2 q i ltac:(lia)) as [y Hy].
  specialize (Hall i L x HL Hx). rewrite Hbit in Hall.
  specialize (Hall' i L y HL Hy). rewrite Hbit' in Hall'.
  destruct (mid_bounds i L HL) as [Hm1 Hm2].
  eapply (in_axis_disjoint (PlanSpec.mid fbase i) L (τ - 1) y); [lia|lia|done|done|].
  eapply (in_axis_closing_before _ _ τ x); [lia|lia|done|done|].
  by eapply Hnear.
Qed.

End plan_geometry.

(** the rows of a zoid are visited in the order of the times: a zoid may
    rely on its own rows and on the visits performed before it *)
Lemma synchronised_zoid nb performed z limits :
  0 ≤ t_begin z → t_end z < 2 ^ 31 →
  (∀ p t q, (p, t) ∈ visits z limits → 0 < t → nb p q →
     (q, t - 1) ∈ performed ∨ (q, t - 1) ∈ visits z limits) →
  synchronised nb performed (visits z limits).
Proof.
  intros Hb He Hdep. rewrite visits_rows in *. unfold visit_rows in *.
  apply synchronised_bind. intros l1 t l2 Heq.
  pose proof Heq as Heq'. apply seqZ_split in Heq' as [-> Ht].
  apply synchronised_block. intros v q Hv Hpos Hq.
  pose proof Hv as Hv'.
  apply list_elem_of_fmap in Hv' as (p & -> & Hp). cbn [fst snd] in *.
  rewrite to_int_small in * by lia.
  destruct (Hdep p t q) as [Hin|Hin]; [|done|done| |].
  - apply list_elem_of_bind. exists t. split; [by rewrite to_int_small by lia|].
    apply elem_of_seqZ. lia.
  - apply elem_of_app. by right.
  - apply elem_of_app. left.
    apply list_elem_of_bind in Hin as (t' & Hq' & Ht').
    apply elem_of_seqZ in Ht'.
    apply list_elem_of_bind. exists t'. split; [done|].
    apply list_elem_of_fmap in Hq' as (q' & [= -> Heqt] & _).
    rewrite to_int_small in Heqt by lia. apply elem_of_seqZ. lia.
Qed.

Section plan_runs.
Context (size : list Z).
Context (Hdims : (0 < length size)%nat).
Context (Hsize : Forall (λ n, 2 ≤ n) size).
Context (order : list nat).
Context (Hperm : order ≡ₚ seq 0 (2 ^ length size)).
Context (Hsorted : StronglySorted (λ a b, (popcount a ≤ popcount b)%nat) order).

Let fbase : list range := Base.full size.
Let h : Z := PlanSpec.height fbase.

(** the cells of a layer, in the order in which [runSequential] visits them *)
Definition layer_visits (t0 t1 : Z) : list (list Z * Z) :=
  idx ← order; visits (PlanSpec.zoid fbase t0 t1 idx) size.

Lemma order_lt idx : idx ∈ order ↔ (idx < 2 ^ length size)%nat.
Proof. rewrite Hperm, elem_of_seq. lia. Qed.

Lemma elem_of_layer_visits t0 t1 p t :
  0 ≤ t0 → t1 < 2 ^ 31 → t1 - t0 ≤ h →
  (p, t) ∈ layer_visits t0 t1 ↔ t0 ≤ t < t1 ∧ in_grid size p.
Proof.
  intros Ht0 Ht1 Hh. unfold layer_visits. rewrite list_elem_of_bind. split.
  - intros (m & Hv & Hm). apply elem_of_plan_zoid in Hv as [Ht Hin]; try done.
    split; [done|]. eapply (in_zoid_grid size Hdims Hsize); [|done]. fold fbase h. lia.
  - intros [Ht Hp].
    destruct (in_zoid_cover size Hdims Hsize (t - t0) p) as (m & Hm & Hin); [fold fbase h; lia|done|].
    exists m. split; [|by apply order_lt]. by apply elem_of_plan_zoid.
Qed.

Lemma NoDup_layer_visits t0 t1 :
  0 ≤ t0 → t1 < 2 ^ 31 → t1 - t0 ≤ h → NoDup (layer_visits t0 t1).
Proof.
  intros Ht0 Ht1 Hh. unfold layer_visits. apply NoDup_bind.
  - intros m m' [p t] Hm Hm' Hv Hv'.
    apply elem_of_plan_zoid in Hv as [Ht Hin]; try done.
    apply elem_of_plan_zoid in Hv' as [_ Hin']; try done.
    apply order_lt in Hm, Hm'.
    eapply (in_zoid_unique size Hdims Hsize m m' (t - t0) p); try done. fold fbase h. lia.
  - intros m _. by apply NoDup_plan_zoid.
  - rewrite Hperm. apply NoDup_seq.
Qed.

(** a pattern with fewer 1-bits comes earlier in the order *)
Lemma order_before l1 m l2 m' :
  order = l1 ++ m :: l2 → (m' < 2 ^ length size)%nat →
  (popcount m' < popcount m)%nat → m' ∈ l1.
Proof.
  intros Heq Hm' Hpop. apply order_lt in Hm'. rewrite Heq in Hm'.
  apply elem_of_app in Hm' as [|Hin]; [done|]. exfalso.
  pose proof Hsorted as Hs. rewrite Heq in Hs.
  apply StronglySorted_app_1_r in Hs.
  apply elem_of_cons in Hin as [->|Hin]; [lia|].
  apply StronglySorted_inv in Hs as [_ Hall].
  eapply Forall_forall in Hall; [|exact Hin]. cbn in Hall. lia.
Qed.

Lemma synchronised_layer performed t0 t1 :
  0 ≤ t0 → t1 < 2 ^ 31 → t1 - t0 ≤ h →
  (0 < t0 → ∀ q, in_grid size q → (q, t0 - 1) ∈ performed) →
  synchronised (near size) performed (layer_visits t0 t1).
Proof.
  intros Ht0 Ht1 Hh Hprev. unfold layer_visits. apply synchronised_bind.
  intros l1 m l2 Heq.
  assert (Hm : (m < 2 ^ length size)%nat).
  { apply order_lt. rewrite Heq. apply elem_of_app. right. left. }
  apply synchronised_zoid; [done|done|].
  intros p t q Hv Hpos Hq.
  apply elem_of_plan_zoid in Hv as [Ht Hin]; try done.
  destruct (decide (t = t0)) as [->|Hne].
  - left. apply elem_of_app. right. apply Hprev; [done|]. by destruct Hq.
  - destruct (in_zoid_before size Hdims Hsize m (t - t0) p q) as (m' & Hm' & Hin' & Hsub);
      [fold fbase h; lia|done|done|].
    replace (t - t0 - 1) with (t - 1 - t0) in Hin' by lia.
    destruct (decide (m' = m)) as [->|Hmm].
    + right. apply elem_of_plan_zoid; try done. split; [lia|done].
    + left. apply elem_of_app. left. apply list_elem_of_bind. exists m'. split.
      * apply elem_of_plan_zoid; try done. split; [lia|done].
      * eapply order_before; [done|done|].
        by apply (popcount_subset (length size)).
Qed.


Context (steps : Z).
Context (Hsteps : 0 ≤ steps).
Context (Hmax : steps + h ≤ 2 ^ 31).

Lemma layer_count_bounds k :
  0 ≤ k < (steps + h - 1) `div` h →
  0 ≤ k * h ∧ k * h < steps ∧ Z.min (k * h + h) steps < 2 ^ 31 ∧
  Z.min (k * h + h) steps - k * h ≤ h.
Proof.
  intros Hk. destruct (height_bounds size Hdims Hsize) as [Hh _]. fold fbase h in Hh.
  pose proof (Z.div_mod (steps + h - 1) h ltac:(lia)).
  pose proof (Z.mod_pos_bound (steps + h - 1) h ltac:(lia)). nia.
Qed.

Lemma plan_visits_layers :
  plan_visits order size (PlanSpec.layers fbase steps) =
  k ← seqZ 0 ((steps + h - 1) `div` h); layer_visits (k * h) (Z.min (k * h + h) steps).
Proof.
  unfold plan_visits, PlanSpec.layers. fold h.
  generalize (seqZ 0 ((steps + h - 1) `div` h)). intros l.
  induction l as [|k l IH]; [done|].
  rewrite fmap_cons, !bind_cons, IH. f_equal.
  unfold layer_visits. apply bind_ext_in. intros idx Hidx. apply order_lt in Hidx.
  f_equal. apply list_lookup_total_correct. unfold PlanSpec.layer.
  rewrite list_lookup_fmap. unfold fbase. by rewrite full_length, lookup_seq_lt.
Qed.

Lemma elem_of_plan_visits p t :
  (p, t) ∈ plan_visits order size (PlanSpec.layers fbase steps) ↔
  0 ≤ t < steps ∧ in_grid size p.
Proof.
  rewrite plan_visits_layers, list_elem_of_bind.
  destruct (height_bounds size Hdims Hsize) as [Hh _]. fold fbase h in Hh. split.
  - intros (k & Hv & Hk). apply elem_of_seqZ in Hk.
    destruct (layer_count_bounds k ltac:(lia)) as (H1 & H2 & H3 & H4).
    apply elem_of_layer_visits in Hv as [Ht Hp]; try done. split; [lia|done].
  - intros [Ht Hp]. exists (t `div` h).
    pose proof (Z.div_mod (steps + h - 1) h ltac:(lia)).
    pose proof (Z.mod_pos_bound (steps + h - 1) h ltac:(lia)).
    pose proof (Z.div_mod t h ltac:(lia)).
    pose proof (Z.mod_pos_bound t h ltac:(lia)).
    assert (Hk : 0 ≤ t `div` h < (steps + h - 1) `div` h) by nia.
    destruct (layer_count_bounds _ Hk) as (H1' & H2' & H3' & H4').
    split; [|apply elem_of_seqZ; lia].
    apply elem_of_layer_visits; try done. split; [nia|done].
Qed.

Lemma NoDup_plan_visits : NoDup (plan_visits order size (PlanSpec.layers fbase steps)).
Proof.
  rewrite plan_visits_layers.
  destruct (height_bounds size Hdims Hsize) as [Hh _]. fold fbase h in Hh.
  apply NoDup_bind; [| |apply NoDup_seqZ].
  - intros k k' [p t] Hk Hk' Hv Hv'. apply elem_of_seqZ in Hk, Hk'.
    destruct (layer_count_bounds k ltac:(lia)) as (H1 & H2 & H3 & H4).
    destruct (layer_count_bounds k' ltac:(lia)) as (H1' & H2' & H3' & H4').
    apply elem_of_layer_visits in Hv as [Ht _]; try done.
    apply elem_of_layer_visits in Hv' as [Ht' _]; try done. nia.
  - intros k Hk. apply elem_of_seqZ in Hk.
    destruct (layer_count_bounds k ltac:(lia)) as (H1 & H2 & H3 & H4).
    by apply NoDup_layer_visits.
Qed.

(** the cells of the plan are the cells of all steps, each once *)
Lemma plan_visits_Permutation :
  plan_visits order size (PlanSpec.layers fbase steps) ≡ₚ all_visits size steps.
Proof.
  apply NoDup_Permutation; [apply NoDup_plan_visits|apply NoDup_all_visits|].
  intros [p t]. by rewrite elem_of_plan_visits, elem_of_all_visits.
Qed.

Lemma plan_visits_synchronised :
  synchronised (near size) [] (plan_visits order size (PlanSpec.layers fbase steps)).
Proof.
  rewrite plan_visits_layers.
  destruct (height_bounds size Hdims Hsize) as [Hh _]. fold fbase h in Hh.
  apply synchronised_bind. intros l1 k l2 Heq.
  pose proof Heq as Heq'. apply seqZ_split in Heq' as [-> Hk].
  destruct (layer_count_bounds k ltac:(lia)) as (H1 & H2 & H3 & H4).
  apply synchronised_layer; try done.
  intros Hpos q Hq. apply elem_of_app. left.
  apply list_elem_of_bind. exists (k - 1).
  assert (Hk' : 0 ≤ k - 1 < (steps + h - 1) `div` h) by nia.
  destruct (layer_count_bounds _ Hk') as (H1' & H2' & H3' & H4').
  split; [|apply elem_of_seqZ; lia].
  apply elem_of_layer_visits; try done. split; [nia|done].
Qed.

End plan_runs.

(** ** The implementations compute the sweeps *)





Lemma same_contents_refl {V : Type} (c : Container V) : same_contents c c.
Proof. by split. Qed.



Section correctness.
Context {V : Type} `{Inhabited V}.
Context (update : Update (V:=V)).
Context (a : Container V).







End correctness.

(** ** The coverage of the plan *)

(** X25: for a grid whose extents are all at least 2, [create] returns a
    plan, and the cells [forEach] visits on its zoids, in whatever order
    the zoids of a layer are taken, are the cells of all steps, each once *)
Theorem plan_coverage (size : list Z) (steps : Z) (order : list nat) (fuel : nat) :
  size ≠ [] → Forall (λ n, 2 ≤ n) size →
  0 ≤ steps → steps + PlanSpec.height (Base.full size) ≤ 2 ^ 31 →
  (Z.to_nat steps ≤ fuel)%nat →
  order ≡ₚ seq 0 (2 ^ length size) →
  ∃ plan, ExecutionPlan.create fuel (Base.full size) steps = Some plan ∧
          plan_visits order (Base.extend (Base.full size)) plan ≡ₚ all_visits size steps ∧
          NoDup (plan_visits order (Base.extend (Base.full size)) plan) ∧
          ∀ p t, (p, t) ∈ plan_visits order (Base.extend (Base.full size)) plan ↔
                 0 ≤ t < steps ∧ in_grid size p.
Proof.
  intros Hne Hsize Hs Hmax Hfuel Hperm.
  assert (Hdims : (0 < length size)%nat) by (destruct size; [done|cbn; lia]).
  destruct (height_bounds _ Hdims Hsize) as [Hh _].
  exists (PlanSpec.layers (Base.full size) steps).
  split; [apply create_layers; (done || lia)|].
  rewrite extend_full by done. split; [by apply plan_visits_Permutation|].
  split; [by apply NoDup_plan_visits|]. intros p t. by apply elem_of_plan_visits.
Qed.

Lemma plan_coverage_witness :
  ∃ plan, ExecutionPlan.create 3 (Base.full [4; 6]) 3 = Some plan ∧
          plan_visits [0; 1; 2; 3]%nat (Base.extend (Base.full [4; 6])) plan
            ≡ₚ all_visits [4; 6] 3.
Proof.
  destruct (plan_coverage [4; 6] 3 [0; 1; 2; 3]%nat 3) as (plan & Hc & Hp & _).
  - done.
  - repeat (apply Forall_cons; split; [lia|]). apply Forall_nil_2.
  - lia.
  - change (PlanSpec.height (Base.full [4; 6])) with 2. lia.
  - lia.
  - reflexivity.
  - by exists plan.
Defined.

(** C4 fails at the extent 1: the height of the layers is 0 and [create]
    returns no plan, whatever the fuel. *)
Theorem plan_of_extent_1 (fuel : nat) :
  ExecutionPlan.create fuel (Base.full [1]) 1 = None.
Proof.
  apply create_diverges; [reflexivity|lia].
Qed.

(** ** The recursive decomposition of a zoid *)

(** *** Ranges that wrap around at most once *)

(** a range the scanner walks without visiting an index twice: it starts in
    the window of the size or in the one after it, ends in one of the two,
    and is not longer than the size *)
Definition sane (L f t : Z) : Prop := 0 ≤ f ≤ t ∧ t ≤ 2 * L ∧ t - f ≤ L.

Lemma mod_window L x : 0 < L → L ≤ x < 2 * L → x `mod` L = x - L.
Proof.
  intros HL Hx. replace x with (x - L + 1 * L) at 1 by lia.
  rewrite Z_mod_plus_full. apply Z.mod_small. lia.
Qed.


Lemma elem_of_walk_sane L f t y :
  0 < L → sane L f t →
  y ∈ axis_walk (Range f t) L ↔ ∃ x, f ≤ x < t ∧ y = x `mod` L.
Proof.
  intros HL (Hf & Ht & Hw). rewrite elem_of_axis_walk. cbn [rbegin rend]. cbn zeta.
  case_decide as Hshift.
  - split.
    + intros [Hy|Hy]; [|lia]. exists (y + L). split; [lia|].
      rewrite mod_window by lia. lia.
    + intros (x & Hx & ->). left. rewrite mod_window by lia. lia.
  - split.
    + intros [Hy|Hy].
      * exists y. split; [lia|]. by rewrite Z.mod_small by lia.
      * exists (y + L). split; [lia|]. rewrite mod_window by lia. lia.
    + intros (x & Hx & ->). destruct (decide (x < L)).
      * left. rewrite Z.mod_small by lia. lia.
      * right. rewrite mod_window by lia. lia.
Qed.

Lemma NoDup_walk_sane L f t : 0 < L → sane L f t → NoDup (axis_walk (Range f t) L).
Proof.
  intros HL (Hf & Ht & Hw). apply NoDup_axis_walk. cbn [rbegin rend].
  case_decide; lia.
Qed.


(** *** The rows of a zoid *)

(** the range of the dimension [i] of the plain of a zoid after [τ] steps *)
Definition row_range (z : Zoid) (τ : Z) (i : nat) : range :=
  Range (rbegin (base z !!! i) + slopes z !!! i * τ)
        (rend (base z !!! i) - slopes z !!! i * τ).


Lemma row_base_length z τ : length (row_base z τ) = length (base z).
Proof. unfold row_base. by rewrite length_imap. Qed.







(** *** Zoids inside a zoid of the plan *)





Section decomposition.
Context (size : list Z).
Context (Hdims : (0 < length size)%nat).
Context (Hsize : Forall (λ n, 2 ≤ n < 2 ^ 31) size).
Context (T0 T1 : Z).
Context (HT0 : 0 ≤ T0).
Context (HT1 : T1 < 2 ^ 31).

(** the rows of the zoid of the plan, as ranges that are not reduced
    modulo the extents *)
Context (lo hi : Z → nat → Z).
Context (Henv : ∀ t i L, T0 ≤ t < T1 → size !! i = Some L →
           0 ≤ lo t i ∧ lo t i ≤ hi t i ∧ hi t i ≤ 2 * L ∧ hi t i - lo t i ≤ L).
Context (Hadj : ∀ t i L, T0 < t < T1 → size !! i = Some L →
           hi (t - 1) i - lo t i ≤ L - 1 ∧ hi t i - lo (t - 1) i ≤ L - 1).

(** a zoid whose rows are parts of the rows of the zoid of the plan *)
Record fits (z : Zoid) : Prop := MkFits {
  fits_base : length (base z) = length size;
  fits_slopes : length (slopes z) = length size;
  fits_unit : ∀ i, (i < length size)%nat → slopes z !!! i = -1 ∨ slopes z !!! i = 1;
  fits_time : T0 ≤ t_begin z ∧ t_begin z ≤ t_end z ∧ t_end z ≤ T1;
  fits_rows : ∀ τ i, 0 ≤ τ < t_end z - t_begin z → (i < length size)%nat →
    lo (t_begin z + τ) i ≤ rbegin (row_range z τ i) ∧
    rbegin (row_range z τ i) ≤ rend (row_range z τ i) ∧
    rend (row_range z τ i) ≤ hi (t_begin z + τ) i
}.








(** **** The split in time *)







(** **** The split in space *)

Lemma row_range_eq z τ i r s :
  base z !! i = Some r → slopes z !! i = Some s →
  row_range z τ i = Range (rbegin r + s * τ) (rend r - s * τ).
Proof.
  intros Hb Hs. unfold row_range.
  by rewrite (list_lookup_total_correct _ _ _ Hb), (list_lookup_total_correct _ _ _ Hs).
Qed.







(** **** What a zoid relies on *)






(** **** The cells of the parts *)



(** **** The runs of a decomposition *)









End decomposition.

(** ** The task graph of [runParallel] *)

(** *** The dependencies between the tasks of a layer *)

(** the index [taskIdx & ~(1<<pos)] *)
Definition clear_bit (m j : nat) : nat :=
  Z.to_nat (Z.land (Z.of_nat m) (Z.lnot (Z.shiftl 1 (Z.of_nat j)))).

Lemma clear_bit_spec m j :
  Z.testbit (Z.of_nat m) (Z.of_nat j) = true →
  Z.of_nat (clear_bit m j) = Z.of_nat m - 2 ^ Z.of_nat j ∧
  ∀ i, Z.testbit (Z.of_nat (clear_bit m j)) (Z.of_nat i) =
       Z.testbit (Z.of_nat m) (Z.of_nat i) && bool_decide (i ≠ j).
Proof.
  intros Hbit. unfold clear_bit. rewrite Z.shiftl_1_l, <- Z.ldiff_land.
  assert (Hnn : 0 ≤ Z.ldiff (Z.of_nat m) (2 ^ Z.of_nat j)).
  { rewrite Z.ldiff_land. apply Z.land_nonneg. left. lia. }
  rewrite Z2Nat.id by done. split.
  - symmetry. apply Z.sub_nocarry_ldiff. apply Z.bits_inj'. intros i Hi.
    rewrite Z.ldiff_spec, Z.bits_0, Z.pow2_bits_eqb by lia.
    destruct (Z.eqb_spec (Z.of_nat j) i) as [<-|]; [by rewrite Hbit|done].
  - intros i. rewrite Z.ldiff_spec, Z.pow2_bits_eqb by lia. f_equal.
    destruct (Z.eqb_spec (Z.of_nat j) (Z.of_nat i)) as [Heq|Hne].
    + by rewrite bool_decide_eq_false_2 by lia.
    + by rewrite bool_decide_eq_true_2 by lia.
Qed.


(** the bits of [m'] are bits of [m] *)
Definition subset_bits (n m' m : nat) : Prop :=
  ∀ i, (i < n)%nat → Z.testbit (Z.of_nat m') (Z.of_nat i) = true →
       Z.testbit (Z.of_nat m) (Z.of_nat i) = true.



(** *** The tasks of a plan *)

Section plan_tasks.
Context (size : list Z).
Context (Hdims : (0 < length size)%nat).
Context (Hsize : Forall (λ n, 2 ≤ n < 2 ^ 31) size).

Let fbase : list range := Base.full size.
Let h : Z := PlanSpec.height fbase.

Lemma size_2 : Forall (λ n, 2 ≤ n) size.
Proof. eapply Forall_impl; [exact Hsize|]. cbn. lia. Qed.

Lemma plan_zoid_row_range t0 t1 m τ i L :
  size !! i = Some L →
  row_range (PlanSpec.zoid fbase t0 t1 m) τ i =
  if Z.testbit (Z.of_nat m) (Z.of_nat i)
  then Range (PlanSpec.mid fbase i - τ) (L + τ)
  else Range τ (PlanSpec.mid fbase i - τ).
Proof.
  intros Hi. pose proof (lookup_lt_Some _ _ _ Hi) as Hlt.
  assert (Hlen : length fbase = length size) by apply full_length.
  rewrite (row_range_eq _ τ i
             (if Z.testbit (Z.of_nat m) (Z.of_nat i)
              then PlanSpec.right fbase i else PlanSpec.left fbase i)
             (if Z.testbit (Z.of_nat m) (Z.of_nat i) then -1 else 1)).
  - assert (Hw : Base.getWidth fbase i = L) by apply (full_getWidth size Hdims i L Hi).
    unfold PlanSpec.right, PlanSpec.left. rewrite Hw.
    destruct (Z.testbit (Z.of_nat m) (Z.of_nat i)); cbn [rbegin rend]; f_equal; lia.
  - unfold PlanSpec.zoid. cbn [base].
    by rewrite list_lookup_fmap, Hlen, lookup_seq_lt.
  - unfold PlanSpec.zoid. cbn [slopes].
    by rewrite list_lookup_fmap, Hlen, lookup_seq_lt.
Qed.

(** the zoid of a plan fits in its own rows *)
Lemma plan_zoid_fits t0 t1 m :
  0 ≤ t0 → t0 ≤ t1 → t1 < 2 ^ 31 → t1 - t0 ≤ h →
  let z := PlanSpec.zoid fbase t0 t1 m in
  let lo := λ t i, rbegin (row_range z (t - t0) i) in
  let hi := λ t i, rend (row_range z (t - t0) i) in
  (∀ t i L, t0 ≤ t < t1 → size !! i = Some L →
     0 ≤ lo t i ∧ lo t i ≤ hi t i ∧ hi t i ≤ 2 * L ∧ hi t i - lo t i ≤ L) ∧
  (∀ t i L, t0 < t < t1 → size !! i = Some L →
     hi (t - 1) i - lo t i ≤ L - 1 ∧ hi t i - lo (t - 1) i ≤ L - 1) ∧
  fits size t0 t1 lo hi z.
Proof.
  intros Ht0 Ht01 Ht1 Hh z lo hi.
  assert (Hrow : ∀ τ i L, size !! i = Some L → 0 ≤ τ < h →
            2 * h ≤ PlanSpec.mid fbase i ≤ L ∧
            row_range z τ i =
            if Z.testbit (Z.of_nat m) (Z.of_nat i)
            then Range (PlanSpec.mid fbase i - τ) (L + τ)
            else Range τ (PlanSpec.mid fbase i - τ)).
  { intros τ i L Hi Hτ. split; [by apply (mid_bounds size Hdims size_2)|].
    by apply plan_zoid_row_range. }
  assert (Henv : ∀ t i L, t0 ≤ t < t1 → size !! i = Some L →
     0 ≤ lo t i ∧ lo t i ≤ hi t i ∧ hi t i ≤ 2 * L ∧ hi t i - lo t i ≤ L).
  { intros t i L Ht Hi. unfold lo, hi.
    destruct (Hrow (t - t0) i L Hi ltac:(lia)) as [Hmid ->].
    destruct (Z.testbit (Z.of_nat m) (Z.of_nat i)); cbn [rbegin rend]; lia. }
  split; [done|]. split.
  - intros t i L Ht Hi. unfold lo, hi.
    destruct (Hrow (t - t0) i L Hi ltac:(lia)) as [Hmid ->].
    destruct (Hrow (t - 1 - t0) i L Hi ltac:(lia)) as [_ ->].
    destruct (Z.testbit (Z.of_nat m) (Z.of_nat i)); cbn [rbegin rend]; lia.
  - assert (Hlen : length fbase = length size) by apply full_length.
    split.
    + unfold z, PlanSpec.zoid. cbn [base]. by rewrite length_fmap, length_seq.
    + unfold z, PlanSpec.zoid. cbn [slopes]. by rewrite length_fmap, length_seq.
    + intros i Hi. unfold z, PlanSpec.zoid. cbn [slopes].
      erewrite list_lookup_total_correct;
        [|by rewrite list_lookup_fmap, Hlen, lookup_seq_lt].
      cbn. destruct (Z.testbit (Z.of_nat m) (Z.of_nat i)); lia.
    + cbn. lia.
    + cbn [z PlanSpec.zoid t_begin t_end]. intros τ i Hτ Hi.
      destruct (lookup_lt_is_Some_2 size i Hi) as [L HL].
      destruct (Henv (t0 + τ) i L ltac:(lia) HL) as (E1 & E2 & E3 & E4).
      unfold lo, hi in *. replace (t0 + τ - t0) with τ in * by lia. fold z. lia.
Qed.


End plan_tasks.


Lemma full_lt n : (2 ^ n - 1 < 2 ^ n)%nat.
Proof.
  assert (2 ^ n ≠ 0)%nat by (apply Nat.pow_nonzero; lia). lia.
Qed.



(** *** The runs of the task graph *)

Section task_graph.
Context (size : list Z).
Context (Hdims : (0 < length size)%nat).
Context (Hsize : Forall (λ n, 2 ≤ n < 2 ^ 31) size).
Context (steps : Z).
Context (Hsteps : 0 ≤ steps).
Context (Hmax : steps + PlanSpec.height (Base.full size) ≤ 2 ^ 31).

Let fbase : list range := Base.full size.
Let h : Z := PlanSpec.height fbase.
Let n : Z := (steps + h - 1) `div` h.

(** the zoid of the task [idx] of the layer [k] *)
Definition task_zoid (id : nat * nat) : Zoid :=
  PlanSpec.zoid (Base.full size)
    (Z.of_nat (fst id) * PlanSpec.height (Base.full size))
    (Z.min (Z.of_nat (fst id) * PlanSpec.height (Base.full size)
            + PlanSpec.height (Base.full size)) steps)
    (snd id).


Definition valid_task (id : nat * nat) : Prop :=
  Z.of_nat (fst id) < (steps + PlanSpec.height (Base.full size) - 1)
                        `div` PlanSpec.height (Base.full size) ∧
  (snd id < 2 ^ length size)%nat.

Lemma h_pos : 1 ≤ h.
Proof. by destruct (height_bounds size Hdims (size_2 size Hdims Hsize)). Qed.

Lemma layers_lookup k cur idx z :
  PlanSpec.layers fbase steps !! k = Some cur → cur !! idx = Some z →
  valid_task (k, idx) ∧ z = task_zoid (k, idx).
Proof.
  unfold PlanSpec.layers. rewrite list_lookup_fmap. fold h. fold n. intros Hk Hidx.
  destruct (seqZ 0 n !! k) as [x|] eqn:Hx; [|done].
  apply lookup_seqZ in Hx as [-> Hx]. cbn in Hk. simplify_eq.
  unfold PlanSpec.layer in Hidx. rewrite list_lookup_fmap in Hidx.
  destruct (seq 0 (2 ^ length fbase) !! idx) as [y|] eqn:Hy; [|done].
  apply lookup_seq in Hy as [-> Hy]. cbn in Hidx. simplify_eq.
  unfold fbase in Hy. rewrite full_length in Hy.
  split; [split; [exact Hx|exact Hy]|]. unfold task_zoid. cbn [fst snd]. reflexivity.
Qed.

Lemma task_bounds id :
  valid_task id →
  let t0 := Z.of_nat (fst id) * h in
  let t1 := Z.min (t0 + h) steps in
  0 ≤ t0 ∧ t0 < t1 ∧ t1 < 2 ^ 31 ∧ t1 - t0 ≤ h ∧ t1 ≤ steps.
Proof.
  intros [Hk _] t0 t1. fold fbase h in Hk. pose proof h_pos as Hh.
  pose proof (Z.div_mod (steps + h - 1) h ltac:(lia)).
  pose proof (Z.mod_pos_bound (steps + h - 1) h ltac:(lia)).
  unfold t1, t0. fold fbase h in Hmax. nia.
Qed.














End task_graph.

(** ** The five implementations agree *)

Section agreement.
Context {V : Type} `{Inhabited V}.
Context (update : Update (V:=V)).
Context (a : Container V).




End agreement.












(** ** Composition *)


Section composition.
Context {V : Type} `{Inhabited V}.
Context (update : Update (V:=V)).
Context (a : Container V).





End composition.




(** * The bases *)

(** the product of the widths of the ranges *)
Definition widths_product (b : list range) : Z :=
  foldr (λ r acc, (rend r - rbegin r) * acc) 1 b.

Lemma size_from_spec res (b : list range) :
  to_size_t (Base.size_from res b) =
  if decide (Exists (λ r, rend r ≤ rbegin r) b) then 0
  else to_size_t (res * widths_product b).
Proof.
  revert res. induction b as [|cur rest IH]; intros res; cbn [Base.size_from widths_product foldr].
  - rewrite decide_False by (by intros ?%Exists_nil). by rewrite Z.mul_1_r.
  - destruct (decide (rend cur ≤ rbegin cur)) as [Hc|Hc].
    + rewrite decide_True by (by left). done.
    + rewrite IH. fold (widths_product rest).
      destruct (decide (Exists (λ r, rend r ≤ rbegin r) rest)) as [He|He].
      * rewrite decide_True by (by right). done.
      * rewrite decide_False by (intros [?|?]%Exists_cons; done).
        unfold to_size_t. rewrite Zmult_mod_idemp_l. f_equal. lia.
Qed.

Lemma size_from_range res (b : list range) :
  0 ≤ res < 2 ^ 64 → 0 ≤ Base.size_from res b < 2 ^ 64.
Proof.
  revert res. induction b as [|cur rest IH]; intros res Hres; cbn [Base.size_from]; [done|].
  case_decide; [lia|]. apply IH. unfold to_size_t. apply Z.mod_pos_bound. lia.
Qed.

Lemma size_product (b : list range) :
  Base.size b =
    if decide (Exists (λ r, rend r ≤ rbegin r) b) then 0
    else widths_product b `mod` 2 ^ 64.
Proof.
  unfold Base.size. rewrite <- (to_size_t_small (Base.size_from 1 b))
    by (apply size_from_range; lia).
  rewrite size_from_spec. case_decide; [done|]. unfold to_size_t. f_equal. lia.
Qed.

(** X1: [Base::size()] is 0 when one of the ranges is empty, also when the
    ranges before it are not, and the product of the widths modulo [2^64]
    otherwise; [Base::empty()] holds of a base with an empty range, and of
    one whose product of widths is a multiple of [2^64]. *)
Theorem base_size_spec (b : list range) :
  Base.size b =
    (if decide (Exists (λ r, rend r ≤ rbegin r) b) then 0
     else widths_product b `mod` 2 ^ 64) ∧
  (Base.empty b = true ↔
   Exists (λ r, rend r ≤ rbegin r) b ∨ widths_product b `mod` 2 ^ 64 = 0).
Proof.
  split; [apply size_product|]. unfold Base.empty.
  rewrite bool_decide_eq_true, size_product.
  case_decide; [tauto|]. tauto.
Qed.

(** X2: [extend] of [full(size)] is [size]: the base of a container has the
    extents of the container, and its ranges start at 0. *)
Theorem extend_full_round_trip (size : list Z) :
  Base.extend (Base.full size) = size ∧
  Forall (λ r, rbegin r = 0) (Base.full size).
Proof.
  split.
  - unfold Base.extend, Base.full. apply list_eq. intros i.
    rewrite list_lookup_fmap, length_fmap.
    destruct (size !! i) as [L|] eqn:Hi.
    + rewrite lookup_seq_lt by (by eapply lookup_lt_Some). cbn.
      unfold Base.getWidth.
      erewrite list_lookup_total_correct; [|by rewrite list_lookup_fmap, Hi].
      cbn. f_equal. lia.
    + by rewrite lookup_seq_ge by (by apply lookup_ge_None).
  - unfold Base.full. apply Forall_fmap, Forall_forall. done.
Qed.

Lemma translate_length b other : length (Base.translate b other) = length b.
Proof. unfold Base.translate. by rewrite length_fmap, length_seq. Qed.

Lemma translate_lookup b other i r :
  b !! i = Some r →
  Base.translate b other !! i =
  Some (Range (rbegin r + other !!! i) (rend r + other !!! i)).
Proof.
  intros Hi. unfold Base.translate.
  rewrite list_lookup_fmap, lookup_seq_lt by (by eapply lookup_lt_Some). cbn.
  by rewrite (list_lookup_total_correct _ _ _ Hi).
Qed.

Lemma translate_getWidth b other i :
  Base.getWidth (Base.translate b other) i = Base.getWidth b i.
Proof.
  unfold Base.getWidth. destruct (b !! i) as [r|] eqn:Hi.
  - rewrite (list_lookup_total_correct _ _ _ (translate_lookup b other i r Hi)),
      (list_lookup_total_correct _ _ _ Hi). cbn. lia.
  - rewrite !list_lookup_total_alt, Hi.
    assert (Hnone : Base.translate b other !! i = None).
    { apply lookup_ge_None. rewrite translate_length. by apply lookup_ge_None. }
    by rewrite Hnone.
Qed.

Lemma size_from_widths res (b b' : list range) :
  (λ r, rend r - rbegin r) <$> b = (λ r, rend r - rbegin r) <$> b' →
  Base.size_from res b = Base.size_from res b'.
Proof.
  revert res b'. induction b as [|cur rest IH]; intros res [|cur' rest'] Heq;
    try done. cbn in Heq. injection Heq as Hw Hrest. cbn [Base.size_from].
  rewrite Hw. destruct (decide (rend cur ≤ rbegin cur)), (decide (rend cur' ≤ rbegin cur'));
    try lia. by apply IH.
Qed.

(** X3: [operator+] moves a base without changing its shape: the extents,
    the size, and the minimum and the maximum width are those of the base. *)
Theorem translate_shape (b : list range) (other : list Z) :
  Base.extend (Base.translate b other) = Base.extend b ∧
  Base.size (Base.translate b other) = Base.size b ∧
  Base.empty (Base.translate b other) = Base.empty b ∧
  Base.getMinimumWidth (Base.translate b other) = Base.getMinimumWidth b ∧
  Base.getMaximumWidth (Base.translate b other) = Base.getMaximumWidth b.
Proof.
  assert (Hsize : Base.size (Base.translate b other) = Base.size b).
  { apply size_from_widths. apply list_eq. intros i. rewrite !list_lookup_fmap.
    destruct (b !! i) as [r|] eqn:Hi.
    - rewrite (translate_lookup b other i r Hi). cbn. f_equal. lia.
    - assert (Hnone : Base.translate b other !! i = None).
      { apply lookup_ge_None. rewrite translate_length. by apply lookup_ge_None. }
      by rewrite Hnone. }
  split; [|split; [done|split; [|split]]].
  - unfold Base.extend. rewrite translate_length.
    apply list_fmap_ext. intros _ i _. apply translate_getWidth.
  - unfold Base.empty. by rewrite Hsize.
  - unfold Base.getMinimumWidth. rewrite translate_length, translate_getWidth.
    apply foldl_ext_in. intros res i _. by rewrite translate_getWidth.
  - unfold Base.getMaximumWidth. rewrite translate_length, translate_getWidth.
    apply foldl_ext_in. intros res i _. by rewrite translate_getWidth.
Qed.

(** X4: translations compose: moving a base by [o1] and then by [o2] moves
    it by the sum of the two, and moving it by 0 leaves it as it is. *)
Theorem translate_compose (b : list range) (o1 o2 : list Z) :
  Base.translate (Base.translate b o1) o2 =
    Base.translate b ((λ i, o1 !!! i + o2 !!! i) <$> seq 0 (length b)) ∧
  Base.translate b (replicate (length b) 0) = b.
Proof.
  split.
  - apply list_eq. intros i. destruct (b !! i) as [r|] eqn:Hi.
    + pose proof (lookup_lt_Some _ _ _ Hi) as Hlt.
      rewrite (translate_lookup _ o2 i _ (translate_lookup b o1 i r Hi)).
      rewrite (translate_lookup b _ i r Hi). cbn [rbegin rend].
      erewrite (list_lookup_total_correct (_ <$> seq 0 (length b)));
        [|by rewrite list_lookup_fmap, lookup_seq_lt].
      cbn. do 2 f_equal; lia.
    + pose proof (proj1 (lookup_ge_None _ _) Hi) as Hge.
      transitivity (@None range); [|symmetry]; apply lookup_ge_None;
        rewrite !translate_length; done.
  - apply list_eq. intros i. destruct (b !! i) as [[f t]|] eqn:Hi.
    + pose proof (lookup_lt_Some _ _ _ Hi) as Hlt.
      rewrite (translate_lookup b _ i _ Hi). cbn [rbegin rend].
      rewrite (list_lookup_total_correct _ _ _ (lookup_replicate_2 _ _ _ Hlt)).
      do 2 f_equal; lia.
    + apply lookup_ge_None. rewrite translate_length. by apply lookup_ge_None.
Qed.

(** X5: the minimum and the maximum width of a base are widths of the base,
    and the width of every dimension lies between them. *)
Theorem width_bounds (b : list range) (i : nat) :
  (i < length b)%nat →
  Base.getMinimumWidth b ≤ Base.getWidth b i ≤ Base.getMaximumWidth b ∧
  (∃ j, (j < length b)%nat ∧ Base.getWidth b j = Base.getMinimumWidth b) ∧
  (∃ j, (j < length b)%nat ∧ Base.getWidth b j = Base.getMaximumWidth b).
Proof.
  intros Hi. assert (Hlen : (0 < length b)%nat) by lia.
  destruct (getMinimumWidth_spec b Hlen) as [Hmin Hmin'].
  destruct (getMaximumWidth_spec b Hlen) as [Hmax Hmax'].
  split; [split; [by apply Hmin'|by apply Hmax']|]. by split.
Qed.

Lemma width_bounds_witness :
  Base.getMinimumWidth [Range 0 4; Range 2 9; Range 1 3] ≤ 7 ≤
  Base.getMaximumWidth [Range 0 4; Range 2 9; Range 1 3].
Proof.
  destruct (width_bounds [Range 0 4; Range 2 9; Range 1 3] 1) as [Hb _]; [cbn; lia|].
  exact Hb.
Defined.

(** * The plain scanner and [forEach] *)

Lemma length_axis_walk_sane L f t :
  sane L f t → length (axis_walk (Range f t) L) = Z.to_nat (t - f).
Proof.
  intros (Hf & Ht & Hw). unfold axis_walk. cbn [rbegin rend].
  rewrite length_app, length_seqZ.
  repeat case_decide; rewrite ?length_seqZ; cbn [length]; lia.
Qed.

Lemma length_product ls :
  length (product ls) = foldr (λ l acc, (length l * acc)%nat) 1%nat ls.
Proof.
  induction ls as [|l ls IH]; [done|]. cbn [product foldr]. rewrite <- IH.
  generalize (product ls). intros ps.
  induction l as [|x l IHl]; [done|].
  rewrite bind_cons, length_app, length_fmap, IHl. cbn [length]. lia.
Qed.

Lemma scanner_record dim full_dim base pos t size :
  plain_scanner dim full_dim base record_visit pos t size [] =
  (λ p, (p, t)) <$> scan dim full_dim base pos size.
Proof.
  rewrite plain_scanner_scan.
  pose proof (foldl_record ((λ p, (p, t)) <$> scan dim full_dim base pos size) []) as Hrec.
  rewrite foldl_fmap in Hrec. exact Hrec.
Qed.

Lemma walks_sane (base : list range) (size : list Z) :
  Forall2 (λ r L, 0 < L ∧ sane L (rbegin r) (rend r)) base size →
  Forall NoDup (walks base size) ∧
  Z.of_nat (foldr (λ l acc, (length l * acc)%nat) 1%nat (walks base size))
    = widths_product base.
Proof.
  induction 1 as [|[f t] L base size [HL Hs] _ [IH1 IH2]]; [done|].
  unfold walks in *. cbn [zip_with foldr widths_product]. split.
  - apply Forall_cons. split; [by apply NoDup_walk_sane|done].
  - rewrite Nat2Z.inj_mul, IH2, length_axis_walk_sane by done.
    cbn [rbegin rend] in *. destruct Hs as (? & ? & ?). fold (widths_product base).
    rewrite Z2Nat.id by lia. done.
Qed.

(** X6: on a base whose ranges start in the window of the size or in the
    one after it, end in one of the two and are not longer than the size,
    the scanner calls [lambda] once for every position whose indices are
    those of the ranges modulo the sizes, all of them positions of the
    container, every time with the time [t]. *)
Theorem scanner_visits (dims : nat) (base : list range) (size pos : list Z) (t : Z) :
  (0 < dims)%nat → length base = dims → length pos = dims →
  Forall2 (λ r L, 0 < L ∧ sane L (rbegin r) (rend r)) base size →
  let calls := plain_scanner (dims - 1) dims base record_visit pos t size [] in
  NoDup calls ∧
  (∀ p t', (p, t') ∈ calls → t' = t ∧ in_grid size p) ∧
  (∀ p, (p, t) ∈ calls ↔
        Forall2 (λ y rL, ∃ x, rbegin (fst rL) ≤ x < rend (fst rL) ∧ y = x `mod` snd rL)
                p (zip base size)).
Proof.
  intros Hdims Hbase Hpos Hsane calls.
  pose proof (Forall2_length _ _ _ Hsane) as Hlen.
  assert (Hcalls : calls = (λ p, (p, t)) <$> product (walks base size)).
  { unfold calls. rewrite scanner_record, scan_product by lia. done. }
  assert (Hmem : ∀ p, p ∈ product (walks base size) ↔
            Forall2 (λ y rL, ∃ x, rbegin (fst rL) ≤ x < rend (fst rL) ∧ y = x `mod` snd rL)
                    p (zip base size)).
  { clear -Hsane.
    induction Hsane as [|[f u] L base size [HL Hs] _ IH]; intros p; rewrite elem_of_product.
    - cbn. split; inversion 1; constructor.
    - unfold walks in *. cbn [zip_with zip]. split.
      + intros Hp. inversion Hp as [|w y ws p' Hy Hp']; subst.
        constructor; [by apply elem_of_walk_sane in Hy|by apply IH, elem_of_product].
      + intros Hp. inversion Hp as [|y rL p' rLs Hy Hp']; subst.
        constructor; [by apply elem_of_walk_sane|by apply elem_of_product, IH]. }
  rewrite Hcalls. split; [|split].
  - apply NoDup_fmap_2; [by intros ?? [=]|]. apply NoDup_product.
    by destruct (walks_sane base size Hsane).
  - intros p t' Hin. apply list_elem_of_fmap in Hin as (q & [= -> ->] & Hp).
    split; [done|]. apply Hmem in Hp. clear -Hp Hsane. unfold in_grid.
    revert q Hp. induction Hsane as [|[f u] L base size [HL Hs] _ IH]; intros p Hp.
    + inversion Hp. constructor.
    + cbn [zip zip_with] in Hp. inversion Hp as [|y rL p' rLs (x & _ & ->) Hp']; subst.
      constructor; [|by apply IH]. cbn. apply Z.mod_pos_bound. done.
  - intros p. rewrite <- Hmem. rewrite list_elem_of_fmap. split.
    + by intros (p' & [= ->] & Hp).
    + intros Hp. by exists p.
Qed.

Lemma scanner_visits_witness :
  NoDup (plain_scanner 1 2 [Range 3 6; Range 0 2] record_visit [0; 0] 7 [4; 2] []).
Proof.
  destruct (scanner_visits 2 [Range 3 6; Range 0 2] [4; 2] [0; 0] 7) as [Hnd _];
    [lia|done|done| |exact Hnd].
  repeat constructor; cbn; lia.
Defined.

(** X7: on such a base the number of calls of [lambda] is the product of
    the widths of the ranges; it is [Base::size()] when the product is
    below [2^64]. *)
Theorem scanner_count (dims : nat) (base : list range) (size pos : list Z) (t : Z) :
  (0 < dims)%nat → length base = dims → length pos = dims →
  Forall2 (λ r L, 0 < L ∧ sane L (rbegin r) (rend r)) base size →
  let calls := plain_scanner (dims - 1) dims base record_visit pos t size [] in
  Z.of_nat (length calls) = widths_product base ∧
  (widths_product base < 2 ^ 64 → Z.of_nat (length calls) = Base.size base).
Proof.
  intros Hdims Hbase Hpos Hsane calls.
  pose proof (Forall2_length _ _ _ Hsane) as Hlen.
  assert (Hcount : Z.of_nat (length calls) = widths_product base).
  { unfold calls. rewrite scanner_record, scan_product by lia.
    rewrite length_fmap, length_product. by destruct (walks_sane base size Hsane). }
  split; [done|]. intros Hsmall. rewrite Hcount.
  rewrite size_product.
  assert (Hnn : 0 ≤ widths_product base) by lia.
  case_decide as Hex; [|by rewrite Z.mod_small by lia].
  clear -Hex Hsane. induction Hsane as [|[f u] L base size [HL Hs] _ IH];
    [by apply Exists_nil in Hex|].
  cbn [widths_product foldr]. fold (widths_product base).
  apply Exists_cons in Hex as [Hex|Hex].
  - cbn in *. destruct Hs as (? & ? & ?). replace (u - f) with 0 by lia. lia.
  - rewrite IH by done. lia.
Qed.

Lemma scanner_count_witness :
  Z.of_nat (length (plain_scanner 1 2 [Range 3 6; Range 0 2] record_visit [0; 0] 7 [4; 2] []))
  = 6.
Proof.
  destruct (scanner_count 2 [Range 3 6; Range 0 2] [4; 2] [0; 0] 7) as [Hc _];
    [lia|done|done| |exact Hc].
  repeat constructor; cbn; lia.
Defined.

(** X8: the scanner wraps around once only: for a range that starts in the
    window of the size and ends beyond the window after it, it calls
    [lambda] with the index [length], which is not an index of the
    container. *)
Theorem scanner_beyond (f u L t : Z) :
  0 ≤ f ≤ L → 2 * L < u →
  ([L], t) ∈ scan_row (Range f u) L t ∧ ¬ in_grid [L] [L].
Proof.
  intros Hf Hu. split.
  - rewrite scan_row_walk. apply list_elem_of_fmap. exists L. split; [done|].
    apply elem_of_axis_walk. cbn [rbegin rend]. rewrite !decide_False by lia. lia.
  - unfold in_grid. intros Hg. apply Forall2_cons in Hg as [Hg _]. lia.
Qed.

Lemma scanner_beyond_witness : ([4], 0) ∈ scan_row (Range 1 9) 4 0.
Proof. apply (scanner_beyond 1 9 4 0); lia. Defined.

Lemma odd_to_int t : Z.odd (to_int t) = Z.odd t.
Proof. by rewrite <- !land_1_odd, to_int_land_1. Qed.

Lemma forEach_fold {S : Type} (z : Zoid) (ev od : list Z → Z → S → S)
    (limits : list Z) (s : S) :
  Zoid.forEach z ev od limits s =
  foldl (λ s v, if Z.odd (snd v) then od (fst v) (snd v) s else ev (fst v) (snd v) s)
        s (visits z limits).
Proof.
  rewrite visits_rows, forEach_rows. unfold visit_rows.
  rewrite foldl_bind. apply foldl_ext_in. intros st' t _.
  rewrite plain_scanner_scan, foldl_fmap. apply foldl_ext_in. intros st'' p _.
  cbn [fst snd]. rewrite odd_to_int, land_1_odd. by destruct (Z.odd t).
Qed.

(** X9: [forEach] calls its handlers for the same positions and times, in
    the same order, whatever the handlers are: [odd] where the time is odd
    and [even] where it is even, never the other one. *)
Theorem forEach_dispatch {S : Type} (z : Zoid) (ev od : list Z → Z → S → S)
    (limits : list Z) (s : S) :
  Zoid.forEach z ev od limits s =
  foldl (λ s v, if Z.odd (snd v) then od (fst v) (snd v) s else ev (fst v) (snd v) s)
        s (visits z limits).
Proof. apply forEach_fold. Qed.

Lemma StronglySorted_bind {A B : Type} (Q : relation A) (R : relation B)
    (f : A → list B) (l : list A) :
  StronglySorted Q l →
  (∀ x, x ∈ l → StronglySorted R (f x)) →
  (∀ x y u v, x ∈ l → y ∈ l → Q x y → u ∈ f x → v ∈ f y → R u v) →
  StronglySorted R (l ≫= f).
Proof.
  intros Hl Hf HQ. induction Hl as [|x l Hl IH Hx]; [constructor|].
  rewrite bind_cons. apply StronglySorted_app_2.
  - intros u v Hu Hv. apply list_elem_of_bind in Hv as (y & Hv & Hy).
    eapply Forall_forall in Hx; [|exact Hy].
    apply (HQ x y); [left|by right|done|done|done].
  - apply Hf. left.
  - apply IH.
    + intros y Hy. apply Hf. by right.
    + intros y y' u v Hy Hy'. apply HQ; by right.
Qed.

Lemma StronglySorted_const {A B : Type} (R : relation B) (f : A → B) (l : list A) :
  (∀ x y, R (f x) (f y)) → StronglySorted R (f <$> l).
Proof.
  intros HR. induction l as [|x l IH]; [constructor|]. cbn. constructor; [done|].
  apply Forall_fmap, Forall_forall. intros y _. apply HR.
Qed.

Lemma StronglySorted_seqZ m n : StronglySorted Z.lt (seqZ m n).
Proof.
  destruct (decide (0 ≤ n)) as [Hn|Hn]; [|rewrite seqZ_nil by lia; constructor].
  rewrite <- (Z2Nat.id n) by done. generalize (Z.to_nat n). clear. intros k. revert m.
  induction k as [|k IH]; intros m; [constructor|].
  rewrite seqZ_cons by lia. constructor.
  - replace (Z.pred (Z.of_nat (S k))) with (Z.of_nat k) by lia. apply IH.
  - apply Forall_forall. intros x Hx. apply elem_of_seqZ in Hx. lia.
Qed.

(** X10: [forEach] visits the plains in the order of the time: the times of
    its calls never decrease, and they are times of the zoid.  A zoid whose
    end time is not after its start time is not visited. *)
Theorem forEach_times (z : Zoid) (limits : list Z) :
  0 ≤ t_begin z → t_end z < 2 ^ 31 →
  StronglySorted (λ v w, snd v ≤ snd w) (visits z limits) ∧
  (∀ p t, (p, t) ∈ visits z limits → t_begin z ≤ t < t_end z) ∧
  (t_end z ≤ t_begin z → visits z limits = []).
Proof.
  intros Hb He. split; [|split].
  - rewrite visits_rows. unfold visit_rows.
    apply (StronglySorted_bind Z.lt); [apply StronglySorted_seqZ| |].
    + intros t Ht. apply StronglySorted_const. intros ??. cbn. lia.
    + intros t t' u v Ht Ht' Hlt Hu Hv. apply elem_of_seqZ in Ht, Ht'.
      apply list_elem_of_fmap in Hu as (? & -> & _).
      apply list_elem_of_fmap in Hv as (? & -> & _). cbn.
      rewrite !to_int_small by lia. lia.
  - intros p t Hin. rewrite visits_rows in Hin. unfold visit_rows in Hin.
    apply list_elem_of_bind in Hin as (t' & Hp & Ht'). apply elem_of_seqZ in Ht'.
    apply list_elem_of_fmap in Hp as (p' & [= -> ->] & _).
    rewrite to_int_small by lia. lia.
  - intros Hle. rewrite visits_rows. unfold visit_rows. by rewrite seqZ_nil by lia.
Qed.

Lemma forEach_times_witness :
  StronglySorted (λ v w, snd v ≤ snd w) (visits (MkZoid [Range 0 4] [1] 2 4) [8]).
Proof.
  destruct (forEach_times (MkZoid [Range 0 4] [1] 2 4) [8]) as (Hsorted & _ & _);
    [cbn; lia|cbn; lia|exact Hsorted].
Defined.

(** * The splits of a zoid *)

Lemma row_base_top z split tb te τ :
  row_base (MkZoid (row_base z split) (slopes z) tb te) τ = row_base z (split + τ).
Proof.
  unfold row_base. cbn [base slopes]. apply list_eq. intros i.
  rewrite !list_lookup_imap. destruct (base z !! i) as [[b e]|]; [|done].
  cbn. do 2 f_equal; lia.
Qed.

Lemma splitTime_times z :
  times_ok z →
  let split := (t_end z - t_begin z) `quot` 2 in
  0 ≤ split ≤ t_end z - t_begin z ∧
  Zoid.bottom (Zoid.splitTime z) =
    MkZoid (base z) (slopes z) (t_begin z) (t_begin z + split) ∧
  Zoid.top (Zoid.splitTime z) =
    MkZoid (row_base z split) (slopes z) (t_begin z + split) (t_end z).
Proof.
  intros Hok split. pose proof Hok as (Hb & He & Hh).
  pose proof (quot2_nonneg_bounds (t_end z - t_begin z) ltac:(lia)) as Hq. fold split in Hq.
  split; [lia|]. unfold Zoid.splitTime. rewrite (getHeight_ok z Hok). fold split.
  rewrite to_size_t_small by lia. done.
Qed.

(** X11: a split in time keeps the visits and their order: [forEach] on the
    bottom part and then on the top part is [forEach] on the zoid, for all
    handlers. *)
Theorem splitTime_forEach {S : Type} (z : Zoid) (ev od : list Z → Z → S → S)
    (limits : list Z) (s : S) :
  times_ok z →
  Zoid.forEach (Zoid.top (Zoid.splitTime z)) ev od limits
    (Zoid.forEach (Zoid.bottom (Zoid.splitTime z)) ev od limits s) =
  Zoid.forEach z ev od limits s.
Proof.
  intros Hok. destruct (splitTime_times z Hok) as (Hs & -> & ->).
  set (split := (t_end z - t_begin z) `quot` 2) in *.
  rewrite !forEach_rows. cbn [t_begin t_end]. unfold Zoid.dims. cbn [base].
  rewrite row_base_length.
  assert (Hseq : seqZ (t_begin z) (t_end z - t_begin z) =
            seqZ (t_begin z) split ++ seqZ (t_begin z + split) (t_end z - t_begin z - split)).
  { rewrite <- seqZ_app by lia. f_equal. lia. }
  rewrite Hseq, foldl_app.
  replace (t_begin z + split - t_begin z) with split by lia.
  replace (t_end z - (t_begin z + split)) with (t_end z - t_begin z - split) by lia.
  apply foldl_ext_in. intros s' t Ht. apply elem_of_seqZ in Ht.
  rewrite row_base_top. by replace (split + (t - (t_begin z + split))) with (t - t_begin z) by lia.
Qed.

Lemma splitTime_forEach_witness :
  Zoid.forEach (Zoid.top (Zoid.splitTime (MkZoid [Range 0 8] [1] 0 4)))
    record_visit record_visit [8]
    (Zoid.forEach (Zoid.bottom (Zoid.splitTime (MkZoid [Range 0 8] [1] 0 4)))
       record_visit record_visit [8] []) =
  Zoid.forEach (MkZoid [Range 0 8] [1] 0 4) record_visit record_visit [8] [].
Proof.
  apply (splitTime_forEach (MkZoid [Range 0 8] [1] 0 4)). unfold times_ok. cbn. lia.
Defined.

(** X12: a split in time of a zoid of height 1 makes no progress: the
    bottom part has no plain and the top part is the zoid itself.  Among
    the zoids of height 1 are zoids that are neither terminal nor splitable
    in space, those of one dimension with a positive slope and a width of 3
    or 4: for them the split alternative of [pforEach] recurs on the zoid
    itself. *)
Theorem splitTime_height_1 (z : Zoid) :
  times_ok z → t_end z - t_begin z = 1 →
  Zoid.top (Zoid.splitTime z) = z ∧
  t_end (Zoid.bottom (Zoid.splitTime z)) = t_begin (Zoid.bottom (Zoid.splitTime z)) ∧
  (length (base z) = 1%nat → slopes z !!! 0%nat = 1 →
   3 ≤ Base.getWidth (base z) 0 ≤ 4 →
   Zoid.isTerminal z = false ∧ Zoid.isSpaceSplitable z = false).
Proof.
  intros Hok Hh. destruct (splitTime_times z Hok) as (_ & -> & ->).
  rewrite Hh. change (1 `quot` 2) with 0. rewrite Z.add_0_r, row_base_0.
  split; [by destruct z|]. split; [done|].
  intros Hlen Hslope Hw. pose proof (getHeight_ok z Hok) as Hheight. rewrite Hh in Hheight.
  split.
  - unfold Zoid.isTerminal. rewrite Hheight. unfold Base.getMaximumWidth. rewrite Hlen.
    cbn [Nat.sub seq foldl]. apply andb_false_iff. right. apply bool_decide_eq_false. lia.
  - unfold Zoid.isSpaceSplitable, Zoid.dims. rewrite Hlen. cbn [seq existsb].
    unfold Zoid.isSplitable, Zoid.getWidth. rewrite Hheight, Hslope.
    rewrite (bool_decide_eq_false_2 (1 < 0)) by lia. rewrite to_int_small by lia.
    rewrite bool_decide_eq_false_2 by lia. done.
Qed.

Lemma splitTime_height_1_witness :
  Zoid.top (Zoid.splitTime (MkZoid [Range 2 6] [1] 3 4)) = MkZoid [Range 2 6] [1] 3 4.
Proof.
  destruct (splitTime_height_1 (MkZoid [Range 2 6] [1] 3 4)) as [Htop _];
    [unfold times_ok; cbn; lia|done|exact Htop].
Defined.

(** a zoid with slopes 1 and -1 whose plains wrap around at most once *)
Definition tidy (size : list Z) (z : Zoid) : Prop :=
  length (base z) = length size ∧ length (slopes z) = length size ∧
  (∀ i, (i < length size)%nat → slopes z !!! i = -1 ∨ slopes z !!! i = 1) ∧
  0 ≤ t_begin z ≤ t_end z ∧ t_end z < 2 ^ 31 ∧
  ∀ τ i L, 0 ≤ τ < t_end z - t_begin z → size !! i = Some L →
    sane L (rbegin (row_range z τ i)) (rend (row_range z τ i)).












(** * The enumeration of the task graph *)

(** the arguments of the call of [body] for the task [m]: the index of the
    task, and the indices with one of its bits cleared, the highest bit
    first *)
Definition call_of (Dims m : nat) : list nat :=
  m :: (clear_bit m <$> filter (λ j, bit_set m j) (reverse (seq 0 Dims))).

Lemma extractor_spec m pos args :
  task_dependency_extractor m pos args =
  args ++ (clear_bit m <$> filter (λ j, bit_set m j) (reverse (seq 0 (S pos)))).
Proof.
  revert args. induction pos as [|pos IH]; intros args.
  - cbn [task_dependency_extractor]. change (reverse (seq 0 1)) with [0%nat].
    rewrite filter_cons. destruct (bit_set m 0); cbn; [done|by rewrite app_nil_r].
  - cbn [task_dependency_extractor]. rewrite (seq_S (S pos)), reverse_app.
    change (reverse [(0 + S pos)%nat]) with [S pos]. cbn [app].
    rewrite filter_cons. destruct (bit_set m (S pos)); cbn [decide_rel]; rewrite IH.
    + rewrite decide_True by done. cbn [fmap list_fmap]. by rewrite <- app_assoc.
    + by rewrite decide_False by (by intros ?).
Qed.

Lemma popcount_0 : popcount 0 = 0%nat.
Proof. reflexivity. Qed.

Lemma visit_spec Dims T i :
  (0 < Dims)%nat →
  task_dependency_visit Dims T i =
  call_of Dims <$> filter (λ m, popcount m = i) (seq 0 (S T)).
Proof.
  intros HD.
  assert (Hcall : ∀ m, task_dependency_extractor m (Dims - 1) [m] = call_of Dims m).
  { intros m. rewrite extractor_spec. by replace (S (Dims - 1)) with Dims by lia. }
  induction T as [|T IH].
  - cbn [task_dependency_visit seq]. rewrite filter_cons, popcount_0, Hcall.
    destruct (decide (i = 0%nat)) as [->|Hi].
    + by rewrite decide_True by done.
    + by rewrite decide_False by (by intros ?).
  - cbn [task_dependency_visit]. rewrite IH, (seq_S (S T)), filter_app, fmap_app.
    f_equal. cbn [Nat.add]. rewrite filter_cons, Hcall.
    destruct (decide (popcount (S T) = i)); done.
Qed.

(** the tasks in the order of the enumeration *)
Definition by_bits (Dims : nat) : list nat :=
  i ← seq 0 (S Dims); filter (λ m, popcount m = i) (seq 0 (2 ^ Dims)).

Lemma enumTaskGraph_calls Dims :
  (0 < Dims)%nat → enumTaskGraph Dims = call_of Dims <$> by_bits Dims.
Proof.
  intros HD. unfold enumTaskGraph, task_graph_enumerator, task_dependency_enumerator, by_bits.
  assert (Hpow : S (2 ^ Dims - 1) = (2 ^ Dims)%nat).
  { assert (2 ^ Dims ≠ 0)%nat by (apply Nat.pow_nonzero; lia). lia. }
  generalize (seq 0 (S Dims)). intros l.
  induction l as [|i l IH]; [done|].
  rewrite !bind_cons, fmap_app, IH, visit_spec, Hpow by done. done.
Qed.

Lemma popcount_le Dims m : (m < 2 ^ Dims)%nat → (popcount m ≤ Dims)%nat.
Proof.
  intros Hm. rewrite (popcount_bits Dims m Hm).
  etransitivity; [apply length_filter|]. by rewrite length_seq.
Qed.

Lemma StronglySorted_seq a n : StronglySorted lt (seq a n).
Proof.
  revert a. induction n as [|n IH]; intros a; [constructor|]. cbn. constructor; [apply IH|].
  apply Forall_forall. intros x Hx. apply elem_of_seq in Hx. lia.
Qed.

Lemma by_bits_spec Dims :
  by_bits Dims ≡ₚ seq 0 (2 ^ Dims) ∧
  StronglySorted (λ a b, (popcount a ≤ popcount b)%nat) (by_bits Dims).
Proof.
  unfold by_bits. split.
  - apply NoDup_Permutation; [|apply NoDup_seq|].
    + apply NoDup_bind; [| |apply NoDup_seq].
      * intros i i' m _ _ Hm Hm'.
        apply list_elem_of_filter in Hm as [Hm _]. apply list_elem_of_filter in Hm' as [Hm' _].
        congruence.
      * intros i _. apply NoDup_filter, NoDup_seq.
    + intros m. rewrite list_elem_of_bind, elem_of_seq. split.
      * intros (i & Hm & _). apply list_elem_of_filter in Hm as [_ Hm].
        by apply elem_of_seq in Hm.
      * intros Hm. exists (popcount m). split.
        -- apply list_elem_of_filter. split; [done|]. by apply elem_of_seq.
        -- apply elem_of_seq. pose proof (popcount_le Dims m ltac:(lia)). lia.
  - apply (StronglySorted_bind lt); [apply StronglySorted_seq| |].
    + intros i _. induction (seq 0 (2 ^ Dims)) as [|m l IH]; [constructor|].
      rewrite filter_cons. case_decide as Hm; [|done]. constructor; [done|].
      apply Forall_forall. intros m' Hm'. apply list_elem_of_filter in Hm' as [Hm' _]. lia.
    + intros i i' m m' _ _ Hlt Hm Hm'.
      apply list_elem_of_filter in Hm as [Hm _]. apply list_elem_of_filter in Hm' as [Hm' _].
      lia.
Qed.

Lemma call_of_deps Dims m d :
  (m < 2 ^ Dims)%nat → d ∈ tail (call_of Dims m) →
  (d < 2 ^ Dims)%nat ∧ (popcount d < popcount m)%nat.
Proof.
  intros Hm Hd. cbn [call_of tail] in Hd.
  apply list_elem_of_fmap in Hd as (j & -> & Hj).
  apply list_elem_of_filter in Hj as [Hbit Hj].
  rewrite elem_of_reverse, elem_of_seq in Hj.
  rewrite bit_set_testbit in Hbit. apply Is_true_true in Hbit.
  destruct (clear_bit_spec m j Hbit) as [Hval Hbits].
  assert (0 < 2 ^ Z.of_nat j) by (apply Z.pow_pos_nonneg; lia).
  assert (Hlt : (clear_bit m j < 2 ^ Dims)%nat) by lia.
  split; [done|]. apply (popcount_subset Dims); [done|done| |lia].
  intros i Hi. rewrite Hbits. by intros [? _]%andb_true_iff.
Qed.

(** X15: [enumTaskGraph] calls [body] once for every task of the layer, the
    tasks with fewer bits first: the order of the calls is one of the
    orders [runSequential] may take its tasks in; and every task that is
    handed to a call as a dependency is the task of a call before it, so
    that [runParallel] reads a handle of [jobs] after it has written it. *)
Theorem enumTaskGraph_order (Dims : nat) :
  (0 < Dims)%nat →
  let calls := enumTaskGraph Dims in
  ExecutionPlan.sorted_by_bits Dims (hd 0%nat <$> calls) ∧
  ∀ l1 c l2 d, calls = l1 ++ c :: l2 → d ∈ tail c →
    ∃ c', c' ∈ l1 ∧ hd 0%nat c' = d.
Proof.
  intros HD calls. destruct (by_bits_spec Dims) as [Hperm Hsorted].
  assert (Hheads : hd 0%nat <$> calls = by_bits Dims).
  { unfold calls. rewrite enumTaskGraph_calls by done.
    rewrite <- list_fmap_compose. apply list_fmap_id. }
  split; [by rewrite Hheads|].
  intros l1 c l2 d Hcalls Hd.
  assert (Hc : c ∈ call_of Dims <$> by_bits Dims).
  { rewrite <- enumTaskGraph_calls by done. fold calls. rewrite Hcalls.
    apply elem_of_app. right. left. }
  apply list_elem_of_fmap in Hc as (m & -> & Hm).
  rewrite Hperm, elem_of_seq in Hm.
  destruct (call_of_deps Dims m d ltac:(lia) Hd) as [Hlt Hpop].
  assert (Hin : d ∈ hd 0%nat <$> calls).
  { rewrite Hheads, Hperm. apply elem_of_seq. lia. }
  rewrite Hcalls, fmap_app, fmap_cons in Hin. cbn [call_of hd] in Hin.
  apply elem_of_app in Hin as [Hin|Hin].
  - apply list_elem_of_fmap in Hin as (c' & -> & Hc'). by exists c'.
  - exfalso. rewrite <- Hheads, Hcalls, fmap_app, fmap_cons in Hsorted.
    cbn [call_of hd] in Hsorted. apply StronglySorted_app_1_r in Hsorted.
    apply elem_of_cons in Hin as [->|Hin]; [lia|].
    apply StronglySorted_inv in Hsorted as [_ Hall].
    eapply Forall_forall in Hall; [|exact Hin]. cbn in Hall. lia.
Qed.

Lemma enumTaskGraph_order_witness :
  ExecutionPlan.sorted_by_bits 3 (hd 0%nat <$> enumTaskGraph 3).
Proof.
  destruct (enumTaskGraph_order 3) as [Hs _]; [lia|exact Hs].
Defined.

(** X16: the dependencies [enumTaskGraph] hands to the call for a task are
    the tasks of the layer whose index is that of the task with one of its
    1-bits cleared, the highest bit first: for every task but the first the
    list [runParallel] creates the task with is that of [dependencies], in
    the opposite order; the first task is handed none. *)
Theorem enumTaskGraph_dependencies (Dims : nat) (c : list nat) :
  (0 < Dims)%nat → c ∈ enumTaskGraph Dims →
  let m := hd 0%nat c in
  (m < 2 ^ Dims)%nat ∧
  (m = 0%nat → tail c = []) ∧
  (m ≠ 0%nat → ∀ k, tail c = reverse (snd <$> dependencies Dims (k, m))) ∧
  ∀ d, d ∈ tail c → (d < m)%nat ∧ subset_bits Dims d m ∧ (popcount d < popcount m)%nat.
Proof.
  intros HD Hc. rewrite enumTaskGraph_calls in Hc by done.
  apply list_elem_of_fmap in Hc as (m & -> & Hm). cbn [call_of hd tail].
  destruct (by_bits_spec Dims) as [Hperm _]. rewrite Hperm, elem_of_seq in Hm.
  split; [lia|]. split; [|split].
  - intros ->. rewrite filter_reverse.
    assert (Hnil : filter (λ j, bit_set 0 j) (seq 0 Dims) = []).
    { induction (seq 0 Dims) as [|j l IH]; [done|].
      rewrite filter_cons, IH. rewrite bit_set_testbit, Z.bits_0. done. }
    by rewrite Hnil.
  - intros Hne k. destruct m as [|m]; [done|]. unfold dependencies.
    rewrite <- list_fmap_compose, filter_reverse, fmap_reverse. done.
  - intros d Hd. destruct (call_of_deps Dims m d ltac:(lia)) as [Hlt Hpop]; [done|].
    apply list_elem_of_fmap in Hd as (j & -> & Hj).
    apply list_elem_of_filter in Hj as [Hbit _].
    rewrite bit_set_testbit in Hbit. apply Is_true_true in Hbit.
    destruct (clear_bit_spec m j Hbit) as [Hval Hbits].
    assert (0 < 2 ^ Z.of_nat j) by (apply Z.pow_pos_nonneg; lia).
    split; [lia|]. split; [|done].
    intros i Hi. rewrite Hbits. by intros [? _]%andb_true_iff.
Qed.

Lemma enumTaskGraph_dependencies_witness :
  tail [5; 1; 4]%nat = reverse (snd <$> dependencies 3 (0%nat, 5%nat)).
Proof.
  destruct (enumTaskGraph_dependencies 3 [5; 1; 4]%nat) as (_ & _ & Hdeps & _).
  - lia.
  - vm_compute. do 5 right. left.
  - apply (Hdeps ltac:(done) 0%nat).
Defined.

(** * The runs of a plan *)

Lemma forEach_record z limits acc :
  Zoid.forEach z record_visit record_visit limits acc = acc ++ visits z limits.
Proof.
  rewrite forEach_fold. rewrite <- foldl_record. apply foldl_ext_in.
  intros s v _. by destruct (Z.odd (snd v)).
Qed.

Lemma runSequential_record order layers limits :
  ExecutionPlan.runSequential order layers record_visit record_visit limits [] =
  plan_visits order limits layers.
Proof.
  unfold ExecutionPlan.runSequential, plan_visits.
  assert (Hgen : ∀ acc,
    foldl (λ s cur, foldl (λ s idx,
             Zoid.forEach (cur !!! idx) record_visit record_visit limits s) s order)
          acc layers =
    acc ++ (layers ≫= λ cur, order ≫= λ idx, visits (cur !!! idx) limits)).
  { induction layers as [|cur layers IH]; intros acc; cbn [foldl].
    - by rewrite app_nil_r.
    - rewrite IH, bind_cons, app_assoc. f_equal.
      clear. revert acc. induction order as [|idx order IH]; intros acc; cbn [foldl].
      + by rewrite app_nil_r.
      + rewrite IH, forEach_record, bind_cons, app_assoc. done. }
  apply (Hgen []).
Qed.

(** X17: the order in which [runSequential] visits the cells of the plan of
    [create] respects the dependencies of the stencil: whichever order
    [std::sort] returns for the tasks with the same number of bits, every
    visit comes after the visits of the step before at the positions next
    to it. *)
Theorem runSequential_order (size : list Z) (steps : Z) (order : list nat) (fuel : nat) :
  size ≠ [] → Forall (λ n, 2 ≤ n) size →
  0 ≤ steps → steps + PlanSpec.height (Base.full size) ≤ 2 ^ 31 →
  (Z.to_nat steps ≤ fuel)%nat →
  ExecutionPlan.sorted_by_bits (length size) order →
  ∃ plan, ExecutionPlan.create fuel (Base.full size) steps = Some plan ∧
    synchronised (near size) []
      (ExecutionPlan.runSequential order plan record_visit record_visit
         (Base.extend (Base.full size)) []).
Proof.
  intros Hne Hsize Hs Hmax Hfuel [Hperm Hsorted].
  assert (Hdims : (0 < length size)%nat) by (destruct size; [done|cbn; lia]).
  destruct (height_bounds _ Hdims Hsize) as [Hh _].
  exists (PlanSpec.layers (Base.full size) steps).
  split; [apply create_layers; (done || lia)|].
  rewrite runSequential_record, extend_full by done.
  by apply plan_visits_synchronised.
Qed.

Lemma runSequential_order_witness :
  ∃ plan, ExecutionPlan.create 3 (Base.full [4; 6]) 3 = Some plan ∧
    synchronised (near [4; 6]) []
      (ExecutionPlan.runSequential [0; 2; 1; 3]%nat plan record_visit record_visit
         (Base.extend (Base.full [4; 6])) []).
Proof.
  apply (runSequential_order [4; 6] 3 [0; 2; 1; 3]%nat 3).
  - done.
  - repeat (apply Forall_cons; split; [lia|]). apply Forall_nil_2.
  - lia.
  - change (PlanSpec.height (Base.full [4; 6])) with 2. lia.
  - lia.
  - split.
    + cbn. apply perm_skip, perm_swap.
    + cbn. repeat constructor.
Defined.

(** the plan does not depend on the fuel the construction ends with *)
Lemma create_loop_mono fuel fuel' base sp h steps t0 plan :
  (fuel ≤ fuel')%nat →
  ExecutionPlan.create_loop fuel base sp h steps t0 = Some plan →
  ExecutionPlan.create_loop fuel' base sp h steps t0 = Some plan.
Proof.
  revert fuel' t0 plan. induction fuel as [|fuel IH]; intros fuel' t0 plan Hle;
    destruct fuel' as [|fuel']; cbn [ExecutionPlan.create_loop];
    case_bool_decide; try done; try lia.
  destruct (ExecutionPlan.create_loop fuel _ _ _ _ _) as [rest|] eqn:Hrest; [|done].
  intros Hplan. by rewrite (IH fuel' _ rest ltac:(lia) Hrest).
Qed.

Lemma create_plan size steps fuel plan :
  (0 < length size)%nat → Forall (λ n, 2 ≤ n) size →
  0 ≤ steps → steps + PlanSpec.height (Base.full size) ≤ 2 ^ 31 →
  ExecutionPlan.create fuel (Base.full size) steps = Some plan →
  plan = PlanSpec.layers (Base.full size) steps.
Proof.
  intros Hdims Hsize Hs Hmax Hplan.
  destruct (height_bounds _ Hdims Hsize) as [Hh _].
  assert (Hl : ExecutionPlan.create (fuel `max` Z.to_nat steps) (Base.full size) steps =
               Some (PlanSpec.layers (Base.full size) steps))
    by (apply create_layers; lia).
  unfold ExecutionPlan.create in *.
  rewrite (create_loop_mono fuel (fuel `max` Z.to_nat steps) _ _ _ _ _ plan ltac:(lia) Hplan)
    in Hl. by simplify_eq.
Qed.


(** ** A run of the task graph *)

Lemma graph_run_app layers limits σ1 t1 σ2 t2 σ3 :
  graph_run layers limits σ1 t1 σ2 → graph_run layers limits σ2 t2 σ3 →
  graph_run layers limits σ1 (t1 ++ t2) σ3.
Proof.
  induction 1 as [σ|σ1 σ2 σ2' vs trace Hstep Hrun IH]; intros Hrest; [done|].
  rewrite <- app_assoc. eapply graph_run_step; [exact Hstep|]. by apply IH.
Qed.

Lemma run_visits layers limits C S id todo :
  graph_run layers limits (MkGraphState C S [(id, todo)]) todo (MkGraphState C S [(id, [])]).
Proof.
  induction todo as [|v todo IH]; [apply graph_run_done|].
  apply (graph_run_step _ _ _ (MkGraphState C S [(id, todo)]) _ [v] todo); [|exact IH].
  by apply (step_visit _ _ (MkGraphState C S [(id, v :: todo)]) [] [] id v todo).
Qed.

(** a task whose dependencies are complete runs from its start to its
    completion, with the sequential alternative of [pforEach] *)
Lemma run_task layers limits C S k idx cur z :
  layers !! k = Some cur → cur !! idx = Some z →
  (k, idx) ∉ S →
  (∀ d, d ∈ dependencies (length limits) (k, idx) → d ∈ C) →
  graph_run layers limits (MkGraphState C S []) (visits z limits)
    (MkGraphState ((k, idx) :: C) ((k, idx) :: S) []).
Proof.
  intros Hk Hidx Hnew Hdeps.
  assert (Htree : pforEach z (t_run z)).
  { destruct (Zoid.isTerminal z) eqn:Ht;
      [by apply pforEach_terminal|by apply pforEach_alternative]. }
  apply (graph_run_step _ _ _ (MkGraphState C ((k, idx) :: S) [((k, idx), visits z limits)])
           _ [] (visits z limits)).
  { apply (step_start _ _ (MkGraphState C S []) k idx cur z (t_run z)); try done.
    apply runs_run. }
  assert (Hend : graph_run layers limits
            (MkGraphState C ((k, idx) :: S) [((k, idx), [])]) []
            (MkGraphState ((k, idx) :: C) ((k, idx) :: S) [])).
  { apply (graph_run_step _ _ _ (MkGraphState ((k, idx) :: C) ((k, idx) :: S) []) _ [] []);
      [|apply graph_run_done].
    by apply (step_complete _ _ (MkGraphState C ((k, idx) :: S) [((k, idx), [])])
                [] [] (k, idx)). }
  pose proof (graph_run_app _ _ _ _ _ _ _
                (run_visits layers limits C ((k, idx) :: S) (k, idx) (visits z limits))
                Hend) as Hrun.
  by rewrite app_nil_r in Hrun.
Qed.
















Section schedule.
Context (layers : list (list Zoid)).
Context (limits : list Z).
Context (Hdims : (0 < length limits)%nat).
Context (Hlayers : Forall (λ cur, length cur = (2 ^ length limits)%nat) layers).
Context (order : list nat).
Context (Hperm : order ≡ₚ seq 0 (2 ^ length limits)).
Context (Hsorted : StronglySorted (λ a b, (popcount a ≤ popcount b)%nat) order).

(** the tasks of the layers before the layer [k], the last one first *)
Fixpoint tasks_before (k : nat) : list (nat * nat) :=
  match k with
  | O => []
  | S k' => ((λ idx, (k', idx)) <$> reverse order) ++ tasks_before k'
  end.

Lemma elem_of_tasks_before k k' idx :
  (k', idx) ∈ tasks_before k ↔ (k' < k)%nat ∧ idx ∈ order.
Proof.
  induction k as [|k IH]; cbn [tasks_before].
  - rewrite elem_of_nil. lia.
  - rewrite elem_of_app, IH, list_elem_of_fmap. split.
    + intros [(i & [= -> ->] & Hi)|[Hlt Hin]].
      * rewrite elem_of_reverse in Hi. split; [lia|done].
      * split; [lia|done].
    + intros [Hlt Hin]. destruct (decide (k' = k)) as [->|Hne].
      * left. exists idx. split; [done|]. by rewrite elem_of_reverse.
      * right. split; [lia|done].
Qed.

(** the tasks of a layer, in the order [order] *)
Lemma run_layer k cur (processed rest : list nat) :
  layers !! k = Some cur → order = processed ++ rest →
  graph_run layers limits
    (MkGraphState (((λ idx, (k, idx)) <$> reverse processed) ++ tasks_before k)
                  (((λ idx, (k, idx)) <$> reverse processed) ++ tasks_before k) [])
    (rest ≫= λ idx, visits (cur !!! idx) limits)
    (MkGraphState (tasks_before (S k)) (tasks_before (S k)) []).
Proof.
  intros Hk. revert processed. induction rest as [|idx rest IH]; intros processed Horder.
  - rewrite app_nil_r in Horder. subst processed. apply graph_run_done.
  - rewrite bind_cons.
    assert (Hidx : (idx < 2 ^ length limits)%nat).
    { assert (Hin : idx ∈ order) by (rewrite Horder, elem_of_app; right; left).
      rewrite Hperm, elem_of_seq in Hin. lia. }
    assert (Hlen : length cur = (2 ^ length limits)%nat).
    { eapply Forall_lookup_1 in Hlayers; [|exact Hk]. done. }
    assert (Hnd : NoDup order) by (rewrite Hperm; apply NoDup_seq).
    eapply graph_run_app.
    + apply (run_task _ _ _ _ k idx cur (cur !!! idx)); [done| | |].
      * apply list_lookup_lookup_total_lt. lia.
      * rewrite elem_of_app, list_elem_of_fmap, elem_of_tasks_before.
        intros [(i & [= <-] & Hi)|[Hlt _]]; [|lia].
        rewrite elem_of_reverse in Hi. rewrite Horder in Hnd.
        apply NoDup_app in Hnd as (_ & Hnd & _). apply (Hnd idx Hi). left.
      * intros d Hd. apply elem_of_app. unfold dependencies in Hd.
        destruct idx as [|idx'].
        -- right. destruct k as [|k']; [by apply elem_of_nil in Hd|].
           apply list_elem_of_singleton in Hd as ->.
           apply elem_of_tasks_before. split; [lia|].
           rewrite Hperm. apply elem_of_seq. pose proof (full_lt (length limits)). lia.
        -- left. apply list_elem_of_fmap in Hd as (j & -> & Hj).
           apply list_elem_of_filter in Hj as [Hbit Hj]. apply elem_of_seq in Hj.
           rewrite bit_set_testbit in Hbit. apply Is_true_true in Hbit.
           fold (clear_bit (S idx') j).
           destruct (clear_bit_spec (S idx') j Hbit) as [Hval Hbits].
           assert (0 < 2 ^ Z.of_nat j) by (apply Z.pow_pos_nonneg; lia).
           apply list_elem_of_fmap. exists (clear_bit (S idx') j). split; [done|].
           rewrite elem_of_reverse.
           apply (order_before limits Hdims order Hperm Hsorted processed (S idx') rest);
             [done|lia|].
           apply (popcount_subset (length limits)); [lia|done| |lia].
           intros i Hi. rewrite Hbits. by intros [? _]%andb_true_iff.
    + specialize (IH (processed ++ [idx])). rewrite reverse_app in IH. cbn in IH.
      apply IH. by rewrite <- app_assoc.
Qed.

Lemma run_layers k :
  (k ≤ length layers)%nat →
  graph_run layers limits (MkGraphState [] [] [])
    (take k layers ≫= λ cur, order ≫= λ idx, visits (cur !!! idx) limits)
    (MkGraphState (tasks_before k) (tasks_before k) []).
Proof.
  induction k as [|k IH]; intros Hk; [apply graph_run_done|].
  destruct (lookup_lt_is_Some_2 layers k ltac:(lia)) as [cur Hcur].
  rewrite (take_S_r _ _ _ Hcur), bind_app. cbn [mbind list_bind]. rewrite app_nil_r.
  eapply graph_run_app; [apply IH; lia|].
  apply (run_layer k cur [] order Hcur eq_refl).
Qed.

Lemma sequential_schedule : runParallel layers limits (plan_visits order limits layers).
Proof.
  exists (MkGraphState (tasks_before (length layers)) (tasks_before (length layers)) []).
  split.
  - pose proof (run_layers (length layers) ltac:(lia)) as Hrun.
    by rewrite firstn_all in Hrun.
  - destruct layers as [|cur rest] eqn:Hl; [by left|right]. cbn [complete].
    apply elem_of_tasks_before. split; [cbn; lia|].
    rewrite Hperm. apply elem_of_seq. pose proof (full_lt (length limits)). lia.
Qed.

End schedule.

(** X19: the task graph of [runParallel] can always run to the completion
    of its last task: with the sequential alternative picked in [pforEach]
    and the tasks run one after the other, in the order [runSequential]
    takes them in, every task starts after the tasks it waits for.  The
    visits of [runSequential] are the visits of this run. *)
Theorem runParallel_schedule (layers : list (list Zoid)) (limits : list Z)
    (order : list nat) :
  limits ≠ [] →
  Forall (λ cur, length cur = (2 ^ length limits)%nat) layers →
  ExecutionPlan.sorted_by_bits (length limits) order →
  runParallel layers limits
    (ExecutionPlan.runSequential order layers record_visit record_visit limits []).
Proof.
  intros Hne Hlayers [Hperm Hsorted].
  assert (Hdims : (0 < length limits)%nat) by (destruct limits; [done|cbn; lia]).
  rewrite runSequential_record. by apply sequential_schedule.
Qed.

Lemma runParallel_schedule_witness :
  runParallel [[MkZoid [Range 0 2] [1] 0 1; MkZoid [Range 2 2] [-1] 0 1]] [2]
    (ExecutionPlan.runSequential [0; 1]%nat
       [[MkZoid [Range 0 2] [1] 0 1; MkZoid [Range 2 2] [-1] 0 1]]
       record_visit record_visit [2] []).
Proof.
  apply runParallel_schedule.
  - done.
  - apply Forall_cons. split; [done|apply Forall_nil_2].
  - split; [done|]. cbn. repeat constructor.
Defined.

(** X20: the zoids of the plan of [create] are tidy, and every layer holds
    one zoid for every pattern of bits: their plains wrap around at most
    once, so that [forEach] and the tasks of [pforEach] visit every cell of
    a zoid once. *)
Theorem plan_zoids_tidy (size : list Z) (steps : Z) (fuel : nat)
    (plan : list (list Zoid)) :
  size ≠ [] → Forall (λ n, 2 ≤ n < 2 ^ 31) size →
  0 ≤ steps → steps + PlanSpec.height (Base.full size) ≤ 2 ^ 31 →
  ExecutionPlan.create fuel (Base.full size) steps = Some plan →
  Forall (λ cur, length cur = (2 ^ length size)%nat ∧ Forall (tidy size) cur) plan.
Proof.
  intros Hne Hsize Hs Hmax Hplan.
  assert (Hdims : (0 < length size)%nat) by (destruct size; [done|cbn; lia]).
  pose proof (size_2 _ Hdims Hsize) as Hsize2.
  rewrite (create_plan size steps fuel plan Hdims Hsize2 Hs Hmax Hplan).
  apply Forall_lookup_2. intros k cur Hk. split.
  - unfold PlanSpec.layers in Hk. rewrite list_lookup_fmap in Hk.
    destruct (seqZ 0 _ !! k); [|done]. cbn in Hk. simplify_eq.
    unfold PlanSpec.layer. by rewrite length_fmap, length_seq, full_length.
  - apply Forall_lookup_2. intros idx z Hidx.
    destruct (layers_lookup size steps k cur idx z Hk Hidx) as [Hv ->].
    destruct (task_bounds size Hdims Hsize steps Hs Hmax (k, idx) Hv)
      as (H1 & H2 & H3 & H4 & H5). cbn [fst] in *.
    destruct (plan_zoid_fits size Hdims Hsize
                (Z.of_nat k * PlanSpec.height (Base.full size))
                (Z.min (Z.of_nat k * PlanSpec.height (Base.full size)
                        + PlanSpec.height (Base.full size)) steps)
                idx H1 ltac:(lia) H3 H4) as (Henv & _ & Hfits).
    unfold task_zoid. cbn [fst snd].
    set (t0 := Z.of_nat k * PlanSpec.height (Base.full size)) in *.
    set (t1 := Z.min (t0 + PlanSpec.height (Base.full size)) steps) in *.
    destruct Hfits as [Hb Hsl Hu Ht Hr].
    split; [done|]. split; [done|]. split; [done|].
    split; [cbn [t_begin t_end PlanSpec.zoid]; lia|].
    split; [cbn [t_end PlanSpec.zoid]; lia|].
    intros τ i L Hτ Hi. cbn [t_begin t_end PlanSpec.zoid] in Hτ.
    specialize (Henv (t0 + τ) i L ltac:(lia) Hi). cbn beta in Henv.
    replace (t0 + τ - t0) with τ in Henv by lia.
    unfold sane. lia.
Qed.

Lemma plan_zoids_tidy_witness :
  ∃ plan, ExecutionPlan.create 3 (Base.full [4; 6]) 3 = Some plan ∧
    Forall (λ cur, length cur = 4%nat ∧ Forall (tidy [4; 6]) cur) plan.
Proof.
  eexists. split; [reflexivity|].
  apply (plan_zoids_tidy [4; 6] 3 3).
  - done.
  - repeat (apply Forall_cons; split; [lia|]). apply Forall_nil_2.
  - lia.
  - change (PlanSpec.height (Base.full [4; 6])) with 2. lia.
  - reflexivity.
Defined.

(** * The edges of the implementations *)

Section edges.
Context {V : Type} `{Inhabited V}.

Lemma rem_2_odd (steps : Z) :
  (if decide (steps `rem` 2 ≠ 0) then true else false) = Z.odd steps.
Proof.
  pose proof (Z.quot_rem' steps 2) as Hq.
  assert (Hr : Z.abs (steps `rem` 2) < 2) by (apply Z.rem_bound_abs; lia).
  assert (Ho : Z.odd steps = Z.odd (steps `rem` 2)).
  { rewrite Hq at 1. rewrite Z.add_comm. apply Z.odd_add_mul_2. }
  rewrite Ho. case_decide as Hs.
  - assert (Hc : steps `rem` 2 = 1 ∨ steps `rem` 2 = -1) by lia.
    by destruct Hc as [-> | ->].
  - assert (Hc : steps `rem` 2 = 0) by lia. by rewrite Hc.
Qed.

(** X21: with a negative number of steps the recursive implementations
    build a plan without layers and visit no cell, but [steps % 2] is not 0
    for an odd negative number: the buffers are swapped, and [a] holds the
    content of the fresh container [b].  For an even negative number [a]
    is returned as it was. *)
Theorem negative_steps_recursive (impl : Impl) (rt : Runtime) (a : Container V)
    (steps : Z) (update : Update) :
  steps < 0 →
  impl ∈ [impl_sequential_recursive; impl_parallel_recursive] →
  admissible impl rt a steps →
  stencil impl rt a steps update =
    Some (if Z.odd steps then c_fresh (c_size a) else a).
Proof.
  intros Hs Himpl Hadm.
  rewrite !elem_of_cons, elem_of_nil in Himpl.
  destruct Himpl as [->|[->|[]]]; cbn in *.
  - unfold sequential_recursive. rewrite create_no_step by lia. cbn.
    unfold finish_recursive. rewrite <- rem_2_odd. by case_decide.
  - destruct Hadm as (plan & Hplan & σ & Hrun & _).
    rewrite create_no_step in Hplan by lia. simplify_eq.
    apply graph_run_no_layer in Hrun as ->.
    unfold parallel_recursive. rewrite create_no_step by lia. cbn.
    unfold finish_recursive. rewrite <- rem_2_odd. by case_decide.
Qed.

Lemma is_x_time_loop (sweep : Z → ptr → ptr → store V → store V) (steps : Z)
    (st : store V) :
  0 ≤ steps → is_x (time_loop sweep steps st) = x_at steps.
Proof.
  intros Hs. destruct (Z_of_nat_complete steps Hs) as [n ->]. clear Hs.
  unfold time_loop.
  assert (Hgen : let s := foldl (λ s t,
                     MkIterState (sweep t (is_x s) (is_y s) (is_store s)) (is_y s) (is_x s))
                   (MkIterState st ptr_a ptr_b) (seqZ 0 (Z.of_nat n)) in
                 is_x s = x_at (Z.of_nat n) ∧ is_y s = y_at (Z.of_nat n)).
  { induction n as [|n IH]; [done|]. cbn zeta in *.
    rewrite seqZ_S, foldl_app. cbn [foldl is_x is_y].
    destruct IH as [-> ->]. replace (Z.of_nat (S n)) with (Z.of_nat n + 1) by lia.
    destruct (x_at_succ (Z.of_nat n)) as [-> ->]. done. }
  apply Hgen.
Qed.

(** X22: for an even number of steps the result of [fine_grained_iterative]
    does not depend on how many of the loop bodies have taken effect when
    the end of the function is reached: the pointer [x] points to [a], the
    buffers are not swapped, and the bodies that are late write to the
    buffers they were created for. *)
Theorem fine_grained_even (trace : list (list Z * Z)) (before before' : nat)
    (a : Container V) (steps : Z) (update : Update) :
  Z.even steps = true →
  fine_grained_iterative trace before a steps update =
  fine_grained_iterative trace before' a steps update.
Proof.
  intros He.
  assert (Hgen : ∀ n, fine_grained_iterative trace n a steps update =
                      fine_grained_iterative trace 0 a steps update).
  { intros n. unfold fine_grained_iterative.
    set (s := time_loop _ steps _).
    assert (Hx : is_x s = ptr_a).
    { destruct (decide (0 ≤ steps)) as [Hs|Hs].
      - unfold s. rewrite is_x_time_loop by done. unfold x_at. by rewrite He.
      - unfold s. by rewrite time_loop_no_step by lia. }
    rewrite Hx. rewrite !decide_False by (by intros []).
    rewrite take_0, drop_0. cbn [foldl].
    rewrite <- foldl_app. by rewrite take_drop. }
  by rewrite (Hgen before), (Hgen before').
Qed.

(** X23: the buffers of [fine_grained_iterative] are swapped before
    [ref.wait()].  With one step, when no loop body has taken effect
    before the swap, every body reads what was the fresh buffer and writes
    to what was the content of [a], which is dropped: [a] holds the content
    of the fresh container, whatever the update. *)
Theorem fine_grained_late (rt : Runtime) (a : Container V) (update : Update) :
  admissible impl_fine_grained_iterative rt a 1 →
  rt_before rt = 0%nat →
  stencil impl_fine_grained_iterative rt a 1 update = Some (c_fresh (c_size a)).
Proof.
  intros [Hperm _] Hb. cbn. f_equal. unfold fine_grained_iterative.
  rewrite Hb, take_0, drop_0.
  change (time_loop (λ _ _ _ st, st) 1 (MkStore a (c_fresh (c_size a))))
    with (MkIterState (MkStore a (c_fresh (c_size a))) ptr_b ptr_a).
  cbn [foldl is_store is_x]. rewrite decide_True by done.
  unfold swap_ab. cbn [st_a st_b].
  assert (Htimes : Forall (λ v, snd v = 0) (rt_trace rt)).
  { apply Forall_forall. intros v Hv. rewrite Hperm in Hv.
    unfold all_visits in Hv. apply list_elem_of_bind in Hv as (t & Hv & Ht).
    apply list_elem_of_fmap in Hv as (p & -> & _).
    apply elem_of_seqZ in Ht. cbn. lia. }
  revert Htimes. generalize (rt_trace rt). intros tr Htimes.
  assert (Hgen : ∀ b0 : Container V,
            st_a (foldl (λ st v, iter_body update (x_at (snd v)) (y_at (snd v))
                                   (snd v) (fst v) st)
                    (MkStore (c_fresh (c_size a)) b0) tr) = c_fresh (c_size a)).
  { induction Htimes as [|v tr Hv _ IH]; intros b0; [done|].
    cbn [foldl]. rewrite Hv. unfold iter_body at 2. cbn [x_at y_at assign st_a st_b].
    change (y_at 0) with ptr_b. cbn [assign st_a st_b]. apply IH. }
  apply Hgen.
Qed.

End edges.

Lemma negative_steps_recursive_witness :
  stencil impl_parallel_recursive runtime_0 (MkContainer [4; 4] (λ _, 1)) (-3)
    (λ _ _ _, 0) = Some (c_fresh [4; 4]).
Proof.
  apply (negative_steps_recursive impl_parallel_recursive runtime_0
           (MkContainer [4; 4] (λ _, 1)) (-3) (λ _ _ _, 0)).
  - lia.
  - right. left.
  - exists []. split; [reflexivity|].
    exists (MkGraphState [] [] []). split; [constructor|]. by left.
Defined.

Lemma fine_grained_even_witness :
  fine_grained_iterative [([0], 0); ([1], 0); ([0], 1); ([1], 1)] 0
    (MkContainer [2] (λ _, 1)) 2 (λ _ _ _, 0) =
  fine_grained_iterative [([0], 0); ([1], 0); ([0], 1); ([1], 1)] 4
    (MkContainer [2] (λ _, 1)) 2 (λ _ _ _, 0).
Proof. apply fine_grained_even. reflexivity. Defined.

(** a run in which no loop body has taken effect at the end of the time
    loop *)
Definition runtime_late : Runtime := MkRuntime 0 [] (λ _, []) [([0], 0); ([1], 0)] 0.

Lemma fine_grained_late_witness :
  stencil impl_fine_grained_iterative runtime_late (MkContainer [2] (λ _, 1)) 1
    (λ _ _ _, 7) = Some (c_fresh [2]).
Proof.
  apply (fine_grained_late runtime_late (MkContainer [2] (λ _, 1)) (λ _ _ _, 7)).
  - split; [reflexivity|]. cbn. repeat split; intros; lia.
  - reflexivity.
Defined.

Lemma zero_extent_iterative_witness :
  ∃ a', stencil impl_coarse_grained_iterative runtime_0 (MkContainer [3; 0] (λ _, 1)) 5
          (λ _ _ _, 0) = Some a' ∧
        same_contents a' (MkContainer [3; 0] (λ _, 1)).
Proof.
  apply (zero_extent_iterative impl_coarse_grained_iterative runtime_0
           (MkContainer [3; 0] (λ _, 1)) 5 (λ _ _ _, 0)).
  - right. left.
  - right. left.
  - intros t. reflexivity.
Defined.
